(** * ATS tailor extension: keyword matching, section parsing and injection

    A shallow embedding of the keyword extractor ([keyword-extractor.js]),
    the two tailoring engines ([cv-tailor.js], [tailor-universal.js]), the
    chip matcher ([ui-keyword-chips.js]) and the orchestrator
    ([auto-tailor-95.js]).

    Modelling conventions.
    - A JavaScript string is a list of code units; code units are the 256
      values of [ascii] (the Latin-1 range).  Case folding, [\s], [\w] and
      [trim] are the ECMAScript ones restricted to that range.
    - A JavaScript number that holds a fraction is an IEEE binary64 value
      ([spec_float] with [prec = 53], [emax = 1024]); array lengths, counters
      and the results of [Math.round] / [Math.ceil] are integers ([Z]).
    - Plain objects used as maps are association lists or total functions
      over an enumeration of their keys. *)

From Stdlib Require Import List Ascii String Bool Arith ZArith Lia.
From Stdlib Require Import Permutation.
From Stdlib Require Import Floats.SpecFloat.
Import ListNotations.

Set Implicit Arguments.
Local Open Scope list_scope.

(* ================================================================== *)
(** * Strings *)
(* ================================================================== *)

Module Str.

Definition str := list ascii.

(** String literals of the source are written [s "..."]. *)
Definition s (x : string) : str := list_ascii_of_string x.

Definition code (c : ascii) : nat := nat_of_ascii c.

Definition eqc (a b : ascii) : bool := Ascii.eqb a b.

Fixpoint eqs (a b : str) : bool :=
  match a, b with
  | [], [] => true
  | x :: a', y :: b' => eqc x y && eqs a' b'
  | _, _ => false
  end.

Definition inRange (lo hi : nat) (c : ascii) : bool :=
  (lo <=? code c) && (code c <=? hi).

Definition isDigit (c : ascii) : bool := inRange 48 57 c.
Definition isUpperAZ (c : ascii) : bool := inRange 65 90 c.
Definition isLowerAZ (c : ascii) : bool := inRange 97 122 c.

(** [\w] of a non-unicode regular expression: [A-Za-z0-9_]. *)
Definition isWordChar (c : ascii) : bool :=
  isUpperAZ c || isLowerAZ c || isDigit c || (code c =? 95).

(** [\s] (and the characters removed by [trim]): TAB, LF, VT, FF, CR,
    SPACE and NBSP. *)
Definition isSpace (c : ascii) : bool :=
  inRange 9 13 c || (code c =? 32) || (code c =? 160).

(** Upper-case letters of Latin-1: A-Z, and U+00C0-U+00DE without U+00D7. *)
Definition isUpper (c : ascii) : bool :=
  isUpperAZ c || (inRange 192 222 c && negb (code c =? 215)).

(** [String.prototype.toLowerCase] on one code unit. *)
Definition lowerChar (c : ascii) : ascii :=
  if isUpper c then ascii_of_nat (code c + 32) else c.

Definition toLowerCase (t : str) : str := map lowerChar t.

(** Equality of code units under the [i] flag (canonicalisation). *)
Definition eqci (a b : ascii) : bool := eqc (lowerChar a) (lowerChar b).

Fixpoint startsWith (p t : str) : bool :=
  match p, t with
  | [], _ => true
  | x :: p', y :: t' => eqc x y && startsWith p' t'
  | _ :: _, [] => false
  end.

(** [String.prototype.includes]. *)
Fixpoint includes (t p : str) : bool :=
  startsWith p t ||
  match t with
  | [] => false
  | _ :: t' => includes t' p
  end.

Fixpoint dropWhile (f : ascii -> bool) (t : str) : str :=
  match t with
  | [] => []
  | c :: t' => if f c then dropWhile f t' else t
  end.

Definition trimStart (t : str) : str := dropWhile isSpace t.
Definition trimEnd (t : str) : str := rev (dropWhile isSpace (rev t)).
Definition trim (t : str) : str := trimEnd (trimStart t).

Definition nl : ascii := ascii_of_nat 10.

(** The bullet U+2022 lies above the modelled range; it is represented by
    code unit 149, which like U+2022 has no case and is neither a space
    nor a word character. *)
Definition bullet : ascii := ascii_of_nat 149.

(** [t.split(sep)] for a one-character separator: never the empty list. *)
Fixpoint splitOn (sep : ascii) (t : str) : list str :=
  match t with
  | [] => [[]]
  | c :: t' =>
      if eqc c sep then [] :: splitOn sep t'
      else match splitOn sep t' with
           | [] => [[c]]
           | l :: ls => (c :: l) :: ls
           end
  end.

(** [parts.join(sep)]. *)
Fixpoint join (sep : str) (parts : list str) : str :=
  match parts with
  | [] => []
  | [p] => p
  | p :: ps => p ++ sep ++ join sep ps
  end.

Definition memStr (x : str) (l : list str) : bool := existsb (eqs x) l.

End Str.

Import Str.

(* ================================================================== *)
(** * Regular expressions *)
(* ================================================================== *)

Module Regex.

(** The fragment of ECMAScript regular expressions the sources use.
    Quantifiers are applied to one-character classes only. *)
Inductive re : Type :=
| Eps
| Chr (c : ascii)
| Cls (p : ascii -> bool)
| Bnd
| Bol
| Eol
| BolM
| EolM
| Seq (a b : re)
| Alt (a b : re)
| Opt (a : re)
| StarCls (p : ascii -> bool).

Definition PlusCls (p : ascii -> bool) : re := Seq (Cls p) (StarCls p).

(** Line terminators seen by [^] and [$] under the [m] flag. *)
Definition isLineTerminator (c : ascii) : bool :=
  (code c =? 10) || (code c =? 13).

(** [a|b|...] *)
Fixpoint alts (l : list re) : re :=
  match l with
  | [] => Cls (fun _ => false)
  | [r] => r
  | r :: l' => Alt r (alts l')
  end.

Fixpoint lits (t : str) : re :=
  match t with
  | [] => Eps
  | c :: t' => Seq (Chr c) (lits t')
  end.

Section Match.
Variable A : Type.
(** [ic]: the [i] flag. *)
Variable ic : bool.

Definition chrMatch (c x : ascii) : bool := if ic then eqci c x else eqc c x.

Definition isWordAt (o : option ascii) : bool :=
  match o with Some c => isWordChar c | None => false end.

(** Greedy star over a class, falling back to fewer repetitions. *)
Fixpoint star (p : ascii -> bool) (k : str -> str -> option A)
         (before t : str) : option A :=
  match t with
  | c :: t' =>
      if p c then
        match star p k (c :: before) t' with
        | Some r => Some r
        | None => k before t
        end
      else k before t
  | [] => k before t
  end.

(** Backtracking matcher in continuation-passing style.  [before] is the
    text to the left of the current position, reversed. *)
Fixpoint run (r : re) (k : str -> str -> option A) (before t : str)
  : option A :=
  match r with
  | Eps => k before t
  | Chr c =>
      match t with
      | x :: t' => if chrMatch c x then k (x :: before) t' else None
      | [] => None
      end
  | Cls p =>
      match t with
      | x :: t' => if p x then k (x :: before) t' else None
      | [] => None
      end
  | Bnd =>
      if xorb (isWordAt (hd_error before)) (isWordAt (hd_error t))
      then k before t else None
  | Bol => match before with [] => k before t | _ => None end
  | Eol => match t with [] => k before t | _ => None end
  | BolM =>
      match before with
      | [] => k before t
      | c :: _ => if isLineTerminator c then k before t else None
      end
  | EolM =>
      match t with
      | [] => k before t
      | c :: _ => if isLineTerminator c then k before t else None
      end
  | Seq a b => run a (run b k) before t
  | Alt a b =>
      match run a k before t with
      | Some x => Some x
      | None => run b k before t
      end
  | Opt a =>
      match run a k before t with
      | Some x => Some x
      | None => k before t
      end
  | StarCls p => star p k before t
  end.
End Match.

(** A match starting exactly at the current position: the text consumed
    is returned through the new [before] and the rest. *)
Definition matchAt (ic : bool) (r : re) (before t : str)
  : option (str * str) :=
  run ic r (fun b t' => Some (b, t')) before t.

(** Leftmost match: [Some (before, after_before, rest)]. *)
Fixpoint search (ic : bool) (r : re) (before t : str)
  : option (str * str * str) :=
  match matchAt ic r before t with
  | Some (b, t') => Some (before, b, t')
  | None =>
      match t with
      | [] => None
      | c :: t' => search ic r (c :: before) t'
      end
  end.

(** [regex.test(text)] for a regex without the [g] flag. *)
Definition test (ic : bool) (r : re) (t : str) : bool :=
  match search ic r [] t with Some _ => true | None => false end.

(** ** Building a regex from a source string

    [escapeRegex] is [str.replace(/[.*+?^${}()|[\]\\]/g, '\\$&')]. *)
Definition isSyntaxChar (c : ascii) : bool :=
  memStr [c] (map (fun x => [x]) (s ".*+?^${}()|[]\")).

Definition bslash : ascii := ascii_of_nat 92.

Fixpoint escapeRegex (t : str) : str :=
  match t with
  | [] => []
  | c :: t' =>
      if isSyntaxChar c then bslash :: c :: escapeRegex t'
      else c :: escapeRegex t'
  end.

(** [new RegExp(src)] for sources made of ordinary characters, identity
    escapes of syntax characters and [\b]; any other source is outside the
    fragment and yields [None]. *)
Fixpoint parseFuel (n : nat) (src : str) : option re :=
  match n with
  | O => None
  | S n' =>
      match src with
      | [] => Some Eps
      | c :: rest =>
          if eqc c bslash then
            match rest with
            | d :: rest' =>
                if eqc d "b"%char then option_map (Seq Bnd) (parseFuel n' rest')
                else if isSyntaxChar d
                     then option_map (Seq (Chr d)) (parseFuel n' rest')
                     else None
            | [] => None
            end
          else if isSyntaxChar c then None
          else option_map (Seq (Chr c)) (parseFuel n' rest)
      end
  end.

Definition parse (src : str) : option re := parseFuel (S (List.length src)) src.

(** The pattern every presence check builds:
    [new RegExp(`\\b${escapeRegex(kw)}\\b`, 'i')]. *)
Definition wordPatternSource (kw : str) : str :=
  s "\b" ++ escapeRegex kw ++ s "\b".


(** [new RegExp(...).test(text)]; a source that does not compile throws,
    which is [None]. *)
Definition testWordPattern (kw text : str) : option bool :=
  option_map (fun r => test true r text) (parse (wordPatternSource kw)).

End Regex.

Import Regex.

(* ================================================================== *)
(** * Numbers *)
(* ================================================================== *)

Module Num.

(** Binary64. *)
Definition prec : Z := 53.
Definition emax : Z := 1024.

Definition float := spec_float.

(** An integer-valued number as a double (exact below [2^53]). *)
Definition ofZ (z : Z) : float := binary_normalize prec emax z 0 false.
Definition ofNat (n : nat) : float := ofZ (Z.of_nat n).

Definition fmul : float -> float -> float := SFmul prec emax.
Definition fdiv : float -> float -> float := SFdiv prec emax.
Definition fsub : float -> float -> float := SFsub prec emax.

(** A decimal literal [n / 10^k] of the source, correctly rounded. *)
Definition dec (n : Z) (k : Z) : float := fdiv (ofZ n) (ofZ (10 ^ k)).

(** Largest integer not above [m * 2^e]. *)
Definition floorPow (m e : Z) : Z :=
  if (0 <=? e)%Z then (m * 2 ^ e)%Z else (m / 2 ^ (- e))%Z.

Definition signed (sg : bool) (m : positive) : Z :=
  if sg then Zneg m else Zpos m.

(** [Math.floor], [Math.ceil] and [Math.round] (ties towards +infinity) of a
    finite number.  A NaN or an infinity has no integer value: the model
    gives 0 there; the theorems that use the result show that the argument
    is finite. *)
Definition Math_floor (x : float) : Z :=
  match x with
  | S754_finite sg m e => floorPow (signed sg m) e
  | _ => 0%Z
  end.

Definition Math_ceil (x : float) : Z :=
  match x with
  | S754_finite sg m e => (- floorPow (- signed sg m) e)%Z
  | _ => 0%Z
  end.

Definition Math_round (x : float) : Z :=
  match x with
  | S754_finite sg m e =>
      if (0 <=? e)%Z then (signed sg m * 2 ^ e)%Z
      else ((2 * signed sg m + 2 ^ (- e)) / 2 ^ (1 - e))%Z
  | _ => 0%Z
  end.

Definition isFinite (x : float) : bool :=
  match x with
  | S754_finite _ _ _ | S754_zero _ => true
  | _ => false
  end.

(** [a - b < 0] as a comparator result. *)
Definition isNegative (x : float) : bool :=
  SFltb x (S754_zero false).

(** Relative index of [Array.prototype.slice]. *)
Definition relIndex (len : nat) (k : Z) : nat :=
  if (k <? 0)%Z then Z.to_nat (Z.max (Z.of_nat len + k) 0)
  else Nat.min (Z.to_nat k) len.

(** [arr.slice(a, b)] and [arr.slice(a)]. *)
Definition slice {A : Type} (l : list A) (a b : Z) : list A :=
  let i := relIndex (List.length l) a in
  let j := relIndex (List.length l) b in
  firstn (j - i) (skipn i l).

Definition sliceFrom {A : Type} (l : list A) (a : Z) : list A :=
  skipn (relIndex (List.length l) a) l.

End Num.

Import Num.

(* ================================================================== *)
(** * keyword-extractor.js *)
(* ================================================================== *)

Module KeywordExtractor.

Local Open Scope string_scope.

Definition STOP_WORDS : list str := map s
  [ "a"; "an"; "the"; "and"; "or"; "but"; "in"; "on"; "at"; "to"; "for"; "of"; "with";
    "by"; "from"; "as"; "is"; "was"; "are"; "were"; "been"; "be"; "have"; "has"; "had";
    "do"; "does"; "did"; "will"; "would"; "could"; "should"; "may"; "might"; "must";
    "shall"; "can"; "need"; "this"; "that"; "these"; "those"; "it"; "its"; "we"; "you";
    "your"; "our"; "their"; "my"; "his"; "her"; "they"; "them"; "he"; "she"; "i"; "me";
    "who"; "what"; "where"; "when"; "why"; "how"; "which"; "all"; "each"; "every";
    "both"; "few"; "more"; "most"; "other"; "some"; "such"; "no"; "not"; "only"; "own";
    "same"; "so"; "than"; "too"; "very"; "just"; "also"; "now"; "here"; "there"; "then";
    "about"; "after"; "before"; "above"; "below"; "between"; "under"; "over"; "through";
    "during"; "into"; "out"; "up"; "down"; "off"; "again"; "further"; "once"; "any";
    "work"; "working"; "job"; "position"; "role"; "team"; "company"; "opportunity";
    "looking"; "seeking"; "required"; "requirements"; "preferred"; "ability"; "able";
    "experience"; "years"; "year"; "etc"; "including"; "include"; "includes"; "new";
    "well"; "based"; "using"; "within"; "across"; "strong"; "excellent"; "good";
    "ensure"; "ensuring"; "provide"; "providing"; "support"; "supporting"; "help";
    "helping"; "develop"; "developing"; "build"; "building"; "create"; "creating";
    "understand"; "understanding"; "knowledge"; "skills"; "skill"; "candidate";
    "candidates"; "applicant"; "applicants"; "must"; "shall"; "will"; "ideally";
    "highly"; "plus"; "bonus"; "nice"; "have"; "having"; "get"; "getting"; "make";
    "making"; "take"; "taking"; "use"; "used"; "uses"; "per"; "via"; "like"; "want";
    "wants"; "wanted"; "join"; "joining"; "joined"; "lead"; "leading"; "leverage" ].

Definition HIGH_VALUE_KEYWORDS : list str := map s
  [ "python"; "java"; "javascript"; "typescript"; "c++"; "c#"; "ruby"; "go"; "rust";
    "swift"; "kotlin"; "scala"; "php"; "perl"; "r"; "matlab"; "julia";
    "react"; "angular"; "vue"; "node"; "express"; "django"; "flask"; "spring";
    "tensorflow"; "pytorch"; "keras"; "pandas"; "numpy"; "scikit-learn"; "spark";
    "sql"; "mysql"; "postgresql"; "mongodb"; "redis"; "elasticsearch"; "cassandra";
    "oracle"; "snowflake"; "bigquery"; "redshift"; "dynamodb"; "firebase";
    "aws"; "azure"; "gcp"; "kubernetes"; "docker"; "terraform"; "jenkins"; "ci/cd";
    "circleci"; "github"; "gitlab"; "ansible"; "puppet"; "chef"; "cloudformation";
    "tableau"; "powerbi"; "looker"; "excel"; "analytics"; "visualization"; "etl";
    "data warehouse"; "machine learning"; "deep learning"; "nlp"; "ai"; "ml";
    "statistics"; "regression"; "classification"; "forecasting"; "modeling";
    "agile"; "scrum"; "kanban"; "jira"; "confluence"; "stakeholder"; "communication";
    "presentation"; "leadership"; "cross-functional"; "strategic"; "analytical";
    "saas"; "b2b"; "b2c"; "fintech"; "healthcare"; "e-commerce"; "api"; "rest";
    "graphql"; "microservices"; "architecture"; "scalability"; "optimization" ].

Definition COMMON_PHRASES : list str := map s
  [ "data visualization"; "machine learning"; "deep learning"; "natural language processing";
    "computer vision"; "data science"; "data analysis"; "data engineering"; "data pipeline";
    "business intelligence"; "business analyst"; "product management"; "project management";
    "software development"; "software engineering"; "full stack"; "front end"; "back end";
    "cloud computing"; "cloud infrastructure"; "continuous integration"; "continuous deployment";
    "version control"; "unit testing"; "integration testing"; "test automation";
    "agile methodology"; "scrum master"; "product owner"; "user experience"; "user interface";
    "customer success"; "account management"; "sales operations"; "marketing automation";
    "financial analysis"; "financial modeling"; "risk management"; "supply chain";
    "cross functional"; "stakeholder management"; "problem solving"; "critical thinking";
    "attention to detail"; "time management"; "team collaboration"; "remote work" ].

Local Close Scope string_scope.

(** [text.replace(re, rep)] with the [g] flag. *)
Fixpoint replaceAllFuel (n : nat) (ic : bool) (r : re) (rep : str)
         (before t : str) : str :=
  match n with
  | O => t
  | S n' =>
      match matchAt ic r before t with
      | Some (b, t') =>
          if (List.length t' <? List.length t)%nat
          then rep ++ replaceAllFuel n' ic r rep b t'
          else match t with
               | [] => rep
               | c :: t'' => rep ++ c :: replaceAllFuel n' ic r rep (c :: before) t''
               end
      | None =>
          match t with
          | [] => []
          | c :: t'' => c :: replaceAllFuel n' ic r rep (c :: before) t''
          end
      end
  end.

Definition replaceAll (ic : bool) (r : re) (rep : str) (t : str) : str :=
  replaceAllFuel (S (List.length t)) ic r rep [] t.

Definition oneOf (cs : string) (c : ascii) : bool :=
  existsb (eqc c) (list_ascii_of_string cs).

(** [/<[^>]*>/g] *)
Definition reTag : re :=
  Seq (Chr "<") (Seq (StarCls (fun c => negb (eqc c ">"))) (Chr ">")).

(** [/[•\-–—|\/\\:;,]/g]; the three dashes and bullets above U+00FF are
    outside the modelled range. *)
Definition reSeparator : re := Cls (oneOf "-|/\:;,").

(** [/[^a-zA-Z0-9\s\+\#\.]/g] *)
Definition reSpecial : re :=
  Cls (fun c => negb (isUpperAZ c || isLowerAZ c || isDigit c || isSpace c
                      || oneOf "+#." c)).

(** [/\s+/g] *)
Definition reSpaces : re := PlusCls isSpace.

Definition cleanText (text : str) : str :=
  match text with
  | [] => []
  | _ =>
      let cleaned := replaceAll false reTag (s " ") text in
      let cleaned := replaceAll false reSeparator (s " ") cleaned in
      let cleaned := replaceAll false reSpecial (s " ") cleaned in
      let cleaned := trim (replaceAll false reSpaces (s " ") cleaned) in
      toLowerCase cleaned
  end.

(** [text.split(/\s+/)] *)
Fixpoint splitSpacesAux (inGap : bool) (cur t : str) : list str :=
  match t with
  | [] => [rev cur]
  | c :: t' =>
      if isSpace c then
        if inGap then splitSpacesAux true cur t'
        else rev cur :: splitSpacesAux true [] t'
      else splitSpacesAux false (c :: cur) t'
  end.

Definition splitSpaces (t : str) : list str := splitSpacesAux false [] t.

(** [/^\d+$/.test(word)] *)
Definition allDigits (w : str) : bool :=
  match w with [] => false | _ => forallb isDigit w end.

Definition tokenize (text : str) : list str :=
  filter (fun word =>
            (2 <=? List.length word)%nat
            && negb (memStr word STOP_WORDS)
            && negb (allDigits word))
         (splitSpaces text).

(** Number of matches of [new RegExp(phrase, 'g')]: occurrences counted
    from the left without overlap ([skip] characters still belong to the
    previous match). *)
Fixpoint countMatches (p : str) (skip : nat) (t : str) : nat :=
  match t with
  | [] => 0
  | _ :: t' =>
      match skip with
      | S k => countMatches p k t'
      | O =>
          if startsWith p t then S (countMatches p (List.length p - 1) t')
          else countMatches p 0 t'
      end
  end.

Record ScoredTerm : Type := mkScored {
  term : str;
  score : float;
  frequency : Z;
  isPhrase : bool
}.

Definition extractPhrases (text : str) : list (str * nat) :=
  let lowerText := toLowerCase text in
  flat_map (fun phrase =>
              if includes lowerText phrase
              then [(phrase, countMatches phrase 0 lowerText)]
              else [])
           COMMON_PHRASES.

(** The object [tf] as an association list in insertion order, which is the
    order of [Object.keys] (no token is an integer index, and property names
    inherited from [Object.prototype] are outside the model). *)
Fixpoint bump (token : str) (tf : list (str * nat)) : list (str * nat) :=
  match tf with
  | [] => [(token, 1)]
  | (k, v) :: rest =>
      if eqs k token then (k, S v) :: rest else (k, v) :: bump token rest
  end.

Definition calculateTF (tokens : list str) : list (str * float) :=
  let counts := fold_left (fun tf token => bump token tf) tokens [] in
  map (fun kv => (fst kv, fdiv (ofNat (snd kv)) (ofNat (List.length tokens))))
      counts.

Definition calculateIDF (t : str) : float :=
  let sc := ofZ 1 in
  let sc := if (8 <=? List.length t)%nat then fmul sc (dec 15 1)
            else if (6 <=? List.length t)%nat then fmul sc (dec 12 1)
            else sc in
  let sc := if memStr t HIGH_VALUE_KEYWORDS then fmul sc (ofZ 2) else sc in
  let sc := if existsb isDigit t || existsb (oneOf "+#") t
            then fmul sc (dec 13 1) else sc in
  sc.

(** [scores.sort((a, b) => b.score - a.score)]: a stable sort; [a] is moved
    before [b] exactly when the comparator is negative. *)
Definition before (a b : ScoredTerm) : bool :=
  isNegative (fsub (score b) (score a)).

Fixpoint insertSorted (x : ScoredTerm) (l : list ScoredTerm)
  : list ScoredTerm :=
  match l with
  | [] => [x]
  | y :: ys => if before x y then x :: y :: ys else y :: insertSorted x ys
  end.

Definition sortScores (l : list ScoredTerm) : list ScoredTerm :=
  fold_left (fun acc x => insertSorted x acc) l [].

(** [item.term.toLowerCase().replace(/\s+/g, '')] *)
Definition normalize (t : str) : str :=
  replaceAll false reSpaces [] (toLowerCase t).

(** The deduplication loop: [seen] is the set, [unique] the kept items. *)
Definition dedupStep (st : list str * list ScoredTerm) (item : ScoredTerm)
  : list str * list ScoredTerm :=
  let '(seen, unique) := st in
  let normalized := normalize (term item) in
  if memStr normalized seen then (seen, unique)
  else
    let seen := normalized :: seen in
    let seen := if isPhrase item
                then fold_left (fun sn word => word :: sn)
                               (splitOn " " (term item)) seen
                else seen in
    (seen, unique ++ [item]).

Definition dedup (scores : list ScoredTerm) : list str * list ScoredTerm :=
  fold_left dedupStep scores ([], []).

Record KeywordSet : Type := mkKeywordSet {
  all : list str;
  highPriority : list str;
  mediumPriority : list str;
  lowPriority : list str;
  total : nat
}.

Definition emptyKeywordSet : KeywordSet := mkKeywordSet [] [] [] [] 0.

Definition scoreTerms (tokens : list str) (phrases : list (str * nat))
  : list ScoredTerm :=
  let tf := calculateTF tokens in
  map (fun kv =>
         mkScored (fst kv)
                  (fmul (snd kv) (calculateIDF (fst kv)))
                  (Math_round (fmul (snd kv) (ofNat (List.length tokens))))
                  false) tf
  ++ map (fun pf =>
            mkScored (fst pf) (fmul (ofNat (snd pf)) (ofZ 3))
                     (Z.of_nat (snd pf)) true) phrases.

Definition highCountOf (n : nat) : Z :=
  Z.min 15 (Math_ceil (fmul (ofNat n) (dec 4 1))).
Definition mediumCountOf (n : nat) : Z :=
  Z.min 10 (Math_ceil (fmul (ofNat n) (dec 35 2))).

(** [extractKeywords(jobDescription, maxKeywords)]; the [details] field of
    the result repeats [topKeywords] and is left out. *)
Definition extractKeywords (jobDescription : str) (maxKeywords : nat)
  : KeywordSet :=
  match jobDescription with
  | [] => emptyKeywordSet
  | _ =>
      let cleaned := cleanText jobDescription in
      let tokens := tokenize cleaned in
      let phrases := extractPhrases cleaned in
      let scores := sortScores (scoreTerms tokens phrases) in
      let unique := snd (dedup scores) in
      let topKeywords := slice unique 0 (Z.of_nat maxKeywords) in
      let highCount := highCountOf (List.length topKeywords) in
      let mediumCount := mediumCountOf (List.length topKeywords) in
      mkKeywordSet
        (map term topKeywords)
        (map term (slice topKeywords 0 highCount))
        (map term (slice topKeywords highCount (highCount + mediumCount)))
        (map term (sliceFrom topKeywords (highCount + mediumCount)))
        (List.length topKeywords)
  end.

Record MatchResult : Type := mkMatch {
  matched : list str;
  missing : list str;
  matchScore : Z;
  matchCount : nat;
  totalKeywords : option nat
}.

(** [new RegExp(`\\b${escaped}\\b`, 'i').test(text)].  The constructor
    throws on a source it cannot compile; the escaped source always
    compiles ([parse_wordPatternSource]), so the fallback is never used. *)
Definition regexPresent (kw text : str) : bool :=
  match testWordPattern kw text with
  | Some b => b
  | None => false
  end.

Definition scoreOf (matchCount totalCount : nat) : Z :=
  if (0 <? totalCount)%nat
  then Math_round (fmul (fdiv (ofNat matchCount) (ofNat totalCount)) (ofZ 100))
  else 0%Z.

Definition matchKeywords (cvText : str) (keywords : list str) : MatchResult :=
  match cvText, keywords with
  | [], _ | _, [] => mkMatch [] [] 0 0 None
  | _, _ =>
      let cvLower := toLowerCase cvText in
      let present keyword := regexPresent (toLowerCase keyword) cvLower in
      let '(matched, missing) :=
        fold_left (fun acc keyword =>
                     if present keyword
                     then (fst acc ++ [keyword], snd acc)
                     else (fst acc, snd acc ++ [keyword]))
                  keywords ([], []) in
      mkMatch matched missing
              (scoreOf (List.length matched) (List.length keywords))
              (List.length matched)
              (Some (List.length keywords))
  end.

(** The objects [categorizedMatched] and [categorizedMissing]. *)
Record Categorized : Type := mkCategorized {
  high : list str;
  medium : list str;
  low : list str
}.

Record Analysis : Type := mkAnalysis {
  keywords : KeywordSet;
  match_ : MatchResult;
  categorizedMatched : Categorized;
  categorizedMissing : Categorized
}.

(** [analyzeMatch(jobDescription, cvText, maxKeywords)];
    [list.includes(k)] on strings is [memStr k list]. *)
Definition analyzeMatch (jobDescription cvText : str) (maxKeywords : nat)
  : Analysis :=
  let extracted := extractKeywords jobDescription maxKeywords in
  let matchResult := matchKeywords cvText (all extracted) in
  let categorizedMatched :=
    mkCategorized
      (filter (fun k => memStr k (matched matchResult)) (highPriority extracted))
      (filter (fun k => memStr k (matched matchResult)) (mediumPriority extracted))
      (filter (fun k => memStr k (matched matchResult)) (lowPriority extracted)) in
  let categorizedMissing :=
    mkCategorized
      (filter (fun k => memStr k (missing matchResult)) (highPriority extracted))
      (filter (fun k => memStr k (missing matchResult)) (mediumPriority extracted))
      (filter (fun k => memStr k (missing matchResult)) (lowPriority extracted)) in
  mkAnalysis extracted matchResult categorizedMatched categorizedMissing.

End KeywordExtractor.

(* ================================================================== *)
(** * Shared pieces of the two tailoring engines *)
(* ================================================================== *)

Module Sections.

Inductive SectionName : Type :=
| header | summary | experience | skills | education
| certifications | achievements | projects | other.

Definition eqName (a b : SectionName) : bool :=
  match a, b with
  | header, header | summary, summary | experience, experience
  | skills, skills | education, education | certifications, certifications
  | achievements, achievements | projects, projects | other, other => true
  | _, _ => false
  end.

(** [obj[key] = v] on an object read as a total function. *)
Definition upd {A : Type} (f : SectionName -> A) (key : SectionName) (v : A)
  : SectionName -> A :=
  fun k => if eqName k key then v else f k.

(** First entry of a pattern table, in [Object.entries] order, whose regex
    accepts the line. *)
Fixpoint firstMatch (ic : bool) (table : list (SectionName * re)) (line : str)
  : option SectionName :=
  match table with
  | [] => None
  | (name, r) :: rest =>
      if test ic r line then Some name else firstMatch ic rest line
  end.

(** [w1\s*w2...] and [w1\s+w2...]. *)
Fixpoint wordsSep (sep : re) (ws : list string) : re :=
  match ws with
  | [] => Eps
  | [w] => lits (s w)
  | w :: ws' => Seq (lits (s w)) (Seq sep (wordsSep sep ws'))
  end.

(** Replacement templates of [String.prototype.replace]: [$$], [$&],
    [$`], [$'], [$n] and [$nn]. *)
Definition digitVal (c : ascii) : option nat :=
  if isDigit c then Some (code c - 48) else None.

Definition group (groups : list str) (n : nat) : option str :=
  match n with
  | O => None
  | S k => nth_error groups k
  end.

Fixpoint expand (groups : list str) (matched pre post : str) (tpl : str)
  : str :=
  match tpl with
  | [] => []
  | c :: r0 =>
      if negb (eqc c "$") then c :: expand groups matched pre post r0
      else
        match r0 with
        | [] => [c]
        | d1 :: r1 =>
            if eqc d1 "$" then "$"%char :: expand groups matched pre post r1
            else if eqc d1 "&" then matched ++ expand groups matched pre post r1
            else if eqc d1 "`" then pre ++ expand groups matched pre post r1
            else if eqc d1 "'" then post ++ expand groups matched pre post r1
            else
              match digitVal d1 with
              | None => c :: expand groups matched pre post r0
              | Some n1 =>
                  let one :=
                    match group groups n1 with
                    | Some g => g ++ expand groups matched pre post r1
                    | None => c :: expand groups matched pre post r0
                    end in
                  match r1 with
                  | d2 :: r2 =>
                      match digitVal d2 with
                      | Some n2 =>
                          match group groups (10 * n1 + n2) with
                          | Some g => g ++ expand groups matched pre post r2
                          | None => one
                          end
                      | None => one
                      end
                  | [] => one
                  end
              end
        end
  end.

(** The text a leftmost match consumed. *)
Definition consumed (before after_before : str) : str :=
  rev (firstn (List.length after_before - List.length before) after_before).

(** [line.replace(re, tpl)] without the [g] flag; [groupsOf] recovers the
    capture groups from the matched text. *)
Definition replaceFirst (ic : bool) (r : re) (groupsOf : str -> list str)
           (tpl : str) (line : str) : str :=
  match search ic r [] line with
  | None => line
  | Some (pre, b, post) =>
      let m := consumed pre b in
      rev pre ++ expand (groupsOf m) m (rev pre) post tpl ++ post
  end.

End Sections.

Import Sections.

(* ================================================================== *)
(** * cv-tailor.js *)
(* ================================================================== *)

Module CVTailor.

Import KeywordExtractor.

Definition sp0 : re := StarCls isSpace.
Definition tailColon : re := StarCls (fun c => isSpace c || eqc c ":").

(** [/^(A|B|...)[\s:]*$/im] *)
Definition headerRe (names : list (list string)) : re :=
  Seq BolM (Seq (alts (map (wordsSep sp0) names)) (Seq tailColon EolM)).

Local Open Scope string_scope.

Definition SECTION_PATTERNS : list (SectionName * re) :=
  [ (summary, headerRe [["PROFESSIONAL"; "SUMMARY"]; ["SUMMARY"]; ["PROFILE"];
                        ["OBJECTIVE"]; ["ABOUT"; "ME"]; ["CAREER"; "SUMMARY"]]);
    (experience, headerRe [["EXPERIENCE"]; ["WORK"; "EXPERIENCE"];
                           ["PROFESSIONAL"; "EXPERIENCE"];
                           ["EMPLOYMENT"; "HISTORY"]]);
    (skills, headerRe [["SKILLS"]; ["TECHNICAL"; "SKILLS"]; ["CORE"; "SKILLS"];
                       ["KEY"; "SKILLS"]; ["COMPETENCIES"]]);
    (education, headerRe [["EDUCATION"]; ["ACADEMIC"; "BACKGROUND"];
                          ["QUALIFICATIONS"]]);
    (certifications, headerRe [["CERTIFICATIONS"]; ["CERTIFICATES"];
                               ["LICENSES"]; ["CREDENTIALS"]]);
    (achievements, headerRe [["ACHIEVEMENTS"]; ["ACCOMPLISHMENTS"]; ["AWARDS"];
                             ["HONORS"]]) ].

Local Close Scope string_scope.

Definition Parsed : Type := SectionName -> list str.

Definition noSections : Parsed := fun _ => [].

(** One iteration of the loop of [parseCV]. *)
Definition parseStep (st : SectionName * Parsed) (line : str)
  : SectionName * Parsed :=
  let '(currentSection, sections) := st in
  match firstMatch true SECTION_PATTERNS (trim line) with
  | Some sectionName =>
      (sectionName, upd sections sectionName (sections sectionName ++ [line]))
  | None =>
      (currentSection,
       upd sections currentSection (sections currentSection ++ [line]))
  end.

Definition parseCV (cvText : str) : Parsed :=
  match cvText with
  | [] => noSections
  | _ => snd (fold_left parseStep (splitOn nl cvText) (header, noSections))
  end.

(** [hasKeyword(text, keyword)] *)
Definition hasKeyword (text keyword : str) : bool :=
  match text, keyword with
  | [], _ | _, [] => false
  | _, _ => regexPresent keyword text
  end.

Record Enhanced : Type := mkEnhanced {
  lines : list str;
  injected : list str
}.

(** The pattern of Strategy 1: a dot, a group of [\s] repeated, end of input. *)
Definition reFinalDot : re := Seq (Chr ".") (Seq sp0 Eol).
(** The pattern of the bullet rewrite: a group [[.,]], a group of [\s]
    repeated, end of input. *)
Definition reFinalPunct : re := Seq (Cls (oneOf ".,")) (Seq sp0 Eol).
(** Groups of the two patterns above, read off the matched text. *)
Definition groupsDot (m : str) : list str := [tl m].
Definition groupsPunct (m : str) : list str := [firstn 1 m; tl m].

(** Strategy 1 of [enhanceSummary]: the loop over the lines from index 1. *)
Fixpoint summaryLoop (targetCount : nat) (ls : list str)
         (missingKeywords injectedSoFar : list str)
  : list str * list str * list str :=
  match ls with
  | [] => ([], missingKeywords, injectedSoFar)
  | line :: rest =>
      if negb (List.length injectedSoFar <? targetCount)%nat
      then (ls, missingKeywords, injectedSoFar)
      else if (List.length (trim line) <? 20)%nat then
        let '(rest', mk, inj) :=
          summaryLoop targetCount rest missingKeywords injectedSoFar in
        (line :: rest', mk, inj)
      else
        match includes line (s "."), missingKeywords with
        | true, kw :: missingKeywords' =>
            let enhancedLine :=
              replaceFirst false reFinalDot groupsDot
                           (s ", including " ++ kw ++ s ".$1") line in
            if eqs enhancedLine line then
              let '(rest', mk, inj) :=
                summaryLoop targetCount rest missingKeywords' injectedSoFar in
              (line :: rest', mk, inj)
            else
              let '(rest', mk, inj) :=
                summaryLoop targetCount rest missingKeywords'
                            (injectedSoFar ++ [kw]) in
              (enhancedLine :: rest', mk, inj)
        | _, _ =>
            let '(rest', mk, inj) :=
              summaryLoop targetCount rest missingKeywords injectedSoFar in
            (line :: rest', mk, inj)
        end
  end.

(** [arr.splice(index, 0, x)] *)
Definition insertAt {A : Type} (index : nat) (x : A) (l : list A) : list A :=
  firstn index l ++ x :: skipn index l.

Definition enhanceSummary (summaryLines highPriorityKeywords existingMatched
                           : list str) : Enhanced :=
  match summaryLines, highPriorityKeywords with
  | [], _ | _, [] => mkEnhanced summaryLines []
  | first :: others, _ =>
      let targetCount := Nat.min 8 (List.length highPriorityKeywords) in
      let summaryText := join (s " ") summaryLines in
      let missingKeywords :=
        filter (fun kw => negb (hasKeyword summaryText kw)
                          && negb (memStr kw existingMatched))
               highPriorityKeywords in
      match missingKeywords with
      | [] => mkEnhanced summaryLines []
      | _ =>
          let '(others', missingKeywords, injected) :=
            summaryLoop targetCount others missingKeywords [] in
          let linesToEnhance := first :: others' in
          if (List.length injected <? 4)%nat
             && (3 <=? List.length missingKeywords)%nat
          then
            let taken := firstn (Nat.min 4 (List.length missingKeywords))
                                missingKeywords in
            let keywordsToAdd := removelast taken in
            let lastKeyword := last taken [] in
            let keywordList :=
              match keywordsToAdd with
              | [] => lastKeyword
              | _ => join (s ", ") keywordsToAdd ++ s " and " ++ lastKeyword
              end in
            let newSentence :=
              s "Proficient in " ++ keywordList
                ++ s " with a proven track record of delivering results." in
            let insertIndex := Nat.max 1 (List.length linesToEnhance - 1) in
            mkEnhanced (insertAt insertIndex newSentence linesToEnhance)
                       (injected ++ keywordsToAdd ++ [lastKeyword])
          else mkEnhanced linesToEnhance injected
      end
  end.

(** [trimmed.startsWith('•') || ... || /^\d+\./.test(trimmed)] *)
Definition isBullet (trimmed : str) : bool :=
  startsWith [bullet] trimmed || startsWith (s "-") trimmed
  || startsWith (s "*") trimmed
  || match matchAt false (Seq (PlusCls isDigit) (Chr ".")) [] trimmed with
     | Some _ => true
     | None => false
     end.

Definition endsWith (t suffix : str) : bool := startsWith (rev suffix) (rev t).

(** The inner loop [for (j = 0; j < 2 && keywordIndex < available.length; j++)];
    [pending] is [availableKeywords] from [keywordIndex] on. *)
Fixpoint bulletLoop (steps j : nat) (enhancedLine : str)
         (pending injected : list str) : str * list str * list str :=
  match steps with
  | O => (enhancedLine, pending, injected)
  | S steps' =>
      match pending with
      | [] => (enhancedLine, pending, injected)
      | kw :: pending' =>
          if negb (hasKeyword enhancedLine kw) then
            if includes enhancedLine (s ".") || includes enhancedLine (s ",")
            then
              let insertPhrase :=
                match j with
                | O => s "utilizing " ++ kw
                | _ => s "and " ++ kw
                end in
              bulletLoop steps' (S j)
                (replaceFirst false reFinalPunct groupsPunct
                              (s " " ++ insertPhrase ++ s "$1$2") enhancedLine)
                pending' (injected ++ [kw])
            else if negb (endsWith enhancedLine (s ".")) then
              bulletLoop steps' (S j)
                (trimEnd enhancedLine ++ s " using " ++ kw)
                pending' (injected ++ [kw])
            else bulletLoop steps' (S j) enhancedLine pending injected
          else bulletLoop steps' (S j) enhancedLine pending injected
      end
  end.

Definition maxBullets : nat := 10.

Fixpoint experienceLoop (ls : list str) (bulletCount : nat)
         (pending injected : list str) : list str * list str :=
  match ls with
  | [] => ([], injected)
  | line :: rest =>
      if negb (bulletCount <? maxBullets)%nat then (ls, injected)
      else if isBullet (trim line) then
        match pending with
        | [] =>
            let '(rest', inj) :=
              experienceLoop rest (S bulletCount) pending injected in
            (line :: rest', inj)
        | _ =>
            let '(enhancedLine, pending', injected') :=
              bulletLoop 2 0 line pending injected in
            let '(rest', inj) :=
              experienceLoop rest (S bulletCount) pending' injected' in
            (enhancedLine :: rest', inj)
        end
      else
        let '(rest', inj) := experienceLoop rest bulletCount pending injected in
        (line :: rest', inj)
  end.

Definition enhanceExperience (experienceLines : list str) (keywords : KeywordSet)
           (existingMatched : list str) : Enhanced :=
  match experienceLines with
  | [] => mkEnhanced experienceLines []
  | _ =>
      let allKeywords := highPriority keywords ++ mediumPriority keywords in
      let experienceText := join (s " ") experienceLines in
      let availableKeywords :=
        filter (fun kw => negb (hasKeyword experienceText kw)
                          && negb (memStr kw existingMatched))
               allKeywords in
      let '(ls, injected) := experienceLoop experienceLines 0 availableKeywords [] in
      mkEnhanced ls injected
  end.

(** Index of the last line that starts with a bullet or dash or contains a
    colon or a comma. *)
Definition isListLine (line : str) : bool :=
  let t := trim line in
  startsWith [bullet] t || startsWith (s "-") t
  || includes t (s ":") || includes t (s ",").

Fixpoint lastIndexWhere {A : Type} (f : A -> bool) (l : list A) (i : nat)
  : option nat :=
  match l with
  | [] => None
  | x :: l' =>
      match lastIndexWhere f l' (S i) with
      | Some j => Some j
      | None => if f x then Some i else None
      end
  end.

Fixpoint setNth {A : Type} (i : nat) (x : A) (l : list A) : list A :=
  match l, i with
  | [], _ => []
  | _ :: l', O => x :: l'
  | y :: l', S i' => y :: setNth i' x l'
  end.

(** [Math.ceil(n / 2)] on an array length. *)
Definition halfUp (n : nat) : nat := Z.to_nat (Math_ceil (fdiv (ofNat n) (ofZ 2))).

Definition enhanceSkills (skillsLines : list str) (keywords : KeywordSet)
           (existingMatched : list str) : Enhanced :=
  match skillsLines with
  | [] =>
      let allSkills :=
        highPriority keywords ++ firstn 7 (mediumPriority keywords) in
      match allSkills with
      | [] => mkEnhanced [] []
      | _ =>
          let h := halfUp (List.length allSkills) in
          mkEnhanced
            [ s "SKILLS";
              bullet :: s " Technical: " ++ join (s ", ") (firstn h allSkills);
              bullet :: s " Additional: " ++ join (s ", ") (skipn h allSkills) ]
            allSkills
      end
  | _ =>
      let skillsText := join (s " ") skillsLines in
      let missingSkills :=
        filter (fun kw => negb (hasKeyword skillsText kw)
                          && negb (memStr kw existingMatched))
               (highPriority keywords ++ mediumPriority keywords) in
      match missingSkills with
      | [] => mkEnhanced skillsLines []
      | _ =>
          match lastIndexWhere isListLine skillsLines 0 with
          | None =>
              let skillsToAdd := firstn 10 missingSkills in
              mkEnhanced
                (skillsLines
                   ++ [bullet :: s " Additional: " ++ join (s ", ") skillsToAdd])
                skillsToAdd
          | Some targetLineIndex =>
              let skillsToAdd := firstn 8 missingSkills in
              let currentLine := nth targetLineIndex skillsLines [] in
              mkEnhanced
                (setNth targetLineIndex
                        (trimEnd currentLine ++ s ", "
                                 ++ join (s ", ") skillsToAdd)
                        skillsLines)
                skillsToAdd
          end
      end
  end.

Definition sectionOrder : list SectionName :=
  [summary; experience; education; skills; certifications; achievements; other].

(** [reconstructCV(sections, originalParsed)]: [parts] is joined by a line
    feed, an empty part standing for the blank line before a section. *)
Definition reconstructCV (sections : Parsed) : str :=
  let parts0 := match sections header with
                | [] => []
                | h => [join [nl] h]
                end in
  let parts :=
    fold_left (fun parts sectionName =>
                 match sections sectionName with
                 | [] => parts
                 | ls =>
                     (match parts with [] => parts | _ => parts ++ [[]] end)
                       ++ [join [nl] ls]
                 end)
              sectionOrder parts0 in
  join [nl] parts.

Record Stats : Type := mkStats {
  statSummary : nat; statExperience : nat; statSkills : nat; statTotal : nat
}.

Record TailorResult : Type := mkTailor {
  tailoredCV : str;
  injectedKeywords : list str;
  finalMatchScore : Z;
  matchedKeywords : list str;
  missingKeywords : list str;
  stats : Stats
}.

(** The three strategy calls of [tailorCV], in order, with what each one
    reports as injected. *)
Record Run : Type := mkRun {
  initialMatch : MatchResult;
  summaryResult : Enhanced;
  experienceResult : Enhanced;
  skillsResult : Enhanced;
  enhancedSections : Parsed
}.

Section Tailor.
(** Whether [global.KeywordExtractor] is loaded. *)
Variable haveExtractor : bool.

Definition initialMatchOf (cvText : str) (keywords : KeywordSet)
  : MatchResult :=
  if haveExtractor then matchKeywords cvText (all keywords)
  else mkMatch [] (all keywords) 0 0 None.

Definition runStrategies (cvText : str) (keywords : KeywordSet) : Run :=
  let parsed := parseCV cvText in
  let im := initialMatchOf cvText keywords in
  let sumR :=
    match parsed summary with
    | [] => mkEnhanced (parsed summary) []
    | _ => enhanceSummary (parsed summary) (highPriority keywords) (matched im)
    end in
  let allInjected := injected sumR in
  let expR :=
    match parsed experience with
    | [] => mkEnhanced (parsed experience) []
    | _ => enhanceExperience (parsed experience) keywords
                             (matched im ++ allInjected)
    end in
  let allInjected := allInjected ++ injected expR in
  let skR := enhanceSkills (parsed skills) keywords
                           (matched im ++ allInjected) in
  mkRun im sumR expR skR
        (upd (upd (upd parsed summary (lines sumR))
                  experience (lines expR))
             skills (lines skR)).

Definition tailorCV (cvText : str) (keywords : KeywordSet) : TailorResult :=
  match cvText, all keywords with
  | [], _ | _, [] =>
      mkTailor cvText [] 0 [] [] (mkStats 0 0 0 0)
  | _, _ =>
      let r := runStrategies cvText keywords in
      let allInjected :=
        injected (summaryResult r) ++ injected (experienceResult r)
                 ++ injected (skillsResult r) in
      let tailored := reconstructCV (enhancedSections r) in
      let im := initialMatch r in
      let st := mkStats (List.length (injected (summaryResult r)))
                        (List.length (injected (experienceResult r)))
                        (List.length (injected (skillsResult r)))
                        (List.length allInjected) in
      if haveExtractor then
        let fm := matchKeywords tailored (all keywords) in
        mkTailor tailored allInjected (matchScore fm) (matched fm)
                 (missing fm) st
      else
        let m := matched im ++ allInjected in
        mkTailor tailored allInjected
                 (Z.min 98 (scoreOf (List.length m)
                                    (List.length (all keywords))))
                 m
                 (filter (fun k => negb (memStr k m)) (all keywords))
                 st
  end.
End Tailor.

End CVTailor.

(* ================================================================== *)
(** * tailor-universal.js *)
(* ================================================================== *)

Module TailorUniversal.

Import KeywordExtractor.

Definition MAX_KEYWORDS_SUMMARY : nat := 8.
Definition MAX_KEYWORDS_EXPERIENCE : nat := 20.
Definition MAX_KEYWORDS_SKILLS : nat := 15.
Definition TARGET_SCORE : Z := 95.

Definition sp1 : re := PlusCls isSpace.
Definition tailColon : re := StarCls (fun c => eqc c ":" || isSpace c).

(** [/(?:^|\n)(a|b|...)[:\s]*/i] *)
Definition headerRe (names : list re) : re :=
  Seq (Alt Bol (Chr nl)) (Seq (alts names) tailColon).

Definition w (ws : list string) : re := wordsSep sp1 ws.
(** [word] followed by an optional [s]. *)
Definition plural (word : string) : re := Seq (lits (s word)) (Opt (Chr "s")).

Local Open Scope string_scope.

Definition SECTION_PATTERNS : list (SectionName * re) :=
  [ (summary, headerRe [w ["professional"; "summary"]; w ["summary"];
                        w ["profile"]; w ["objective"]; w ["about"; "me"]]);
    (experience, headerRe [w ["experience"]; w ["work"; "experience"];
                           w ["employment"]; w ["work"; "history"];
                           w ["career"; "history"]]);
    (education, headerRe [w ["education"]; w ["academic"];
                          w ["qualifications"]; plural "degree"]);
    (skills, headerRe [w ["skills"]; w ["technical"; "skills"];
                       w ["core"; "competencies"]; w ["key"; "skills"];
                       w ["technologies"]]);
    (certifications, headerRe [plural "certification"; plural "license";
                               w ["credentials"]]);
    (projects, headerRe [plural "project"; w ["portfolio"];
                         w ["key"; "projects"]]) ].

Local Close Scope string_scope.

(** The object [sections]: a key is absent ([None]) until it is assigned. *)
Definition SectionMap : Type := SectionName -> option str.

Definition noSections : SectionMap := fun _ => None.

Record Parsed : Type := mkParsed {
  parsedHeader : str;
  sections : SectionMap;
  sectionOrder : list SectionName
}.

Definition memName (x : SectionName) (l : list SectionName) : bool :=
  existsb (eqName x) l.

Record ParseState : Type := mkState {
  stSections : SectionMap;
  stOrder : list SectionName;
  currentSection : SectionName;
  currentContent : list str
}.

(** The statements that save [currentContent] under [currentSection]. *)
Definition save (st : ParseState) : SectionMap * list SectionName :=
  (upd (stSections st) (currentSection st)
       (Some (trim (join [nl] (currentContent st)))),
   if negb (eqName (currentSection st) header)
      && negb (memName (currentSection st) (stOrder st))
   then stOrder st ++ [currentSection st]
   else stOrder st).

Definition isNil {A : Type} (l : list A) : bool :=
  match l with [] => true | _ => false end.

(** One iteration of [lines.forEach]. *)
Definition parseStep (st : ParseState) (line : str) : ParseState :=
  match firstMatch true SECTION_PATTERNS line with
  | Some sectionName =>
      let '(secs, order) :=
        if negb (isNil (currentContent st))
           || negb (eqName (currentSection st) header)
        then save st
        else (stSections st, stOrder st) in
      mkState secs order sectionName [line]
  | None =>
      mkState (stSections st) (stOrder st) (currentSection st)
              (currentContent st ++ [line])
  end.

Definition orEmpty (o : option str) : str :=
  match o with Some x => x | None => [] end.

Definition parseCV (cvText : str) : Parsed :=
  match cvText with
  | [] => mkParsed [] noSections []
  | _ =>
      let st := fold_left parseStep (splitOn nl cvText)
                          (mkState noSections [] header []) in
      let '(secs, order) :=
        if negb (isNil (currentContent st)) then save st
        else (stSections st, stOrder st) in
      mkParsed (orEmpty (secs header)) secs order
  end.

Record Enhanced : Type := mkEnhanced {
  enhanced : str;
  injected : list str
}.

(** [!new RegExp(`\\b${escapeRegex(kw)}\\b`, 'i').test(lowerText)] *)
Definition absentFrom (lowerText : str) (kw : str) : bool :=
  negb (regexPresent kw lowerText).

(** [str.search(re)]: index of the leftmost match. *)
Definition searchIndex (r : re) (t : str) : option nat :=
  match search false r [] t with
  | Some (pre, _, _) => Some (List.length pre)
  | None => None
  end.

(** [/[.!?]\s+/] *)
Definition reSentenceEnd : re := Seq (Cls (oneOf ".!?")) sp1.

Definition enhanceSummary (summaryText : str) (keywords : list str)
  : Enhanced :=
  match summaryText, keywords with
  | [], _ | _, [] => mkEnhanced summaryText []
  | _, _ =>
      let summaryLower := toLowerCase summaryText in
      let missingKeywords :=
        firstn MAX_KEYWORDS_SUMMARY
               (filter (absentFrom summaryLower) keywords) in
      match missingKeywords with
      | [] => mkEnhanced summaryText []
      | _ =>
          let viaSentence :=
            match searchIndex reSentenceEnd summaryText with
            | Some firstSentenceEnd =>
                if (20 <? firstSentenceEnd)%nat then Some firstSentenceEnd
                else None
            | None => None
            end in
          match viaSentence with
          | Some firstSentenceEnd =>
              let beforePoint := firstn (firstSentenceEnd + 1) summaryText in
              let afterPoint := skipn (firstSentenceEnd + 1) summaryText in
              let injection :=
                s " Expertise includes "
                  ++ join (s ", ") (firstn 4 missingKeywords) ++ s "." in
              mkEnhanced (trim (beforePoint ++ injection ++ s " "
                                            ++ trim afterPoint))
                         (firstn 4 missingKeywords)
          | None =>
              let injection :=
                s " Proficient in "
                  ++ join (s ", ") (firstn 5 missingKeywords) ++ s "." in
              mkEnhanced (trim (trim summaryText ++ injection))
                         (firstn 5 missingKeywords)
          end
      end
  end.

(** The bullet glyphs of [bulletPattern] inside the modelled range. *)
Definition isBulletGlyph (c : ascii) : bool := eqc c "-" || eqc c bullet.

(** [.] of a regex: anything but a line terminator. *)
Definition isDot (c : ascii) : bool := negb (isLineTerminator c).

(** [line.match(bulletPattern)]: the two capture groups.  [bulletPattern]
    is [^] a group of [\s] repeated, a bullet glyph and [\s] repeated, then
    a group of one or more [.] up to [$]. *)
Definition matchBullet (line : str) : option (str * str) :=
  run false
      (Seq (StarCls isSpace) (Seq (Cls isBulletGlyph) (StarCls isSpace)))
      (fun b rest =>
         if negb (isNil rest) && forallb isDot rest
         then Some (rev b, rest) else None)
      [] line.

(** [t.lastIndexOf(',')] *)
Fixpoint lastIndexOfFrom (c : ascii) (t : str) (i : nat) : option nat :=
  match t with
  | [] => None
  | x :: t' =>
      match lastIndexOfFrom c t' (S i) with
      | Some j => Some j
      | None => if eqc x c then Some i else None
      end
  end.

(** The pattern of the bullet fallback: an optional dot, [\s] repeated,
    end of input; replaced by the empty string. *)
Definition stripFinalDot (t : str) : str :=
  match search false (Seq (Opt (Chr ".")) (Seq (StarCls isSpace) Eol)) [] t with
  | Some (pre, _, _) => rev pre
  | None => t
  end.

(** The callback of [lines.map] in [enhanceExperience]; [pending] is
    [missingKeywords] from [keywordIndex] on. *)
Definition bulletStep (line : str) (pending : list str)
  : str * list str * list str :=
  match matchBullet line, pending with
  | Some (lead, bulletText), keyword :: pending' =>
      if absentFrom bulletText keyword then
        let injectionPoint : option nat :=
          if (50 <? List.length bulletText)%nat
          then lastIndexOfFrom "," bulletText 0
          else Some (List.length bulletText) in
        match injectionPoint with
        | Some p =>
            if (20 <? p)%nat && (p <? List.length bulletText)%nat then
              (lead ++ firstn p bulletText ++ s ", utilizing " ++ keyword
                    ++ skipn p bulletText,
               pending', [keyword])
            else
              (lead ++ stripFinalDot bulletText ++ s " with " ++ keyword
                    ++ s ".",
               pending', [keyword])
        | None =>
            (lead ++ stripFinalDot bulletText ++ s " with " ++ keyword ++ s ".",
             pending', [keyword])
        end
      else (line, pending, [])
  | _, _ => (line, pending, [])
  end.

Fixpoint bulletMap (ls : list str) (pending : list str)
  : list str * list str :=
  match ls with
  | [] => ([], [])
  | line :: rest =>
      let '(line', pending', inj) := bulletStep line pending in
      let '(rest', inj') := bulletMap rest pending' in
      (line' :: rest', inj ++ inj')
  end.

Definition enhanceExperience (experienceText : str) (keywords : list str)
  : Enhanced :=
  match experienceText, keywords with
  | [], _ | _, [] => mkEnhanced experienceText []
  | _, _ =>
      let experienceLower := toLowerCase experienceText in
      let missingKeywords :=
        firstn MAX_KEYWORDS_EXPERIENCE
               (filter (absentFrom experienceLower) keywords) in
      match missingKeywords with
      | [] => mkEnhanced experienceText []
      | _ =>
          let '(ls, inj) :=
            bulletMap (splitOn nl experienceText) missingKeywords in
          mkEnhanced (join [nl] ls) inj
      end
  end.

Definition bulletSep : str := s " " ++ [bullet] ++ s " ".

Record EnhancedSkills : Type := mkSkills {
  skEnhanced : str;
  skInjected : list str;
  created : bool
}.

Definition enhanceSkills (skillsText : str) (keywords : list str)
  : EnhancedSkills :=
  match keywords with
  | [] => mkSkills skillsText [] false
  | _ =>
      let skillsLower := toLowerCase skillsText in
      let missingKeywords :=
        firstn MAX_KEYWORDS_SKILLS
               (filter (absentFrom skillsLower) keywords) in
      match missingKeywords with
      | [] => mkSkills skillsText [] false
      | _ =>
          if isNil skillsText || (List.length (trim skillsText) <? 20)%nat
          then mkSkills (s "Skills" ++ [nl] ++ join bulletSep missingKeywords)
                        missingKeywords true
          else mkSkills (trim skillsText ++ bulletSep
                              ++ join bulletSep missingKeywords)
                        missingKeywords false
      end
  end.

(** A string used as a condition: the empty string and [undefined] are
    falsy. *)
Definition truthy (o : option str) : bool :=
  match o with Some (_ :: _) => true | _ => false end.

Definition orElse (a b : option str) : option str :=
  if truthy a then a else b.

Definition reconstructCV (parsed : Parsed) (enhancedSections : SectionMap)
  : str :=
  let parts := match parsedHeader parsed with [] => [] | h => [h] end in
  let parts :=
    fold_left (fun parts sectionName =>
                 let content := orElse (enhancedSections sectionName)
                                       (sections parsed sectionName) in
                 if truthy content then parts ++ [orEmpty content] else parts)
              (sectionOrder parsed) parts in
  let parts :=
    if truthy (enhancedSections skills) && negb (truthy (sections parsed skills))
    then parts ++ [orEmpty (enhancedSections skills)]
    else parts in
  join [nl; nl] parts.

(** The [keywords] argument: an array or a keyword object. *)
Inductive Keywords : Type :=
| KwArray (l : list str)
| KwObject (k : KeywordSet).

Definition keywordListOf (k : Keywords) : list str :=
  match k with KwArray l => l | KwObject o => all o end.

Record TailorResult : Type := mkTailor {
  tailoredCV : str;
  injectedKeywords : list str;
  initialScore : option Z;
  finalScore : option Z;
  statSummary : nat;
  statExperience : nat;
  statSkills : nat
}.

Inductive Outcome (A : Type) : Type :=
| Threw (message : str)
| Returned (value : A).
Arguments Threw {A} message.
Arguments Returned {A} value.

(** The three strategy calls of [tailorCV] with what each reports. *)
Record Run : Type := mkRun {
  summaryResult : Enhanced;
  experienceResult : Enhanced;
  skillsResult : EnhancedSkills;
  enhancedSections : SectionMap
}.

Definition notIn (l : list str) (k : str) : bool := negb (memStr k l).

Definition runStrategies (parsed : Parsed) (keywords : Keywords) : Run :=
  let keywordList := keywordListOf keywords in
  let high := match keywords with
              | KwObject o => Some (highPriority o)
              | KwArray _ => None
              end in
  let medium := match keywords with
                | KwObject o => mediumPriority o
                | KwArray _ => []
                end in
  let sumR :=
    enhanceSummary (orEmpty (sections parsed summary))
                   (match high with
                    | Some h => h
                    | None => firstn 8 keywordList
                    end) in
  let allInjected := injected sumR in
  let experienceKeywords :=
    medium ++ filter (notIn allInjected)
                     (match high with Some h => h | None => [] end) in
  let expR :=
    enhanceExperience (orEmpty (sections parsed experience))
                      (filter (notIn allInjected) experienceKeywords) in
  let allInjected := allInjected ++ injected expR in
  let remainingKeywords := filter (notIn allInjected) keywordList in
  let skR := enhanceSkills (orEmpty (sections parsed skills))
                           remainingKeywords in
  mkRun sumR expR skR
        (upd (upd (upd (sections parsed) summary (Some (enhanced sumR)))
                  experience (Some (enhanced expR)))
             skills (Some (skEnhanced skR))).

Section Tailor.
(** [global.ReliableExtractor.matchKeywords] when that module is loaded. *)
Variable reliableMatch : option (str -> list str -> MatchResult).
(** [options.targetScore] *)
Variable targetScore : option Z.

Definition target : Z :=
  match targetScore with
  | Some 0%Z | None => TARGET_SCORE
  | Some t => t
  end.

Definition tailorCV (cvText : str) (keywords : Keywords)
  : Outcome TailorResult :=
  match cvText with
  | [] => Threw (s "CV text is required")
  | _ =>
      let keywordList := keywordListOf keywords in
      match keywordList with
      | [] => Returned (mkTailor cvText [] None None 0 0 0)
      | _ =>
          let parsed := parseCV cvText in
          let initial :=
            match reliableMatch with
            | Some mk => matchScore (mk cvText keywordList)
            | None => 0%Z
            end in
          if (target <=? initial)%Z then
            Returned (mkTailor cvText [] (Some initial) (Some initial) 0 0 0)
          else
            let r := runStrategies parsed keywords in
            let allInjected :=
              injected (summaryResult r) ++ injected (experienceResult r)
                       ++ skInjected (skillsResult r) in
            let tailored := reconstructCV parsed (enhancedSections r) in
            let final :=
              match reliableMatch with
              | Some mk => matchScore (mk tailored keywordList)
              | None =>
                  Z.min 98 (initial + Z.of_nat (List.length allInjected) * 3)
              end in
            Returned (mkTailor tailored allInjected (Some initial)
                               (Some final)
                               (List.length (injected (summaryResult r)))
                               (List.length (injected (experienceResult r)))
                               (List.length (skInjected (skillsResult r))))
      end
  end.
End Tailor.

End TailorUniversal.

(* ================================================================== *)
(** * auto-tailor-95.js *)
(* ================================================================== *)

Module AutoTailor95.

Import KeywordExtractor.
Import TailorUniversal (Outcome, Threw, Returned, KwObject).

(** What the orchestrator reads from a match object. *)
Record MatchView : Type := mkView {
  score : Z;
  viewMatched : list str;
  viewMissing : list str
}.

(** The optional module [ReliableExtractor], absent from the sources:
    its two functions, and the [score] property of its match objects. *)
Record Reliable : Type := mkReliable {
  extractReliableKeywords : str -> nat -> KeywordSet;
  reliableMatchKeywords : str -> list str -> MatchResult;
  reliableScore : MatchResult -> Z
}.

(** Which optional globals are loaded.  [DynamicScore] and
    [ValidationEngine] are absent from the sources. *)
Record Globals : Type := mkGlobals {
  gReliable : option Reliable;
  gKeywordExtractor : bool;
  gDynamicScore : option (str -> list str -> MatchView);
  gValidationEngine : option (str -> list str -> MatchView);
  gTailorUniversal : bool;
  gCVTailor : bool
}.

Inductive Event : Type :=
| Progress (percent : Z) (label : str)
| ExtractKeywords
| ScoreUpdate (value : Z) (phase : str)
| ChipsUpdate (phase : str)
| AnimateScore (from to : Z).

Record Result : Type := mkResult {
  tailoredCV : str;
  originalCV : str;
  keywords : KeywordSet;
  initialScore : Z;
  finalScore : Z;
  matchedKeywords : list str;
  missingKeywords : list str;
  injectedKeywords : list str;
  keywordsExtracted : nat;
  keywordsInjected : nat;
  scoreImprovement : Z
}.

Local Open Scope string_scope.
Definition simpleStopWords : list str := map s
  [ "a"; "an"; "the"; "and"; "or"; "but"; "in"; "on"; "at"; "to"; "for"; "of";
    "with"; "by"; "from"; "as"; "is"; "was"; "are"; "were"; "been"; "be";
    "have"; "has"; "had"; "do"; "does"; "did"; "will"; "would"; "could";
    "should"; "may"; "might"; "must"; "shall"; "can"; "need"; "this"; "that" ].
Local Close Scope string_scope.

(** [Math.ceil(n * x)] for the category sizes. *)
Definition ceilTimes (n : nat) (x : float) : Z := Math_ceil (fmul (ofNat n) x).

(** Stable sort of [(word, count)] by decreasing count. *)
Fixpoint insertByCount (x : str * nat) (l : list (str * nat))
  : list (str * nat) :=
  match l with
  | [] => [x]
  | y :: ys =>
      if (snd y <? snd x)%nat then x :: y :: ys else y :: insertByCount x ys
  end.

Section Orchestrator.
Variable g : Globals.
(** [options.targetScore] and [options.maxKeywords] after their defaults. *)
Variable targetScore : Z.
Variable maxKeywords : nat.

Definition simpleKeywordExtraction (text : str) : KeywordSet :=
  let words :=
    filter (fun word => (3 <=? List.length word)%nat
                        && negb (memStr word simpleStopWords))
           (splitSpaces
              (replaceAll false
                 (Cls (fun c => negb (isLowerAZ c || isDigit c || isSpace c)))
                 (s " ") (toLowerCase text))) in
  let freq := fold_left (fun m word => bump word m) words [] in
  let sorted :=
    firstn maxKeywords
           (map fst (fold_left (fun acc x => insertByCount x acc) freq [])) in
  let highCount := ceilTimes (List.length sorted) (dec 45 2) in
  let mediumCount := ceilTimes (List.length sorted) (dec 35 2) in
  mkKeywordSet sorted
               (slice sorted 0 highCount)
               (slice sorted highCount (highCount + mediumCount))
               (sliceFrom sorted (highCount + mediumCount))
               (List.length sorted).

Definition extractJobKeywords (jobText : str) : KeywordSet :=
  match gReliable g with
  | Some r => extractReliableKeywords r jobText maxKeywords
  | None =>
      if gKeywordExtractor g then
        let extracted := extractKeywords jobText maxKeywords in
        let n := List.length (all extracted) in
        let highCount := Z.min 11 (ceilTimes n (dec 45 2)) in
        let mediumCount := Z.min 8 (ceilTimes n (dec 35 2)) in
        mkKeywordSet (slice (all extracted) 0 (Z.of_nat maxKeywords))
                     (slice (all extracted) 0 highCount)
                     (slice (all extracted) highCount
                            (highCount + mediumCount))
                     (sliceFrom (all extracted) (highCount + mediumCount))
                     n
      else simpleKeywordExtraction jobText
  end.

(** The last resort of both score calculations: substring search.  The
    score is [Math.round((matched.length / keywords.all.length) * 100)]
    with no guard on the length. *)
Definition fallbackMatch (cvText : str) (kws : KeywordSet) : MatchView :=
  let cvLower := toLowerCase cvText in
  let isIn kw := includes cvLower (toLowerCase kw) in
  let m := filter isIn (all kws) in
  mkView (Math_round (fmul (fdiv (ofNat (List.length m))
                                 (ofNat (List.length (all kws))))
                           (ofZ 100)))
         m
         (filter (fun kw => negb (isIn kw)) (all kws)).

Definition viewOfReliable (r : Reliable) (m : MatchResult) : MatchView :=
  mkView (reliableScore r m) (matched m) (missing m).

Definition calculateInitialMatch (cvText : str) (kws : KeywordSet)
  : MatchView :=
  match gReliable g, gDynamicScore g with
  | Some r, _ => viewOfReliable r (reliableMatchKeywords r cvText (all kws))
  | None, Some dyn => dyn cvText (all kws)
  | None, None => fallbackMatch cvText kws
  end.

Definition calculateFinalMatch (cvText : str) (kws : KeywordSet)
  : MatchView :=
  match gValidationEngine g, gReliable g, gDynamicScore g with
  | Some v, _, _ => v cvText (all kws)
  | None, Some r, _ =>
      viewOfReliable r (reliableMatchKeywords r cvText (all kws))
  | None, None, Some dyn => dyn cvText (all kws)
  | None, None, None => fallbackMatch cvText kws
  end.

(** [re.exec(text)] for the header patterns below, which carry the [i]
    flag: index of the leftmost match. *)
Definition execIndex (r : re) (t : str) : option nat :=
  match search true r [] t with
  | Some (pre, _, _) => Some (List.length pre)
  | None => None
  end.

(** [t.indexOf(p, from)] with [i] the index of the head of [t]. *)
Fixpoint indexOfFrom (p : str) (t : str) (from i : nat) : option nat :=
  match t with
  | [] => if TailorUniversal.isNil p && (from <=? i)%nat then Some i else None
  | _ :: t' =>
      if (from <=? i)%nat && startsWith p t then Some i
      else indexOfFrom p t' from (S i)
  end.

(** The three header patterns of [simpleKeywordInjection], each
    [/^(A|B|...)[\s:]*$/im] with single spaces inside names. *)
Definition simpleHeader (names : list string) : re :=
  Seq BolM (Seq (alts (map (fun n => lits (s n)) names))
                (Seq CVTailor.tailColon EolM)).

Local Open Scope string_scope.
Definition skillsPattern : re :=
  simpleHeader ["SKILLS"; "TECHNICAL SKILLS"; "CORE SKILLS"].
Definition educationPattern : re := simpleHeader ["EDUCATION"; "ACADEMIC"].
Definition summaryPattern : re :=
  simpleHeader ["PROFESSIONAL SUMMARY"; "SUMMARY"; "PROFILE"].
Local Close Scope string_scope.

Definition insertStr (pos : nat) (x t : str) : str :=
  firstn pos t ++ x ++ skipn pos t.

Record Tailored : Type := mkTailored {
  tTailoredCV : str;
  tInjected : list str
}.

Definition simpleKeywordInjection (cvText : str) (initialMatch : MatchView)
  : Tailored :=
  let missingKeywords := viewMissing initialMatch in
  let hasSkillsSection := test true skillsPattern cvText in
  let skillsToAdd := firstn 15 missingKeywords in
  let '(tailored, injected) :=
    match missingKeywords with
    | [] => (cvText, [])
    | _ =>
        if hasSkillsSection then
          match execIndex skillsPattern cvText with
          | Some index =>
              let insertPos :=
                match indexOfFrom [nl] cvText index 0 with
                | Some i => i + 1
                | None => 0
                end in
              let skillsLine :=
                bullet :: s " Additional: " ++ join (s ", ") skillsToAdd
                       ++ [nl] in
              (insertStr insertPos skillsLine cvText, skillsToAdd)
          | None => (cvText, [])
          end
        else
          let newSkillsSection :=
            [nl] ++ s "SKILLS" ++ [nl]
                 ++ bullet :: s " Technical: "
                 ++ join (s ", ") (firstn 8 skillsToAdd) ++ [nl]
                 ++ bullet :: s " Additional: "
                 ++ join (s ", ") (skipn 8 skillsToAdd) ++ [nl; nl] in
          match execIndex educationPattern cvText with
          | Some index => (insertStr index newSkillsSection cvText, skillsToAdd)
          | None => (cvText ++ newSkillsSection, skillsToAdd)
          end
    end in
  match execIndex summaryPattern tailored with
  | Some index =>
      if (List.length injected <? List.length missingKeywords)%nat then
        let remainingKeywords :=
          filter (TailorUniversal.notIn injected) missingKeywords in
        match remainingKeywords, indexOfFrom [nl; nl] tailored index 0 with
        | _ :: _, Some summaryEndPos =>
            if (index <? summaryEndPos)%nat then
              let keywordsToAdd := firstn 5 remainingKeywords in
              let addition :=
                s " Expertise includes " ++ join (s ", ") keywordsToAdd
                  ++ s "." in
              mkTailored (insertStr summaryEndPos addition tailored)
                         (injected ++ keywordsToAdd)
            else mkTailored tailored injected
        | _, _ => mkTailored tailored injected
        end
      else mkTailored tailored injected
  | None => mkTailored tailored injected
  end.

(** [tailorCVForTarget]: [TailorUniversal], else [CVTailor], else the
    simple injection.  [TailorUniversal.tailorCV] throws on an empty CV. *)
Definition tailorCVForTarget (cvText : str) (kws : KeywordSet)
           (initialMatch : MatchView) : Outcome Tailored :=
  if gTailorUniversal g then
    match TailorUniversal.tailorCV
            (option_map reliableMatchKeywords (gReliable g))
            (Some targetScore) cvText (KwObject kws) with
    | Threw m => Threw m
    | Returned r =>
        Returned (mkTailored (TailorUniversal.tailoredCV r)
                             (TailorUniversal.injectedKeywords r))
    end
  else if gCVTailor g then
    let r := CVTailor.tailorCV (gKeywordExtractor g) cvText kws in
    Returned (mkTailored (CVTailor.tailoredCV r)
                         (CVTailor.injectedKeywords r))
  else Returned (simpleKeywordInjection cvText initialMatch).

(** [autoTailorTo95Plus(jobDescription, baseCV)]: the callbacks invoked,
    in order, and the outcome. *)
Definition autoTailorTo95Plus (jobDescription baseCV : str)
  : list Event * Outcome Result :=
  match jobDescription, baseCV with
  | [], _ | _, [] => ([], Threw (s "Job description and CV are required"))
  | _, _ =>
      let log :=
        [Progress 10 (s "Extracting keywords from job description...");
         ExtractKeywords] in
      let kws := extractJobKeywords jobDescription in
      match all kws with
      | [] =>
          (log,
           Threw (s "Could not extract keywords from job description"))
      | _ =>
          let initialMatch := calculateInitialMatch baseCV kws in
          let log :=
            log ++ [Progress 25 (s "Analyzing initial match...");
                    ScoreUpdate (score initialMatch) (s "initial");
                    ChipsUpdate (s "initial");
                    Progress 50 (s "Tailoring CV for ATS optimization...")] in
          match tailorCVForTarget baseCV kws initialMatch with
          | Threw m => (log, Threw m)
          | Returned tailorResult =>
              let finalMatch :=
                calculateFinalMatch (tTailoredCV tailorResult) kws in
              let log :=
                log ++ [Progress 75 (s "Recalculating match score...");
                        match gDynamicScore g with
                        | Some _ =>
                            AnimateScore (score initialMatch)
                                         (score finalMatch)
                        | None => ScoreUpdate (score finalMatch) (s "final")
                        end;
                        ChipsUpdate (s "final");
                        Progress 100 (s "Complete!")] in
              (log,
               Returned
                 (mkResult (tTailoredCV tailorResult) baseCV kws
                           (score initialMatch) (score finalMatch)
                           (viewMatched finalMatch) (viewMissing finalMatch)
                           (tInjected tailorResult)
                           (List.length (all kws))
                           (List.length (tInjected tailorResult))
                           (score finalMatch - score initialMatch)))
          end
      end
  end.

End Orchestrator.

End AutoTailor95.

(* ================================================================== *)
(** * ui-keyword-chips.js *)
(* ================================================================== *)

Module KeywordChips.


End KeywordChips.

(* ================================================================== *)
(** * ReliableExtractor (not among the sources) *)
(* ================================================================== *)

Module ReliableExtractor.

Import KeywordExtractor.

(** Modelled from the spec: [ReliableExtractor.matchKeywords] is called by
    [tailor-universal.js] and [auto-tailor-95.js] but its file is missing.
    The matcher of section 4.3: for each keyword a case-insensitive
    word-boundary regex with the metacharacters escaped is tested against
    the text; the keyword is matched iff the regex matches; the score is
    [round(matched / total * 100)], or 0 when [total] is 0. *)
Definition matchKeywords (text : str) (keywords : list str) : MatchResult :=
  let matched := filter (fun kw => regexPresent kw text) keywords in
  let missing := filter (fun kw => negb (regexPresent kw text)) keywords in
  mkMatch matched missing
          (scoreOf (List.length matched) (List.length keywords))
          (List.length matched)
          (Some (List.length keywords)).

End ReliableExtractor.

Unset Implicit Arguments.

(** * Specification vocabulary *)

Module RegexSpec.

Import ListNotations Str Regex Num Sections.
Local Open Scope list_scope.

Definition is_some {A : Type} (o : option A) : bool :=
  match o with Some _ => true | None => false end.

(** Declarative reading of the regex fragment: [M ic r b t b' t'] says that
    [r] can move the position from [(b, t)] to [(b', t')]. *)
Inductive M (ic : bool) : re -> str -> str -> str -> str -> Prop :=
| MEps b t : M ic Eps b t b t
| MChr c x b t : chrMatch ic c x = true -> M ic (Chr c) b (x :: t) (x :: b) t
| MCls p x b t : p x = true -> M ic (Cls p) b (x :: t) (x :: b) t
| MBnd b t :
    xorb (isWordAt (hd_error b)) (isWordAt (hd_error t)) = true ->
    M ic Bnd b t b t
| MBol t : M ic Bol [] t [] t
| MEol b : M ic Eol b [] b []
| MBolM0 t : M ic BolM [] t [] t
| MBolM1 c b t : isLineTerminator c = true -> M ic BolM (c :: b) t (c :: b) t
| MEolM0 b : M ic EolM b [] b []
| MEolM1 c b t : isLineTerminator c = true -> M ic EolM b (c :: t) b (c :: t)
| MSeq r1 r2 b t b1 t1 b2 t2 :
    M ic r1 b t b1 t1 -> M ic r2 b1 t1 b2 t2 -> M ic (Seq r1 r2) b t b2 t2
| MAltL r1 r2 b t b' t' : M ic r1 b t b' t' -> M ic (Alt r1 r2) b t b' t'
| MAltR r1 r2 b t b' t' : M ic r2 b t b' t' -> M ic (Alt r1 r2) b t b' t'
| MOptS r b t b' t' : M ic r b t b' t' -> M ic (Opt r) b t b' t'
| MOptN r b t : M ic (Opt r) b t b t
| MStar0 p b t : M ic (StarCls p) b t b t
| MStarS p x b t b' t' :
    p x = true -> M ic (StarCls p) (x :: b) t b' t' ->
    M ic (StarCls p) b (x :: t) b' t'.

End RegexSpec.

Module WordPatternSpec.

Import RegexSpec.
Import ListNotations Str Regex Num Sections.
Import KeywordExtractor.
Local Open Scope list_scope.

Ltac all_ascii c := destruct c as [[] [] [] [] [] [] [] []]; vm_compute; try reflexivity; try discriminate.





End WordPatternSpec.

Module FloatSpec.

Import RegexSpec WordPatternSpec.
Import ListNotations Num.
Local Open Scope Z_scope.



End FloatSpec.

Module MatcherSpec.

Import RegexSpec WordPatternSpec FloatSpec.
Import ListNotations Str Regex Num Sections.
Import KeywordExtractor.
Local Open Scope list_scope.

Definition presentIn (cvText keyword : str) : bool :=
  regexPresent (toLowerCase keyword) (toLowerCase cvText).



End MatcherSpec.

Module RankingSpec.

Import RegexSpec WordPatternSpec FloatSpec MatcherSpec.
Import ListNotations Str Regex Num Sections.
Import KeywordExtractor.
Local Open Scope list_scope.

(** ** Signs of the category sizes *)

Definition nonNegative (x : float) : Prop :=
  match x with
  | S754_finite true _ _ => False
  | _ => True
  end.

(** ** The deduplication loop *)

Definition normOf (i : ScoredTerm) : str := normalize (term i).

Definition dedupInv (st : list str * list ScoredTerm) : Prop :=
  NoDup (map normOf (snd st)) /\
  forall i, In i (snd st) -> In (normOf i) (fst st).

(** ** Tokens around an occurrence of a phrase *)

Definition solid (a : str) : bool := forallb (fun c => negb (isSpace c)) a.

(** ** Which pieces are tokens *)


(** ** Term frequencies *)

Definition countStr (k : str) (tokens : list str) : nat :=
  List.length (filter (eqs k) tokens).

(** ** Weights of the words of the phrase table *)







(** ** The phrase is ranked before its words *)





(** The two kinds of items. *)
Definition wordItem (tokens : list str) (kv : str * float) : ScoredTerm :=
  mkScored (fst kv) (fmul (snd kv) (calculateIDF (fst kv)))
           (Math_round (fmul (snd kv) (ofNat (List.length tokens)))) false.

Definition phraseItem (pf : str * nat) : ScoredTerm :=
  mkScored (fst pf) (fmul (ofNat (snd pf)) (ofZ 3)) (Z.of_nat (snd pf)) true.


End RankingSpec.

Module TailoringSpec.

Import RegexSpec WordPatternSpec FloatSpec MatcherSpec RankingSpec.
Import ListNotations Str Regex Num Sections.
Import KeywordExtractor.
Local Open Scope list_scope.

(** ** Inputs used by the evaluations *)

(** A CV whose last line starts with the word [Experience]. *)
Definition lostCV : str := s "Jane Doe
Experience
alpha bravo charlie delta echo foxtrot golf hotel india juliet kilo lima mike november oscar papa
Education
BSc
Experience abroad".

Definition lostKeywords : list str := map s
  ["alpha"; "bravo"; "charlie"; "delta"; "echo"; "foxtrot"; "golf"; "hotel";
   "india"; "juliet"; "kilo"; "lima"; "mike"; "november"; "oscar"; "papa";
   "quebec"; "romeo"]%string.

Definition lostJob : str :=
  s "We need alpha bravo charlie delta echo foxtrot golf hotel india juliet kilo lima mike november oscar papa quebec romeo".

(** Only the modules present among the sources are loaded. *)
Definition onlySources : AutoTailor95.Globals :=
  AutoTailor95.mkGlobals None true None None true true.

Definition summaryOnlyCV : str := s "SUMMARY
Seasoned engineer shipping products.".

Definition pythonOnly : KeywordSet :=
  mkKeywordSet [s "python"] [s "python"] [] [] 1.

Definition isProgress (e : AutoTailor95.Event) (p : Z) : Prop :=
  exists label, e = AutoTailor95.Progress p label.

End TailoringSpec.

Module LinesSpec.

Import RegexSpec WordPatternSpec FloatSpec MatcherSpec RankingSpec TailoringSpec.
Import ListNotations Str Regex Num Sections.
Local Open Scope list_scope.

(** ** Matches of anchor-free patterns *)

(** No anchor and no boundary: the match depends on the consumed text only. *)
Fixpoint plain (r : re) : bool :=
  match r with
  | Eps | Chr _ | Cls _ | StarCls _ => true
  | Bnd | Bol | Eol | BolM | EolM => false
  | Seq a b | Alt a b => plain a && plain b
  | Opt a => plain a
  end.

(** Every match is empty or ends with a character that is not a space. *)
Fixpoint solidOrEmpty (r : re) : bool :=
  match r with
  | Eps => true
  | Chr c => negb (isSpace c)
  | Seq a b => solidOrEmpty a && solidOrEmpty b
  | Alt a b => solidOrEmpty a && solidOrEmpty b
  | Opt a => solidOrEmpty a
  | _ => false
  end.

(** Every match is non-empty and ends with a character that is not a space. *)
Fixpoint solidEnd (r : re) : bool :=
  match r with
  | Chr c => negb (isSpace c)
  | Seq a b => solidEnd b || (solidEnd a && solidOrEmpty b)
  | Alt a b => solidEnd a && solidEnd b
  | _ => false
  end.

(** Every match is non-empty and starts with a character that is not a
    space. *)
Fixpoint solidStart (r : re) : bool :=
  match r with
  | Chr c => negb (isSpace c)
  | Seq a _ => solidStart a
  | Alt a b => solidStart a && solidStart b
  | _ => false
  end.

Definition endsSolid (b' b : str) : Prop :=
  exists c b'', b' = c :: b'' /\ isSpace c = false /\
                (List.length b < List.length b')%nat.

(** ** Header detection of [tailor-universal.js] *)

Definition classify (line : str) : option SectionName :=
  firstMatch true TailorUniversal.SECTION_PATTERNS line.

Definition nlFree (l : str) : Prop := ~ In nl l.

(** The shape shared by the six header patterns. *)
Definition goodHeader (r : re) : Prop :=
  exists A, r = Seq (Alt Bol (Chr nl)) (Seq A TailorUniversal.tailColon) /\
            plain A = true /\ solidEnd A = true /\ solidStart A = true.

(** *** Trimming *)

Definition startsSolid (t : str) : Prop :=
  t = [] \/ exists c t0, t = c :: t0 /\ isSpace c = false.

Definition endsSolidStr (t : str) : Prop :=
  t = [] \/ exists t0 c, t = t0 ++ [c] /\ isSpace c = false.

End LinesSpec.

Module UniversalSpec.

Import RegexSpec WordPatternSpec FloatSpec MatcherSpec RankingSpec TailoringSpec LinesSpec.
Import ListNotations Str Regex Num Sections.
Import TailorUniversal.
Local Open Scope list_scope.

(** ** The universal parser as a list of saved blocks *)

Definition Block : Type := (SectionName * list str)%type.

(** Lines before the first header line, then each header line with the
    lines that follow it up to the next header line. *)
Fixpoint segmentsOf (ls : list str) : list str * list Block :=
  match ls with
  | [] => ([], [])
  | l :: rest =>
      let '(pre, segs) := segmentsOf rest in
      match classify l with
      | Some n => ([], (n, l :: pre) :: segs)
      | None => (l :: pre, segs)
      end
  end.

Definition addName (order : list SectionName) (n : SectionName)
  : list SectionName :=
  if negb (eqName n header) && negb (memName n order) then order ++ [n]
  else order.

Definition saveBlock (acc : SectionMap * list SectionName) (blk : Block)
  : SectionMap * list SectionName :=
  (upd (fst acc) (fst blk) (Some (trim (join [nl] (snd blk)))),
   addName (snd acc) (fst blk)).

Definition saveAll (blocks : list Block) (acc : SectionMap * list SectionName)
  : SectionMap * list SectionName :=
  fold_left saveBlock blocks acc.

Definition headerBlock (sec : SectionName) (content : list str) : list Block :=
  if negb (isNil content) || negb (eqName sec header) then [(sec, content)] else [].

Definition plainLine (l : str) : Prop := classify l = None.

(** A segment: a header line of its section, then lines that open none. *)
Definition goodSeg (blk : Block) : Prop :=
  exists hdr rest,
    snd blk = hdr :: rest /\ classify hdr = Some (fst blk) /\
    Forall plainLine rest.

(** *** What [saveAll] leaves in the map and in the order *)

Fixpoint lookupLast (n : SectionName) (blocks : list Block) : option (list str) :=
  match blocks with
  | [] => None
  | blk :: rest =>
      match lookupLast n rest with
      | Some b => Some b
      | None => if eqName n (fst blk) then Some (snd blk) else None
      end
  end.

(** What every parse result satisfies. *)
Definition WellFormed (p : Parsed) : Prop :=
  NoDup (sectionOrder p) /\ ~ In header (sectionOrder p) /\
  (forall n, In n (sectionOrder p) ->
     exists c, sections p n = Some c /\ c <> [] /\ trim c = c /\
               goodSeg (n, splitOn nl c)) /\
  (forall n, n <> header -> ~ In n (sectionOrder p) -> sections p n = None) /\
  trim (parsedHeader p) = parsedHeader p /\
  (exists h1 rest, splitOn nl (parsedHeader p) = h1 :: rest /\
                   Forall plainLine rest).

(** ** Reconstruction and a second parse *)

Definition headerPart (h : str) : list str :=
  match h with [] => [] | _ => [h] end.

(** Lines of parts joined by a blank line. *)
Fixpoint blocksLines (parts : list str) : list str :=
  match parts with
  | [] => []
  | [p] => splitOn nl p
  | p :: ps => splitOn nl p ++ [[]] ++ blocksLines ps
  end.

(** The segments a reconstructed text is made of. *)
Fixpoint segsFor (c : SectionName -> str) (order : list SectionName)
  : list Block :=
  match order with
  | [] => []
  | [n] => [(n, splitOn nl (c n))]
  | n :: rest => (n, splitOn nl (c n) ++ [[]]) :: segsFor c rest
  end.

End UniversalSpec.

Module ParsersSpec.

Import RegexSpec WordPatternSpec FloatSpec MatcherSpec RankingSpec TailoringSpec LinesSpec UniversalSpec.
Import ListNotations Str Regex Num Sections.
Local Open Scope list_scope.

Definition janeCV : str :=
  s "Jane Doe" ++ [nl] ++ s "Summary" ++ [nl] ++ s "Engineer" ++ [nl]
    ++ s "Skills:" ++ [nl] ++ s "Rocq, OCaml".

Definition indentedCV : str :=
  s "  Jane Doe" ++ [nl] ++ s "Summary" ++ [nl] ++ s "Engineer".

(** ** The parser of cv-tailor keeps every line *)

Definition allNames : list SectionName :=
  [header; summary; experience; skills; education; certifications;
   achievements; other].

Definition allLines (p : CVTailor.Parsed) : list str :=
  List.concat (map p allNames).

Definition headedBy (n : SectionName) (ls : list str) : Prop :=
  match ls with
  | [] => True
  | l :: _ => firstMatch true CVTailor.SECTION_PATTERNS (trim l) = Some n
  end.

Definition cvInv (seen : list str) (st : SectionName * CVTailor.Parsed) : Prop :=
  In (fst st) allNames /\
  Permutation (allLines (snd st)) seen /\
  (forall n, n <> header -> headedBy n (snd st n)) /\
  (fst st <> header -> snd st (fst st) <> []).

(** Lines of the header followed by the lines of the sections in
    [sectionOrder] order. *)
Definition keptLines (p : TailorUniversal.Parsed) : list str :=
  flat_map (splitOn nl)
           (TailorUniversal.parsedHeader p
              :: map (fun n => TailorUniversal.orEmpty (TailorUniversal.sections p n))
                     (TailorUniversal.sectionOrder p)).

End ParsersSpec.

Module PresenceSpec.

Import RegexSpec WordPatternSpec FloatSpec MatcherSpec RankingSpec TailoringSpec LinesSpec UniversalSpec ParsersSpec.
Import ListNotations Str Regex Num Sections.
Import KeywordExtractor.
Local Open Scope list_scope.


End PresenceSpec.

Module JobKeywordsSpec.

Import RegexSpec WordPatternSpec FloatSpec MatcherSpec RankingSpec TailoringSpec LinesSpec UniversalSpec ParsersSpec PresenceSpec.
Import ListNotations Str Regex Num Sections.
Import KeywordExtractor.
Import AutoTailor95.
Local Open Scope list_scope.

(** The words [simpleKeywordExtraction] counts. *)
Definition simpleWords (text : str) : list str :=
  filter (fun word => (3 <=? List.length word)%nat
                      && negb (memStr word simpleStopWords))
         (splitSpaces
            (replaceAll false
               (Cls (fun c => negb (isLowerAZ c || isDigit c || isSpace c)))
               (s " ") (toLowerCase text))).

End JobKeywordsSpec.

Module CvTailorSpec.

Import RegexSpec WordPatternSpec FloatSpec MatcherSpec RankingSpec TailoringSpec LinesSpec UniversalSpec ParsersSpec PresenceSpec JobKeywordsSpec.
Import ListNotations Str Regex Num Sections.
Import KeywordExtractor.
Import CVTailor.
Local Open Scope list_scope.

(** The keywords [enhanceExperience] may use. *)
Definition availableFor (text : str) (candidates em : list str) : list str :=
  filter (fun kw => negb (hasKeyword text kw) && negb (memStr kw em)) candidates.

End CvTailorSpec.

Module SimpleInjectionSpec.

Import RegexSpec WordPatternSpec FloatSpec MatcherSpec RankingSpec TailoringSpec LinesSpec UniversalSpec ParsersSpec PresenceSpec JobKeywordsSpec CvTailorSpec.
Import ListNotations Str Regex Num Sections.
Import KeywordExtractor.
Import AutoTailor95.
Local Open Scope list_scope.

(** ** The simple injection of the orchestrator *)

(** [subseq a b]: [a] is [b] with some characters left out. *)
Inductive subseq {A : Type} : list A -> list A -> Prop :=
| subseq_nil : subseq [] []
| subseq_skip x a b : subseq a b -> subseq a (x :: b)
| subseq_keep x a b : subseq a b -> subseq (x :: a) (x :: b).

End SimpleInjectionSpec.

Module WrittenSpec.

Import RegexSpec WordPatternSpec FloatSpec MatcherSpec RankingSpec TailoringSpec LinesSpec UniversalSpec ParsersSpec PresenceSpec JobKeywordsSpec CvTailorSpec SimpleInjectionSpec.
Import ListNotations Str Regex Num Sections.
Import KeywordExtractor.
Import TailorUniversal.
Local Open Scope list_scope.

(** ** Injected keywords are written into the tailored CV *)

Definition hasSolid (t : str) : Prop := exists c, In c t /\ isSpace c = false.

End WrittenSpec.

Module CleanTextSpec.

Import RegexSpec WordPatternSpec FloatSpec MatcherSpec RankingSpec TailoringSpec LinesSpec UniversalSpec ParsersSpec PresenceSpec JobKeywordsSpec CvTailorSpec SimpleInjectionSpec WrittenSpec.
Import ListNotations Str Regex Num Sections.
Import KeywordExtractor.
Local Open Scope list_scope.

Definition keptChar (c : ascii) : bool :=
  isUpperAZ c || isLowerAZ c || isDigit c || isSpace c || oneOf "+#." c.

Definition cleanChar (c : ascii) : bool :=
  isLowerAZ c || isDigit c || oneOf "+#. " c.

End CleanTextSpec.

Module PipelineSpec.

Import RegexSpec WordPatternSpec FloatSpec MatcherSpec RankingSpec TailoringSpec LinesSpec UniversalSpec ParsersSpec PresenceSpec JobKeywordsSpec CvTailorSpec SimpleInjectionSpec WrittenSpec CleanTextSpec.
Import ListNotations Str Regex Num Sections.
Import KeywordExtractor.
Import AutoTailor95.
Local Open Scope list_scope.

Definition plainWord (k : str) : Prop :=
  forallb (fun c => isLowerAZ c || isDigit c) k = true.

End PipelineSpec.

(** * Lemmas and theorems *)

Module RegexFacts.

Import RegexSpec.
Import ListNotations Str Regex Num Sections.
Local Open Scope list_scope.

Create HintDb re.

#[local] Hint Constructors M : re.

Lemma is_some_true {A} (o : option A) : is_some o = true <-> exists x, o = Some x.
Proof. destruct o; simpl; split; intros; eauto; try discriminate. destruct H; discriminate. Qed.

Section RunSpec.

Variable A : Type.

Variable ic : bool.

Lemma star_iff p (k : str -> str -> option A) t : forall b,
  is_some (star p k b t) = true <->
  exists b' t', M ic (StarCls p) b t b' t' /\ is_some (k b' t') = true.
Proof.
  induction t as [|c t IH]; intros b; simpl.
  - split.
    + intros H. exists b, []. auto with re.
    + intros (b' & t' & HM & Hk). inversion HM; subst. exact Hk.
  - destruct (p c) eqn:Hp.
    + destruct (star p k (c :: b) t) eqn:Hs.
      * split; [intros _|reflexivity].
        assert (Hx : is_some (star p k (c :: b) t) = true) by (rewrite Hs; reflexivity).
        apply IH in Hx. destruct Hx as (b' & t' & HM & Hk).
        exists b', t'. split; [apply MStarS; assumption | assumption].
      * split.
        -- intros H. exists b, (c :: t). auto with re.
        -- intros (b' & t' & HM & Hk). inversion HM; subst; [exact Hk|].
           assert (Hx : is_some (star p k (c :: b) t) = true).
           { apply IH. eauto. }
           rewrite Hs in Hx. discriminate.
    + split.
      * intros H. exists b, (c :: t). auto with re.
      * intros (b' & t' & HM & Hk). inversion HM; subst; [exact Hk|congruence].
Qed.

Lemma run_iff r : forall (k : str -> str -> option A) b t,
  is_some (run ic r k b t) = true <->
  exists b' t', M ic r b t b' t' /\ is_some (k b' t') = true.
Proof.
  induction r; intros k b t; simpl.
  - split; [intros; exists b, t; auto with re|].
    intros (b' & t' & HM & Hk). inversion HM; subst; exact Hk.
  - destruct t as [|x t].
    + split; [discriminate|]. intros (b' & t' & HM & _). inversion HM.
    + destruct (chrMatch ic c x) eqn:Hc.
      * split; [intros; exists (x :: b), t; auto with re|].
        intros (b' & t' & HM & Hk). inversion HM; subst; exact Hk.
      * split; [discriminate|]. intros (b' & t' & HM & _). inversion HM; congruence.
  - destruct t as [|x t].
    + split; [discriminate|]. intros (b' & t' & HM & _). inversion HM.
    + destruct (p x) eqn:Hc.
      * split; [intros; exists (x :: b), t; auto with re|].
        intros (b' & t' & HM & Hk). inversion HM; subst; exact Hk.
      * split; [discriminate|]. intros (b' & t' & HM & _). inversion HM; congruence.
  - destruct (xorb _ _) eqn:Hx.
    + split; [intros; exists b, t; auto with re|].
      intros (b' & t' & HM & Hk). inversion HM; subst; exact Hk.
    + split; [discriminate|]. intros (b' & t' & HM & _). inversion HM; congruence.
  - destruct b.
    + split; [intros; exists [], t; auto with re|].
      intros (b' & t' & HM & Hk). inversion HM; subst; exact Hk.
    + split; [discriminate|]. intros (b' & t' & HM & _). inversion HM.
  - destruct t.
    + split; [intros; exists b, []; auto with re|].
      intros (b' & t' & HM & Hk). inversion HM; subst; exact Hk.
    + split; [discriminate|]. intros (b' & t' & HM & _). inversion HM.
  - destruct b as [|c b].
    + split; [intros; exists [], t; auto with re|].
      intros (b' & t' & HM & Hk). inversion HM; subst; exact Hk.
    + destruct (isLineTerminator c) eqn:Hc.
      * split; [intros; exists (c :: b), t; auto with re|].
        intros (b' & t' & HM & Hk). inversion HM; subst; exact Hk.
      * split; [discriminate|]. intros (b' & t' & HM & _). inversion HM; congruence.
  - destruct t as [|c t].
    + split; [intros; exists b, []; auto with re|].
      intros (b' & t' & HM & Hk). inversion HM; subst; exact Hk.
    + destruct (isLineTerminator c) eqn:Hc.
      * split; [intros; exists b, (c :: t); auto with re|].
        intros (b' & t' & HM & Hk). inversion HM; subst; exact Hk.
      * split; [discriminate|]. intros (b' & t' & HM & _). inversion HM; congruence.
  - rewrite IHr1. split.
    + intros (b1 & t1 & HM1 & Hk). apply IHr2 in Hk.
      destruct Hk as (b2 & t2 & HM2 & Hk). exists b2, t2. eauto with re.
    + intros (b2 & t2 & HM & Hk). inversion HM; subst.
      exists b1, t1. split; [assumption|]. apply IHr2. eauto.
  - destruct (run ic r1 k b t) eqn:H1.
    + split; [intros _|reflexivity].
      assert (Hx : is_some (run ic r1 k b t) = true) by (rewrite H1; reflexivity).
      apply IHr1 in Hx. destruct Hx as (b' & t' & HM & Hk). eauto with re.
    + rewrite IHr2. split.
      * intros (b' & t' & HM & Hk). eauto with re.
      * intros (b' & t' & HM & Hk). inversion HM; subst; [|eauto].
        assert (Hx : is_some (run ic r1 k b t) = true) by (apply IHr1; eauto).
        rewrite H1 in Hx. discriminate.
  - destruct (run ic r k b t) eqn:H1.
    + split; [intros _|reflexivity].
      assert (Hx : is_some (run ic r k b t) = true) by (rewrite H1; reflexivity).
      apply IHr in Hx. destruct Hx as (b' & t' & HM & Hk). eauto with re.
    + split.
      * intros Hk. exists b, t. auto with re.
      * intros (b' & t' & HM & Hk). inversion HM; subst; [|assumption].
        assert (Hx : is_some (run ic r k b t) = true) by (apply IHr; eauto).
        rewrite H1 in Hx. discriminate.
  - apply star_iff.
Qed.

End RunSpec.

Lemma matchAt_iff ic r b t :
  is_some (matchAt ic r b t) = true <-> exists b' t', M ic r b t b' t'.
Proof.
  unfold matchAt. rewrite run_iff. split.
  - intros (b' & t' & H & _). eauto.
  - intros (b' & t' & H). exists b', t'. auto.
Qed.

Lemma search_iff ic r t : forall b,
  is_some (search ic r b t) = true <->
  exists skipped t1 b' t', t = skipped ++ t1 /\ M ic r (rev skipped ++ b) t1 b' t'.
Proof.
  induction t as [|c t IH]; intros b; simpl.
  - destruct (matchAt ic r b []) as [[b' t']|] eqn:Hm.
    + split; [intros _|reflexivity].
      assert (Hx : is_some (matchAt ic r b []) = true) by (rewrite Hm; reflexivity).
      apply matchAt_iff in Hx. destruct Hx as (b1 & t1 & HM).
      exists [], [], b1, t1. auto.
    + split; [discriminate|]. intros (sk & t1 & b' & t' & E & HM).
      destruct sk; [|discriminate]. simpl in *. subst t1.
      assert (Hx : is_some (matchAt ic r b []) = true) by (apply matchAt_iff; eauto).
      rewrite Hm in Hx. discriminate.
  - destruct (matchAt ic r b (c :: t)) as [[b' t']|] eqn:Hm.
    + split; [intros _|reflexivity].
      assert (Hx : is_some (matchAt ic r b (c :: t)) = true) by (rewrite Hm; reflexivity).
      apply matchAt_iff in Hx. destruct Hx as (b1 & t1 & HM).
      exists [], (c :: t), b1, t1. auto.
    + rewrite IH. split.
      * intros (sk & t1 & b' & t' & E & HM). exists (c :: sk), t1, b', t'.
        split; [simpl; congruence|]. simpl. rewrite <- app_assoc. exact HM.
      * intros (sk & t1 & b' & t' & E & HM). destruct sk as [|x sk].
        -- simpl in *. subst t1.
           assert (Hx : is_some (matchAt ic r b (c :: t)) = true) by (apply matchAt_iff; eauto).
           rewrite Hm in Hx. discriminate.
        -- simpl in E. injection E as -> ->. exists sk, t1, b', t'. split; [reflexivity|].
           simpl in HM. rewrite <- app_assoc in HM. exact HM.
Qed.

Lemma test_iff ic r t :
  test ic r t = true <->
  exists skipped t1 b' t', t = skipped ++ t1 /\ M ic r (rev skipped) t1 b' t'.
Proof.
  unfold test.
  assert (H := search_iff ic r t []).
  assert (E : (exists skipped t1 b' t', t = skipped ++ t1 /\ M ic r (rev skipped ++ []) t1 b' t')
              <-> (exists skipped t1 b' t', t = skipped ++ t1 /\ M ic r (rev skipped) t1 b' t')).
  { split; intros (sk & t1 & b' & t' & E & HM); exists sk, t1, b', t';
      (split; [assumption|]); [rewrite app_nil_r in HM | rewrite app_nil_r]; assumption. }
  rewrite <- E, <- H. destruct (search ic r [] t); simpl; split; auto.
Qed.

Lemma M_seq_inv ic r1 r2 b t b2 t2 :
  M ic (Seq r1 r2) b t b2 t2 ->
  exists b1 t1, M ic r1 b t b1 t1 /\ M ic r2 b1 t1 b2 t2.
Proof. intros H. inversion H; subst. eauto. Qed.

Lemma M_chr_inv ic c b t b' t' :
  M ic (Chr c) b t b' t' ->
  exists x, t = x :: t' /\ b' = x :: b /\ chrMatch ic c x = true.
Proof. intros H. inversion H; subst. eauto. Qed.

Lemma M_cls_inv ic p b t b' t' :
  M ic (Cls p) b t b' t' ->
  exists x, t = x :: t' /\ b' = x :: b /\ p x = true.
Proof. intros H. inversion H; subst. eauto. Qed.


Lemma M_eps_inv ic b t b' t' : M ic Eps b t b' t' -> b' = b /\ t' = t.
Proof. intros H. inversion H; subst. auto. Qed.

Lemma M_alt_inv ic r1 r2 b t b' t' :
  M ic (Alt r1 r2) b t b' t' -> M ic r1 b t b' t' \/ M ic r2 b t b' t'.
Proof. intros H. inversion H; subst; auto. Qed.

Lemma M_bol_inv ic b t b' t' : M ic Bol b t b' t' -> b = [] /\ b' = [] /\ t' = t.
Proof. intros H. inversion H; subst. auto. Qed.

End RegexFacts.

Module WordPatternFacts.

Import RegexSpec WordPatternSpec RegexFacts.
Import ListNotations Str Regex Num Sections.
Import KeywordExtractor.
Local Open Scope list_scope.

Lemma lowerChar_idem c : lowerChar (lowerChar c) = lowerChar c.
Proof. all_ascii c. Qed.


Lemma eqc_eq a b : eqc a b = true <-> a = b.
Proof. unfold eqc. apply Ascii.eqb_eq. Qed.

Lemma eqc_refl a : eqc a a = true.
Proof. apply eqc_eq. reflexivity. Qed.
















End WordPatternFacts.

Module FloatFacts.

Import RegexSpec WordPatternSpec FloatSpec RegexFacts WordPatternFacts.
Import ListNotations Num.
Local Open Scope Z_scope.

(** ** Binary64 rounding: the facts the score bounds need *)















Lemma pow2_pos k : 0 < 2 ^ k \/ k < 0.
Proof. destruct (Z_lt_le_dec k 0); [right; lia|left; apply Z.pow_pos_nonneg; lia]. Qed.












Import KeywordExtractor.



(** ** Comparing two scores *)











End FloatFacts.

Module MatcherFacts.

Import RegexSpec WordPatternSpec FloatSpec MatcherSpec RegexFacts WordPatternFacts FloatFacts.
Import ListNotations Str Regex Num Sections.
Import KeywordExtractor.
Local Open Scope list_scope.

Lemma eqs_eq a : forall b, eqs a b = true <-> a = b.
Proof.
  induction a as [|x a IH]; intros [|y b]; simpl; split; intros H;
    try reflexivity; try discriminate.
  - apply andb_true_iff in H. destruct H as [H1 H2].
    apply eqc_eq in H1. apply IH in H2. congruence.
  - injection H as -> ->. rewrite eqc_refl. simpl. apply IH. reflexivity.
Qed.

Lemma memStr_In x l : memStr x l = true <-> In x l.
Proof.
  unfold memStr. rewrite existsb_exists. split.
  - intros (y & Hy & E). apply eqs_eq in E. subst. assumption.
  - intros H. exists x. split; [assumption|apply eqs_eq; reflexivity].
Qed.

(** The loop of [matchKeywords] is a partition by the presence test. *)
Lemma match_loop (present : str -> bool) keywords : forall a b,
  fold_left (fun acc keyword =>
               if present keyword
               then (fst acc ++ [keyword], snd acc)
               else (fst acc, snd acc ++ [keyword]))
            keywords (a, b)
  = (a ++ filter present keywords,
     b ++ filter (fun k => negb (present k)) keywords).
Proof.
  induction keywords as [|k ks IH]; intros a b; simpl.
  - rewrite !app_nil_r. reflexivity.
  - destruct (present k); simpl; rewrite IH; simpl; rewrite <- !app_assoc; reflexivity.
Qed.

Lemma matchKeywords_nonempty cvText keywords :
  cvText <> [] -> keywords <> [] ->
  matchKeywords cvText keywords =
    mkMatch (filter (presentIn cvText) keywords)
            (filter (fun k => negb (presentIn cvText k)) keywords)
            (scoreOf (List.length (filter (presentIn cvText) keywords))
                     (List.length keywords))
            (List.length (filter (presentIn cvText) keywords))
            (Some (List.length keywords)).
Proof.
  intros Hc Hk. unfold matchKeywords.
  destruct cvText as [|c cv]; [congruence|].
  destruct keywords as [|k ks]; [congruence|].
  rewrite match_loop. reflexivity.
Qed.

















End MatcherFacts.

Module RankingFacts.

Import RegexSpec WordPatternSpec FloatSpec MatcherSpec RankingSpec RegexFacts WordPatternFacts FloatFacts MatcherFacts.
Import ListNotations Str Regex Num Sections.
Import KeywordExtractor.
Local Open Scope list_scope.

Lemma binary_round_aux_nonNegative mx ex lx :
  nonNegative (binary_round_aux prec emax false mx ex lx).
Proof.
  unfold binary_round_aux.
  destruct (shr_fexp prec emax mx ex lx) as [m1 e1].
  destruct (shr_fexp prec emax _ e1 loc_Exact) as [m2 e2].
  destruct (shr_m m2); simpl; auto.
  destruct (_ <=? _)%Z; simpl; auto.
Qed.

Lemma ofNat_nonNegative n : nonNegative (ofNat n).
Proof.
  unfold ofNat, ofZ, binary_normalize.
  destruct (Z.of_nat n) eqn:E; simpl; auto; [|lia].
  unfold binary_round. destruct (shl_align _ _ _).
  apply binary_round_aux_nonNegative.
Qed.

Lemma fmul_nonNegative x y :
  nonNegative x -> nonNegative y -> nonNegative (fmul x y).
Proof.
  unfold fmul, SFmul. destruct x as [[]|[]| |[] mx ex]; destruct y as [[]|[]| |[] my ey];
    simpl; auto; try tauto.
  intros _ _. apply binary_round_aux_nonNegative.
Qed.

Lemma fdiv_nonNegative x y :
  nonNegative x -> nonNegative y -> nonNegative (fdiv x y).
Proof.
  unfold fdiv, SFdiv. destruct x as [[]|[]| |[] mx ex]; destruct y as [[]|[]| |[] my ey];
    simpl; auto; try tauto.
  intros _ _. destruct (SFdiv_core_binary _ _ _ _ _ _) as [[mz ez] lz].
  apply binary_round_aux_nonNegative.
Qed.

Lemma Math_ceil_nonneg x : nonNegative x -> (0 <= Math_ceil x)%Z.
Proof.
  destruct x as [s0|s0| |s0 m e]; simpl; try lia.
  destruct s0; [tauto|]. intros _. simpl.
  unfold floorPow. destruct (0 <=? e)%Z eqn:E.
  - apply Z.leb_le in E. assert (0 < 2 ^ e)%Z by (apply Z.pow_pos_nonneg; lia). nia.
  - apply Z.leb_gt in E. assert (0 < 2 ^ (- e))%Z by (apply Z.pow_pos_nonneg; lia).
    assert (Z.neg m / 2 ^ (- e) < 0)%Z; [|lia].
    apply Z.div_lt_upper_bound; lia.
Qed.

Lemma dec_nonNegative n k : (0 <= n)%Z -> (0 <= k)%Z -> nonNegative (dec n k).
Proof.
  intros Hn Hk. unfold dec. apply fdiv_nonNegative.
  - rewrite <- (Z2Nat.id n Hn). apply ofNat_nonNegative.
  - assert (H : (0 <= 10 ^ k)%Z) by (apply Z.pow_nonneg; lia).
    rewrite <- (Z2Nat.id _ H). apply ofNat_nonNegative.
Qed.

Lemma highCountOf_nonneg n : (0 <= highCountOf n)%Z.
Proof.
  unfold highCountOf.
  pose proof (Math_ceil_nonneg (fmul (ofNat n) (dec 4 1))
                (fmul_nonNegative _ _ (ofNat_nonNegative n) (dec_nonNegative 4 1 ltac:(lia) ltac:(lia)))).
  lia.
Qed.

Lemma mediumCountOf_nonneg n : (0 <= mediumCountOf n)%Z.
Proof.
  unfold mediumCountOf.
  pose proof (Math_ceil_nonneg (fmul (ofNat n) (dec 35 2))
                (fmul_nonNegative _ _ (ofNat_nonNegative n) (dec_nonNegative 35 2 ltac:(lia) ltac:(lia)))).
  lia.
Qed.

(** ** Slices *)

Lemma relIndex_nonneg len k : (0 <= k)%Z -> relIndex len k = Nat.min (Z.to_nat k) len.
Proof. intros H. unfold relIndex. destruct (k <? 0)%Z eqn:E; [apply Z.ltb_lt in E; lia|reflexivity]. Qed.

Lemma slice_three {A} (l : list A) (h m : Z) :
  (0 <= h)%Z -> (0 <= m)%Z ->
  slice l 0 h ++ slice l h (h + m) ++ sliceFrom l (h + m) = l /\
  slice l 0 h = firstn (Z.to_nat h) l /\
  slice l h (h + m) = firstn (Z.to_nat m) (skipn (Z.to_nat h) l).
Proof.
  intros Hh Hm. unfold slice, sliceFrom.
  rewrite !relIndex_nonneg by lia.
  change (Z.to_nat 0) with 0%nat. rewrite Nat.min_0_l, Nat.sub_0_r. cbn [skipn].
  set (len := List.length l).
  set (i := Nat.min (Z.to_nat h) len). set (j := Nat.min (Z.to_nat (h + m)) len).
  assert (Hij : (i <= j)%nat) by (subst i j; lia).
  assert (Hj : (j <= len)%nat) by (subst j; lia).
  split; [|split].
  - replace (skipn j l) with (skipn (j - i) (skipn i l)).
    + rewrite (firstn_skipn (j - i) (skipn i l)). apply firstn_skipn.
    + rewrite skipn_skipn. f_equal. lia.
  - subst i. destruct (Nat.min_spec (Z.to_nat h) len) as [[? ->]|[? ->]]; [reflexivity|].
    subst len. rewrite !firstn_all2 by lia. reflexivity.
  - subst i j. destruct (Nat.min_spec (Z.to_nat h) len) as [[H1 E1]|[H1 E1]]; rewrite E1.
    + destruct (Nat.min_spec (Z.to_nat (h + m)) len) as [[H2 E2]|[H2 E2]]; rewrite E2.
      * f_equal. lia.
      * subst len. rewrite !firstn_all2; [reflexivity| |]; rewrite length_skipn; lia.
    + rewrite Nat.min_r by lia. subst len.
      rewrite !skipn_all2 by lia. rewrite !firstn_nil. reflexivity.
Qed.



Lemma fold_cons_incl (ws : list str) : forall seen x,
  In x seen -> In x (fold_left (fun sn word => word :: sn) ws seen).
Proof.
  induction ws as [|w ws IH]; intros seen x H; simpl; [assumption|].
  apply IH. right. assumption.
Qed.

Lemma fold_cons_words (ws : list str) : forall seen x,
  In x ws -> In x (fold_left (fun sn word => word :: sn) ws seen).
Proof.
  induction ws as [|w ws IH]; intros seen x H; simpl; [destruct H|].
  destruct H as [->|H]; [apply fold_cons_incl; left; reflexivity|apply IH; assumption].
Qed.

Lemma dedupStep_inv st item : dedupInv st -> dedupInv (dedupStep st item).
Proof.
  destruct st as [seen unique]. intros [Hnd Hin]. unfold dedupStep.
  destruct (memStr (normalize (term item)) seen) eqn:Hm; [split; assumption|].
  unfold dedupInv. cbn [fst snd] in *. split.
  - rewrite map_app. simpl.
    apply Permutation_NoDup with (l := normOf item :: map normOf unique).
    + apply Permutation_cons_append.
    + constructor; [|assumption].
      intros Hx. apply in_map_iff in Hx. destruct Hx as (j & Ej & Hj).
      apply Hin in Hj. rewrite Ej in Hj. apply memStr_In in Hj.
      unfold normOf in Hj. congruence.
  - intros i Hi. apply in_app_or in Hi.
    assert (Hbase : forall x, In x (normalize (term item) :: seen) ->
              In x (if isPhrase item
                    then fold_left (fun sn word => word :: sn)
                                   (splitOn " " (term item))
                                   (normalize (term item) :: seen)
                    else normalize (term item) :: seen)).
    { intros x Hx. destruct (isPhrase item); [apply fold_cons_incl|]; assumption. }
    apply Hbase. destruct Hi as [Hi|[<-|[]]].
    + right. apply Hin. assumption.
    + left. reflexivity.
Qed.

Lemma dedup_inv scores : dedupInv (dedup scores).
Proof.
  unfold dedup.
  assert (H : forall st, dedupInv st -> dedupInv (fold_left dedupStep scores st)).
  { induction scores as [|x xs IH]; intros st Hst; simpl; [assumption|].
    apply IH. apply dedupStep_inv. assumption. }
  apply H. split; [constructor|]. intros i [].
Qed.

Lemma NoDup_map_term l : NoDup (map normOf l) -> NoDup (map term l).
Proof.
  intros H. apply (NoDup_map_inv normalize). rewrite map_map. exact H.
Qed.

Lemma NoDup_firstn {A} n (l : list A) : NoDup l -> NoDup (firstn n l).
Proof.
  intros H. rewrite <- (firstn_skipn n l) in H. apply NoDup_app_remove_r in H. exact H.
Qed.

Lemma NoDup_app_disjoint {A} (l1 l2 : list A) :
  NoDup (l1 ++ l2) -> forall x, In x l1 -> ~ In x l2.
Proof.
  induction l1 as [|a l1 IH]; intros H x Hx; [destruct Hx|].
  simpl in H. inversion H as [|? ? Hn Hnd]; subst.
  destruct Hx as [->|Hx].
  - intros H2. apply Hn. apply in_or_app. right. assumption.
  - apply IH; assumption.
Qed.


Lemma startsWith_app p : forall t,
  startsWith p t = true -> exists post, t = p ++ post.
Proof.
  induction p as [|x p IH]; intros t H; simpl in H.
  - exists t. reflexivity.
  - destruct t as [|y t]; [discriminate|].
    apply andb_true_iff in H. destruct H as [E H].
    apply eqc_eq in E. subst y.
    destruct (IH t H) as [post ->]. exists post. reflexivity.
Qed.

Lemma startsWith_refl p : forall post, startsWith p (p ++ post) = true.
Proof.
  induction p as [|x p IH]; intros post; simpl; [reflexivity|].
  rewrite eqc_refl, IH. reflexivity.
Qed.

Lemma includes_app t : forall p,
  includes t p = true -> exists pre post, t = pre ++ p ++ post.
Proof.
  induction t as [|c t IH]; intros p H; simpl in H.
  - rewrite orb_false_r in H. apply startsWith_app in H.
    destruct H as [post ->]. exists [], post. reflexivity.
  - apply orb_true_iff in H. destruct H as [H|H].
    + apply startsWith_app in H. destruct H as [post ->].
      exists [], post. reflexivity.
    + destruct (IH p H) as (pre & post & ->).
      exists (c :: pre), post. reflexivity.
Qed.







(** Pieces hold no white space. *)
Lemma split_pieces_solid : forall t g cur piece,
  solid cur = true ->
  In piece (splitSpacesAux g cur t) -> solid piece = true.
Proof.
  assert (Hrev : forall l, solid l = true -> solid (rev l) = true).
  { intros l H. unfold solid in *. rewrite forallb_forall in *.
    intros x Hx. apply H. apply in_rev. exact Hx. }
  induction t as [|c t IH]; intros g cur piece Hcur Hin.
  - destruct Hin as [<-|[]]. apply Hrev. exact Hcur.
  - cbn [splitSpacesAux] in Hin. destruct (isSpace c) eqn:Hc.
    + destruct g.
      * apply (IH true cur); assumption.
      * destruct Hin as [<-|Hin]; [apply Hrev; exact Hcur|].
        apply (IH true []); [reflexivity|assumption].
    + apply (IH false (c :: cur)); [|assumption].
      simpl. rewrite Hc. exact Hcur.
Qed.









Lemma countStr_snoc k tokens t :
  countStr k (tokens ++ [t]) = (countStr k tokens + (if eqs k t then 1 else 0))%nat.
Proof.
  unfold countStr. rewrite filter_app, length_app. simpl.
  destruct (eqs k t); reflexivity.
Qed.

Lemma bump_In token : forall tf k v,
  In (k, v) (bump token tf) ->
  In (k, v) tf \/ (k = token /\ v = 1%nat) \/
  (k = token /\ exists v', v = S v' /\ In (k, v') tf).
Proof.
  induction tf as [|[k0 v0] tf IH]; intros k v H; simpl in H.
  - destruct H as [H|[]]. injection H as <- <-. right. left. auto.
  - destruct (eqs k0 token) eqn:E.
    + destruct H as [H|H].
      * injection H as <- <-. apply eqs_eq in E. subst k0.
        right. right. split; [reflexivity|]. exists v0. split; [reflexivity|].
        left. reflexivity.
      * left. right. exact H.
    + destruct H as [H|H].
      * injection H as <- <-. left. left. reflexivity.
      * destruct (IH k v H) as [H1|[H1|(H1 & v' & H2 & H3)]].
        -- left. right. exact H1.
        -- right. left. exact H1.
        -- right. right. split; [exact H1|]. exists v'. split; [exact H2|].
           right. exact H3.
Qed.

Lemma eqs_refl a : eqs a a = true.
Proof. apply eqs_eq. reflexivity. Qed.

Lemma counts_bound tokens : forall tf done,
  (forall k v, In (k, v) tf -> (1 <= v <= countStr k done)%nat) ->
  forall k v,
    In (k, v) (fold_left (fun tf token => bump token tf) tokens tf) ->
    (1 <= v <= countStr k (done ++ tokens))%nat.
Proof.
  induction tokens as [|t tokens IH]; intros tf done Hinv k v H; simpl in H.
  - rewrite app_nil_r. apply Hinv. exact H.
  - replace (done ++ t :: tokens) with ((done ++ [t]) ++ tokens)
      by (rewrite <- app_assoc; reflexivity).
    apply (IH (bump t tf)); [|exact H].
    intros k' v' H'. rewrite countStr_snoc.
    destruct (bump_In t tf k' v' H') as [H1|[[-> ->]|(-> & v0 & -> & H1)]].
    + specialize (Hinv _ _ H1). lia.
    + rewrite eqs_refl. lia.
    + specialize (Hinv _ _ H1). rewrite eqs_refl. lia.
Qed.



(** An entry of [calculateTF]. *)
Lemma calculateTF_In tokens k x :
  In (k, x) (calculateTF tokens) ->
  exists v, x = fdiv (ofNat v) (ofNat (List.length tokens)) /\
            (1 <= v <= countStr k tokens)%nat.
Proof.
  unfold calculateTF. intros H. apply in_map_iff in H.
  destruct H as ([k0 v] & E & Hin). cbn [fst snd] in E. injection E as <- <-.
  exists v. split; [reflexivity|].
  apply (counts_bound tokens [] [] (fun _ _ H => match H with end) k0 v Hin).
Qed.






Lemma insertSorted_In z : forall acc x,
  In x (insertSorted z acc) <-> x = z \/ In x acc.
Proof.
  induction acc as [|y ys IH]; intros x; simpl.
  - intuition.
  - destruct (before z y); simpl; [intuition|].
    rewrite IH. intuition.
Qed.

Lemma sort_In l : forall acc x,
  In x (fold_left (fun acc x => insertSorted x acc) l acc) <-> In x l \/ In x acc.
Proof.
  induction l as [|z l IH]; intros acc x; simpl.
  - intuition.
  - rewrite IH, insertSorted_In. intuition.
Qed.





(** ** The words of a kept phrase are not kept *)

Lemma dedupStep_cases seen u x :
  (memStr (normalize (term x)) seen = true /\ dedupStep (seen, u) x = (seen, u)) \/
  (memStr (normalize (term x)) seen = false /\
   exists seen', dedupStep (seen, u) x = (seen', u ++ [x]) /\
     (forall y, In y seen -> In y seen') /\
     In (normalize (term x)) seen' /\
     (isPhrase x = true -> forall y, In y (splitOn " " (term x)) -> In y seen')).
Proof.
  unfold dedupStep. destruct (memStr (normalize (term x)) seen) eqn:E.
  - left. split; reflexivity.
  - right. split; [reflexivity|]. eexists. split; [reflexivity|].
    destruct (isPhrase x).
    + split; [|split].
      * intros y Hy. apply fold_cons_incl. right. exact Hy.
      * apply fold_cons_incl. left. reflexivity.
      * intros _ y Hy. apply fold_cons_words. exact Hy.
    + split; [|split].
      * intros y Hy. right. exact Hy.
      * left. reflexivity.
      * discriminate.
Qed.


Section Suppress.

Variable P : ScoredTerm.

Variable w : str.

Hypothesis Hphrase : isPhrase P = true.

Hypothesis Hword : In w (splitOn " " (term P)).

Hypothesis Hnorm : normalize w = w.

Hypothesis Hterm : term P <> w.




End Suppress.

(** ** Items of the score list *)

Lemma toLowerCase_idem t : toLowerCase (toLowerCase t) = toLowerCase t.
Proof.
  unfold toLowerCase. rewrite map_map. apply map_ext. apply lowerChar_idem.
Qed.

Lemma cleanText_lower text : toLowerCase (cleanText text) = cleanText text.
Proof.
  unfold cleanText. destruct text; [reflexivity|]. apply toLowerCase_idem.
Qed.






Lemma countStr_In k tokens : (1 <= countStr k tokens)%nat -> In k tokens.
Proof.
  unfold countStr. intros H.
  destruct (filter (eqs k) tokens) as [|x l] eqn:E; [simpl in H; lia|].
  assert (Hx : In x (filter (eqs k) tokens)) by (rewrite E; left; reflexivity).
  apply filter_In in Hx. destruct Hx as [Hx Hk]. apply eqs_eq in Hk. subst x.
  exact Hx.
Qed.

Lemma scoreTerms_eq tokens phrases :
  scoreTerms tokens phrases
  = map (wordItem tokens) (calculateTF tokens) ++ map phraseItem phrases.
Proof. reflexivity. Qed.

Lemma tf_key_token tokens k x : In (k, x) (calculateTF tokens) -> In k tokens.
Proof.
  intros H. destruct (calculateTF_In tokens k x H) as (v & _ & Hv).
  apply countStr_In. lia.
Qed.

Lemma extractPhrases_In text p f :
  In (p, f) (extractPhrases text) ->
  In p COMMON_PHRASES /\ includes (toLowerCase text) p = true /\
  f = countMatches p 0 (toLowerCase text).
Proof.
  unfold extractPhrases. intros H. apply in_flat_map in H.
  destruct H as (q & Hq & H).
  destruct (includes (toLowerCase text) q) eqn:E; [|destruct H].
  destruct H as [H|[]]. injection H as <- <-. auto.
Qed.



(** ** What the deduplication keeps *)

Lemma firstn_incl {A} n (l : list A) x : In x (firstn n l) -> In x l.
Proof.
  intros H. rewrite <- (firstn_skipn n l). apply in_or_app. left. exact H.
Qed.

Lemma skipn_incl {A} n (l : list A) x : In x (skipn n l) -> In x l.
Proof.
  intros H. rewrite <- (firstn_skipn n l). apply in_or_app. right. exact H.
Qed.

Lemma slice_incl {A} (l : list A) a b x : In x (slice l a b) -> In x l.
Proof.
  unfold slice. intros H. apply firstn_incl in H. apply skipn_incl in H. exact H.
Qed.

Lemma dedup_fold_incl l : forall st x,
  In x (snd (fold_left dedupStep l st)) -> In x (snd st) \/ In x l.
Proof.
  induction l as [|y l IH]; intros [seen u] x H; cbn [fold_left] in H.
  - left. exact H.
  - apply IH in H. destruct H as [H|H]; [|right; right; exact H].
    destruct (dedupStep_cases seen u y) as [[_ E]|(_ & seen' & E & _)];
      rewrite E in H; cbn [snd] in *.
    + left. exact H.
    + apply in_app_iff in H. destruct H as [H|[<-|[]]].
      * left. exact H.
      * right. left. reflexivity.
Qed.


Lemma extractKeywords_all jd maxKeywords :
  jd <> [] ->
  all (extractKeywords jd maxKeywords)
  = map term
        (slice (snd (dedup (sortScores
                              (scoreTerms (tokenize (cleanText jd))
                                          (extractPhrases (cleanText jd))))))
               0 (Z.of_nat maxKeywords)).
Proof. intros H. destruct jd; [congruence|reflexivity]. Qed.





End RankingFacts.

Module TailoringFacts.

Import RegexSpec WordPatternSpec FloatSpec MatcherSpec RankingSpec TailoringSpec RegexFacts WordPatternFacts FloatFacts MatcherFacts RankingFacts.
Import ListNotations Str Regex Num Sections.
Import KeywordExtractor.
Local Open Scope list_scope.

(** C7, evaluation at the failing input: sixteen of eighteen keywords are
    in the CV (score 89, below the target 95, two keywords missing); the
    second [Experience] line overwrites the first experience section, and
    the score after tailoring is 83.  Shown for [tailorCV] of
    [tailor-universal.js] with the matcher of section 4.3, and for the
    orchestrator with the modules of the sources only. *)
Theorem tailoring_lowers_score :
  (exists r,
     TailorUniversal.tailorCV (Some ReliableExtractor.matchKeywords) None
                              lostCV (TailorUniversal.KwArray lostKeywords)
     = TailorUniversal.Returned r /\
     TailorUniversal.initialScore r = Some 89%Z /\
     TailorUniversal.finalScore r = Some 83%Z /\
     missing (ReliableExtractor.matchKeywords lostCV lostKeywords)
     = [s "quebec"; s "romeo"]) /\
  (exists r,
     snd (AutoTailor95.autoTailorTo95Plus onlySources 95 35 lostJob lostCV)
     = TailorUniversal.Returned r /\
     AutoTailor95.initialScore r = 89%Z /\
     AutoTailor95.finalScore r = 83%Z) /\
  TailorUniversal.sections (TailorUniversal.parseCV lostCV) experience
  = Some (s "Experience abroad").
Proof.
  split; [|split].
  - eexists. split; [vm_compute; reflexivity|].
    vm_compute. repeat split; reflexivity.
  - eexists. split; [vm_compute; reflexivity|].
    vm_compute. repeat split; reflexivity.
  - vm_compute. reflexivity.
Qed.

(** C6, evaluation at the failing input: with a summary section and no
    skills section, [tailorCV] of [cv-tailor.js] injects [python] through
    the summary strategy and again through the skills strategy. *)
Theorem keyword_injected_twice :
  let r := CVTailor.runStrategies true summaryOnlyCV pythonOnly in
  CVTailor.injected (CVTailor.summaryResult r) = [s "python"] /\
  CVTailor.injected (CVTailor.experienceResult r) = [] /\
  CVTailor.injected (CVTailor.skillsResult r) = [s "python"] /\
  CVTailor.injectedKeywords (CVTailor.tailorCV true summaryOnlyCV pythonOnly)
  = [s "python"; s "python"].
Proof. vm_compute. repeat split; reflexivity. Qed.

Import TailorUniversal (Outcome, Threw, Returned).

Lemma universal_tailorCV_returns rm ts cv kws :
  cv <> [] -> exists r, TailorUniversal.tailorCV rm ts cv kws = Returned r.
Proof.
  intros Hcv. unfold TailorUniversal.tailorCV.
  destruct cv as [|c cv']; [congruence|].
  destruct (TailorUniversal.keywordListOf kws); [eexists; reflexivity|].
  match goal with |- context [if ?b then _ else _] => destruct b end;
    eexists; reflexivity.
Qed.

Lemma tailorCVForTarget_returns g ts cv kws im :
  cv <> [] -> exists t, AutoTailor95.tailorCVForTarget g ts cv kws im = Returned t.
Proof.
  intros Hcv. unfold AutoTailor95.tailorCVForTarget.
  destruct (AutoTailor95.gTailorUniversal g).
  - destruct (universal_tailorCV_returns
                (option_map AutoTailor95.reliableMatchKeywords (AutoTailor95.gReliable g))
                (Some ts) cv (TailorUniversal.KwObject kws) Hcv) as [r ->].
    eexists; reflexivity.
  - destruct (AutoTailor95.gCVTailor g); eexists; reflexivity.
Qed.

(** C8: [autoTailorTo95Plus] throws, before any callback and
    before keyword extraction, when the job description or the CV is empty;
    it throws after the extraction when no keyword was extracted; in every
    other case it returns a result whose fields are those of the run, after
    the last progress callback; the outcome is an error or a result, never
    both. *)
Theorem orchestrator_outcomes g targetScore maxKeywords jobDescription baseCV :
  let run := AutoTailor95.autoTailorTo95Plus g targetScore maxKeywords
                                             jobDescription baseCV in
  let kws := AutoTailor95.extractJobKeywords g maxKeywords jobDescription in
  (jobDescription = [] \/ baseCV = [] ->
   run = ([], Threw (s "Job description and CV are required"))) /\
  (jobDescription <> [] -> baseCV <> [] -> all kws = [] ->
   snd run = Threw (s "Could not extract keywords from job description") /\
   exists label, fst run = [AutoTailor95.Progress 10 label;
                            AutoTailor95.ExtractKeywords]) /\
  (jobDescription <> [] -> baseCV <> [] -> all kws <> [] ->
   exists r,
     snd run = Returned r /\
     AutoTailor95.originalCV r = baseCV /\
     AutoTailor95.keywords r = kws /\
     AutoTailor95.keywordsExtracted r = List.length (all kws) /\
     AutoTailor95.keywordsInjected r
     = List.length (AutoTailor95.injectedKeywords r) /\
     AutoTailor95.scoreImprovement r
     = (AutoTailor95.finalScore r - AutoTailor95.initialScore r)%Z /\
     isProgress (last (fst run) AutoTailor95.ExtractKeywords) 100) /\
  (forall m r, snd run = Threw m -> snd run <> Returned r).
Proof.
  intros run kws. subst run kws.
  split; [|split; [|split]].
  - intros [-> | ->]; unfold AutoTailor95.autoTailorTo95Plus.
    + reflexivity.
    + destruct jobDescription; reflexivity.
  - intros Hjd Hcv Hk. unfold AutoTailor95.autoTailorTo95Plus.
    destruct jobDescription as [|j jd]; [congruence|].
    destruct baseCV as [|c cv]; [congruence|].
    rewrite Hk. simpl. split; [reflexivity|eexists; reflexivity].
  - intros Hjd Hcv Hk. unfold AutoTailor95.autoTailorTo95Plus.
    destruct jobDescription as [|j jd]; [congruence|].
    destruct baseCV as [|c cv]; [congruence|].
    set (jd' := j :: jd) in *. set (cv' := c :: cv) in *.
    destruct (all (AutoTailor95.extractJobKeywords g maxKeywords jd')) as [|k ks] eqn:Ek;
      [congruence|].
    destruct (tailorCVForTarget_returns g targetScore cv'
                (AutoTailor95.extractJobKeywords g maxKeywords jd')
                (AutoTailor95.calculateInitialMatch g cv'
                   (AutoTailor95.extractJobKeywords g maxKeywords jd')) Hcv) as [t Ht].
    rewrite Ht. eexists. split; [reflexivity|].
    cbn [AutoTailor95.originalCV AutoTailor95.keywords AutoTailor95.keywordsExtracted
         AutoTailor95.keywordsInjected AutoTailor95.injectedKeywords
         AutoTailor95.scoreImprovement AutoTailor95.finalScore
         AutoTailor95.initialScore fst].
    repeat split; try reflexivity.
    eexists. cbn. reflexivity.
  - intros m r H. rewrite H. discriminate.
Qed.

Lemma orchestrator_outcomes_witness :
  lostJob <> [] /\ lostCV <> [] /\
  all (AutoTailor95.extractJobKeywords onlySources 35 lostJob) <> [] /\
  exists r,
    snd (AutoTailor95.autoTailorTo95Plus onlySources 95 35 lostJob lostCV)
    = Returned r /\
    AutoTailor95.originalCV r = lostCV.
Proof.
  assert (H1 : lostJob <> []) by discriminate.
  assert (H2 : lostCV <> []) by discriminate.
  assert (H3 : all (AutoTailor95.extractJobKeywords onlySources 35 lostJob) <> [])
    by (vm_compute; discriminate).
  destruct (orchestrator_outcomes onlySources 95 35 lostJob lostCV)
    as (_ & _ & H & _).
  destruct (H H1 H2 H3) as (r & Hr & Ho & _).
  repeat split; try assumption. exists r. split; assumption.
Defined.

(** C8, the empty CV: with a non-empty job description that yields
    keywords and an empty CV, the orchestrator throws. *)
Lemma orchestrator_empty_cv_counterexample :
  lostJob <> [] /\
  all (AutoTailor95.extractJobKeywords onlySources 35 lostJob) <> [] /\
  AutoTailor95.autoTailorTo95Plus onlySources 95 35 lostJob []
  = ([], Threw (s "Job description and CV are required")).
Proof.
  split; [discriminate|]. split; [vm_compute; discriminate|]. reflexivity.
Qed.

End TailoringFacts.

Module LinesFacts.

Import RegexSpec WordPatternSpec FloatSpec MatcherSpec RankingSpec TailoringSpec LinesSpec RegexFacts WordPatternFacts FloatFacts MatcherFacts RankingFacts TailoringFacts.
Import ListNotations Str Regex Num Sections.
Local Open Scope list_scope.

Lemma M_consumes ic r b t b' t' :
  M ic r b t b' t' -> exists C, t = C ++ t' /\ b' = rev C ++ b.
Proof.
  induction 1; try (exists []; split; reflexivity);
    try (exists [x]; split; reflexivity); try assumption.
  - destruct IHM1 as (C1 & -> & ->). destruct IHM2 as (C2 & -> & ->).
    exists (C1 ++ C2). rewrite rev_app_distr, <- !app_assoc. split; reflexivity.
  - destruct IHM as (C & -> & ->). exists (x :: C). simpl.
    rewrite <- app_assoc. split; reflexivity.
Qed.

Lemma M_reframe ic r b t b' t' :
  M ic r b t b' t' -> plain r = true ->
  forall C, t = C ++ t' -> forall bb tt, M ic r bb (C ++ tt) (rev C ++ bb) tt.
Proof.
  induction 1; intros Hp C0 E bb tt; simpl in Hp; try discriminate.
  - assert (C0 = []) by (apply (app_inv_tail t); simpl; congruence). subst. apply MEps.
  - assert (C0 = [x]) by (apply (app_inv_tail t); simpl; congruence). subst.
    apply MChr. assumption.
  - assert (C0 = [x]) by (apply (app_inv_tail t); simpl; congruence). subst.
    apply MCls. assumption.
  - apply andb_true_iff in Hp. destruct Hp as [Hp1 Hp2].
    destruct (M_consumes _ _ _ _ _ _ H) as (C1 & E1 & _).
    destruct (M_consumes _ _ _ _ _ _ H0) as (C2 & E2 & _).
    assert (C0 = C1 ++ C2).
    { apply (app_inv_tail t2). rewrite <- app_assoc. congruence. }
    subst C0. rewrite rev_app_distr, <- !app_assoc.
    eapply MSeq.
    + apply (IHM1 Hp1 C1 E1).
    + apply (IHM2 Hp2 C2 E2).
  - apply andb_true_iff in Hp. destruct Hp as [Hp1 Hp2].
    apply MAltL. apply (IHM Hp1 C0 E).
  - apply andb_true_iff in Hp. destruct Hp as [Hp1 Hp2].
    apply MAltR. apply (IHM Hp2 C0 E).
  - apply MOptS. apply (IHM Hp C0 E).
  - assert (C0 = []) by (apply (app_inv_tail t); simpl; congruence). subst. apply MOptN.
  - assert (C0 = []) by (apply (app_inv_tail t); simpl; congruence). subst. apply MStar0.
  - destruct (M_consumes _ _ _ _ _ _ H0) as (C1 & E1 & _).
    assert (C0 = x :: C1).
    { apply (app_inv_tail t'). simpl. congruence. }
    subst C0. simpl. rewrite <- app_assoc. apply MStarS; [assumption|].
    apply (IHM eq_refl C1 E1).
Qed.

Lemma isSpace_lower c : isSpace (lowerChar c) = isSpace c.
Proof. all_ascii c. Qed.

Lemma eqci_space c x : eqci c x = true -> isSpace x = isSpace c.
Proof.
  unfold eqci. intros H. apply eqc_eq in H.
  rewrite <- (isSpace_lower x), <- (isSpace_lower c). congruence.
Qed.

Lemma solidOrEmpty_sound r : forall b t b' t',
  solidOrEmpty r = true -> M true r b t b' t' -> b' = b \/ endsSolid b' b.
Proof.
  induction r; intros b t b' t' Hs HM; simpl in Hs; try discriminate.
  - apply M_eps_inv in HM. left. tauto.
  - apply M_chr_inv in HM. destruct HM as (x & -> & -> & Hx). right.
    exists x, b. split; [reflexivity|]. split; [|simpl; lia].
    simpl in Hx. rewrite (eqci_space _ _ Hx). apply negb_true_iff. assumption.
  - apply andb_true_iff in Hs. destruct Hs as [H1 H2].
    apply M_seq_inv in HM. destruct HM as (b1 & t1 & HM1 & HM2).
    destruct (IHr2 _ _ _ _ H2 HM2) as [->|(c & b'' & -> & Hc & Hl)].
    + apply (IHr1 _ _ _ _ H1 HM1).
    + right. exists c, b''. repeat split; try assumption.
      destruct (M_consumes _ _ _ _ _ _ HM1) as (C & _ & ->).
      rewrite length_app in Hl. lia.
  - apply andb_true_iff in Hs. destruct Hs as [H1 H2].
    inversion HM; subst; eauto.
  - inversion HM; subst; eauto.
Qed.

Lemma solidEnd_sound r : forall b t b' t',
  solidEnd r = true -> M true r b t b' t' -> endsSolid b' b.
Proof.
  induction r; intros b t b' t' Hs HM; simpl in Hs; try discriminate.
  - apply M_chr_inv in HM. destruct HM as (x & -> & -> & Hx).
    exists x, b. split; [reflexivity|]. split; [|simpl; lia].
    simpl in Hx. rewrite (eqci_space _ _ Hx). apply negb_true_iff. assumption.
  - apply M_seq_inv in HM. destruct HM as (b1 & t1 & HM1 & HM2).
    destruct (M_consumes _ _ _ _ _ _ HM1) as (C & _ & E1).
    apply orb_true_iff in Hs. destruct Hs as [H2|H12].
    + destruct (IHr2 _ _ _ _ H2 HM2) as (c & b'' & -> & Hc & Hl).
      exists c, b''. repeat split; try assumption.
      subst b1. rewrite length_app in Hl. lia.
    + apply andb_true_iff in H12. destruct H12 as [H1 H2].
      destruct (solidOrEmpty_sound _ _ _ _ _ H2 HM2) as [->|(c & b'' & -> & Hc & Hl)].
      * apply (IHr1 _ _ _ _ H1 HM1).
      * exists c, b''. repeat split; try assumption.
        subst b1. rewrite length_app in Hl. lia.
  - apply andb_true_iff in Hs. destruct Hs as [H1 H2].
    inversion HM; subst; eauto.
Qed.

Lemma solidStart_sound r : forall b t b' t',
  solidStart r = true -> M true r b t b' t' ->
  exists c t0, t = c :: t0 /\ isSpace c = false.
Proof.
  induction r; intros b t b' t' Hs HM; simpl in Hs; try discriminate.
  - apply M_chr_inv in HM. destruct HM as (x & -> & -> & Hx).
    exists x, t'. split; [reflexivity|].
    simpl in Hx. rewrite (eqci_space _ _ Hx). apply negb_true_iff. assumption.
  - apply M_seq_inv in HM. destruct HM as (b1 & t1 & HM1 & HM2).
    apply (IHr1 _ _ _ _ Hs HM1).
  - apply andb_true_iff in Hs. destruct Hs as [H1 H2].
    inversion HM; subst; eauto.
Qed.

Lemma patterns_good :
  Forall (fun e => goodHeader (snd e)) TailorUniversal.SECTION_PATTERNS.
Proof.
  unfold TailorUniversal.SECTION_PATTERNS.
  repeat constructor; cbn [snd]; unfold TailorUniversal.headerRe;
    eexists; (split; [reflexivity|]); vm_compute; repeat split; reflexivity.
Qed.

Lemma eqci_nl x : eqci nl x = true -> x = nl.
Proof.
  intros H. destruct x as [[] [] [] [] [] [] [] []];
    vm_compute in H; try discriminate H; reflexivity.
Qed.

Lemma header_test A l :
  nlFree l ->
  (test true (Seq (Alt Bol (Chr nl)) (Seq A TailorUniversal.tailColon)) l = true
   <-> exists b1 t1, M true A [] l b1 t1).
Proof.
  intros Hnl. rewrite test_iff. split.
  - intros (sk & t1 & b' & t' & -> & HM).
    apply M_seq_inv in HM. destruct HM as (b1 & t2 & H1 & H2).
    apply M_seq_inv in H2. destruct H2 as (b3 & t3 & H3 & _).
    apply M_alt_inv in H1. destruct H1 as [H1|H1].
    + apply M_bol_inv in H1. destruct H1 as (E & -> & ->).
      assert (sk = []) by (destruct sk; [reflexivity|]; simpl in E;
                           apply app_eq_nil in E; destruct E; discriminate).
      subst sk. simpl. eauto.
    + apply M_chr_inv in H1. destruct H1 as (x & -> & _ & Hx).
      simpl in Hx. apply eqci_nl in Hx. subst x.
      exfalso. apply Hnl. apply in_or_app. right. left. reflexivity.
  - intros (b1 & t1 & HM). exists [], l, b1, t1. split; [reflexivity|].
    eapply MSeq; [apply MAltL; apply MBol|].
    eapply MSeq; [exact HM|apply MStar0].
Qed.

Lemma solid_prefix (C0 : str) c : forall x w t1,
  (C0 ++ [c]) ++ t1 = x ++ w -> isSpace c = false ->
  forallb isSpace w = true -> exists t0, x = (C0 ++ [c]) ++ t0.
Proof.
  induction C0 as [|a C0 IH]; intros x w t1 E Hc Hw.
  - destruct x as [|y x].
    + simpl in E. destruct w as [|z w]; [discriminate|].
      injection E as <- _. simpl in Hw. rewrite Hc in Hw. discriminate.
    + simpl in E. injection E as <- _. exists x. reflexivity.
  - destruct x as [|y x].
    + exfalso. simpl in E.
      assert (Hin : In c w).
      { rewrite <- E. right. apply in_or_app. left. apply in_or_app.
        right. left. reflexivity. }
      rewrite forallb_forall in Hw. apply Hw in Hin. congruence.
    + simpl in E. injection E as <- E.
      destruct (IH x w t1 E Hc Hw) as (t0 & ->).
      exists t0. reflexivity.
Qed.

Lemma good_test_ext r x w :
  goodHeader r -> nlFree (x ++ w) -> forallb isSpace w = true ->
  test true r (x ++ w) = test true r x.
Proof.
  intros (A & -> & Hp & He & _) Hnl Hw.
  assert (Hnx : nlFree x).
  { intros H. apply Hnl. apply in_or_app. left. assumption. }
  apply eq_true_iff_eq. rewrite (header_test A _ Hnl), (header_test A _ Hnx). split.
  - intros (b1 & t1 & HM).
    destruct (M_consumes _ _ _ _ _ _ HM) as (C & E & Eb). rewrite app_nil_r in Eb.
    destruct (solidEnd_sound _ _ _ _ _ He HM) as (c & b'' & Ec & Hc & _).
    assert (Hpre : exists t0, x = C ++ t0).
    { assert (HC : C = rev b'' ++ [c]).
      { rewrite <- (rev_involutive C), <- Eb, Ec. reflexivity. }
      rewrite HC in E |- *. symmetry in E.
      apply (solid_prefix _ _ _ _ _ E Hc Hw). }
    destruct Hpre as (t0 & ->).
    exists b1, t0. subst b1.
    replace (rev C) with (rev C ++ []) by apply app_nil_r.
    apply (M_reframe _ _ _ _ _ _ HM Hp C E).
  - intros (b1 & t1 & HM).
    destruct (M_consumes _ _ _ _ _ _ HM) as (C & E & Eb). rewrite app_nil_r in Eb.
    subst x b1. exists (rev C), (t1 ++ w). rewrite <- app_assoc.
    replace (rev C) with (rev C ++ []) by apply app_nil_r.
    apply (M_reframe _ _ _ _ _ _ HM Hp C eq_refl).
Qed.

Lemma good_test_solid r l :
  goodHeader r -> nlFree l -> test true r l = true ->
  exists c t0, l = c :: t0 /\ isSpace c = false.
Proof.
  intros (A & -> & _ & _ & Hs) Hnl H.
  apply (header_test A _ Hnl) in H. destruct H as (b1 & t1 & HM).
  apply (solidStart_sound _ _ _ _ _ Hs HM).
Qed.

Lemma firstMatch_ext table x w :
  Forall (fun e => goodHeader (snd e)) table ->
  nlFree (x ++ w) -> forallb isSpace w = true ->
  firstMatch true table (x ++ w) = firstMatch true table x.
Proof.
  intros Hg Hnl Hw. induction Hg as [|[n r] table Hr _ IH]; simpl; [reflexivity|].
  rewrite (good_test_ext r x w Hr Hnl Hw), IH. reflexivity.
Qed.

Lemma classify_ext x w :
  nlFree (x ++ w) -> forallb isSpace w = true -> classify (x ++ w) = classify x.
Proof. apply firstMatch_ext. apply patterns_good. Qed.

Lemma classify_solid l n :
  nlFree l -> classify l = Some n ->
  exists c t0, l = c :: t0 /\ isSpace c = false.
Proof.
  unfold classify. intros Hnl.
  assert (Hg := patterns_good).
  induction Hg as [|[m r] table Hr _ IH]; simpl; [discriminate|].
  destruct (test true r l) eqn:Ht.
  - intros _. apply (good_test_solid r l Hr Hnl Ht).
  - exact IH.
Qed.

Lemma classify_nil : classify [] = None.
Proof. vm_compute. reflexivity. Qed.

Lemma firstMatch_name ic table l n :
  firstMatch ic table l = Some n -> In n (map fst table).
Proof.
  induction table as [|[m r] table IH]; simpl; [discriminate|].
  destruct (test ic r l).
  - intros H. injection H as ->. left. reflexivity.
  - intros H. right. apply IH. assumption.
Qed.

Lemma classify_not_header l : classify l <> Some header.
Proof.
  intros H. apply firstMatch_name in H. simpl in H.
  repeat (destruct H as [H|H]; [discriminate H|]). exact H.
Qed.

(** ** Lines, joins and trimming *)

Lemma isSpace_nl : isSpace nl = true.
Proof. reflexivity. Qed.

Lemma splitOn_cons c t :
  splitOn nl (c :: t) =
  if eqc c nl then [] :: splitOn nl t
  else match splitOn nl t with
       | [] => [[c]]
       | l :: ls => (c :: l) :: ls
       end.
Proof. reflexivity. Qed.

Lemma splitOn_nonempty t : splitOn nl t <> [].
Proof.
  induction t as [|c t IH]; simpl; [discriminate|].
  destruct (eqc c nl); [discriminate|]. destruct (splitOn nl t); discriminate.
Qed.

Lemma splitOn_nlFree t : Forall nlFree (splitOn nl t).
Proof.
  induction t as [|c t IH]; simpl.
  - constructor; [intros []|constructor].
  - destruct (eqc c nl) eqn:E.
    + constructor; [intros []|assumption].
    + destruct (splitOn nl t) as [|l ls]; [constructor; [|constructor]|].
      * intros [H|[]]. subst c. rewrite eqc_refl in E. discriminate.
      * inversion IH; subst. constructor; [|assumption].
        intros [H|H]; [subst c; rewrite eqc_refl in E; discriminate|]. auto.
Qed.

Lemma join_cons2 sep a b (l : list str) :
  join sep (a :: b :: l) = a ++ sep ++ join sep (b :: l).
Proof. reflexivity. Qed.

Lemma join_split t : join [nl] (splitOn nl t) = t.
Proof.
  induction t as [|c t IH]; simpl; [reflexivity|].
  destruct (eqc c nl) eqn:E.
  - apply eqc_eq in E. subst c. pose proof (splitOn_nonempty t).
    destruct (splitOn nl t) as [|l ls]; [congruence|].
    rewrite join_cons2. simpl. f_equal. exact IH.
  - pose proof (splitOn_nonempty t).
    destruct (splitOn nl t) as [|l ls]; [congruence|].
    destruct ls as [|l2 ls].
    + simpl in *. congruence.
    + rewrite join_cons2 in *. simpl. f_equal. exact IH.
Qed.

Lemma splitOn_app a b :
  splitOn nl (a ++ nl :: b) = splitOn nl a ++ splitOn nl b.
Proof.
  induction a as [|c a IH]; simpl.
  - reflexivity.
  - destruct (eqc c nl); rewrite IH; [reflexivity|].
    pose proof (splitOn_nonempty a).
    destruct (splitOn nl a) as [|l ls]; [congruence|]. reflexivity.
Qed.

Lemma splitOn_line l : nlFree l -> splitOn nl l = [l].
Proof.
  induction l as [|c l IH]; intros H; simpl; [reflexivity|].
  destruct (eqc c nl) eqn:E.
  - apply eqc_eq in E. subst c. exfalso. apply H. left. reflexivity.
  - rewrite IH; [reflexivity|]. intros Hin. apply H. right. assumption.
Qed.

Lemma split_join ls :
  Forall nlFree ls -> ls <> [] -> splitOn nl (join [nl] ls) = ls.
Proof.
  induction 1 as [|l ls Hl Hls IH]; intros Hne; [congruence|].
  destruct ls as [|l2 ls].
  - simpl. apply splitOn_line. assumption.
  - rewrite join_cons2.
    change (l ++ [nl] ++ join [nl] (l2 :: ls)) with (l ++ nl :: join [nl] (l2 :: ls)).
    rewrite splitOn_app, IH by discriminate.
    rewrite splitOn_line by assumption. reflexivity.
Qed.

Lemma join_snoc_empty ls :
  ls <> [] -> join [nl] (ls ++ [[]]) = join [nl] ls ++ [nl].
Proof.
  induction ls as [|l ls IH]; intros Hne; [congruence|].
  destruct ls as [|l2 ls].
  - simpl. reflexivity.
  - change ((l :: l2 :: ls) ++ [[]]) with (l :: (l2 :: ls) ++ [[]]).
    change ((l2 :: ls) ++ [[]]) with (l2 :: ls ++ [[]]) at 1.
    rewrite !join_cons2.
    change (l2 :: ls ++ [[]]) with ((l2 :: ls) ++ [[]]).
    rewrite IH by discriminate. rewrite <- !app_assoc. reflexivity.
Qed.

Lemma dropWhile_split f t :
  exists w, t = w ++ dropWhile f t /\ forallb f w = true /\
            (dropWhile f t = [] \/ exists c t0, dropWhile f t = c :: t0 /\ f c = false).
Proof.
  induction t as [|c t (w & E & Hw & Hd)]; simpl.
  - exists []. auto.
  - destruct (f c) eqn:Hc.
    + exists (c :: w). simpl. rewrite Hc, Hw. split; [congruence|]. auto.
    + exists []. simpl. split; [reflexivity|]. split; [reflexivity|]. right. eauto.
Qed.

Lemma trimStart_split t :
  exists w, t = w ++ trimStart t /\ forallb isSpace w = true /\ startsSolid (trimStart t).
Proof. apply dropWhile_split. Qed.

Lemma trimEnd_split t :
  exists w, t = trimEnd t ++ w /\ forallb isSpace w = true /\ endsSolidStr (trimEnd t).
Proof.
  unfold trimEnd. destruct (dropWhile_split isSpace (rev t)) as (w & E & Hw & Hd).
  exists (rev w). split; [|split].
  - rewrite <- rev_app_distr, <- E, rev_involutive. reflexivity.
  - rewrite forallb_forall in *. intros x Hx. apply Hw. apply in_rev. assumption.
  - destruct Hd as [->|(c & t0 & -> & Hc)]; [left; reflexivity|].
    right. exists (rev t0), c. simpl. split; [reflexivity|assumption].
Qed.

Lemma trimStart_solid t : startsSolid t -> trimStart t = t.
Proof.
  intros [->|(c & t0 & -> & Hc)]; [reflexivity|].
  unfold trimStart. simpl. rewrite Hc. reflexivity.
Qed.

Lemma trimEnd_solid t : endsSolidStr t -> trimEnd t = t.
Proof.
  intros [->|(t0 & c & -> & Hc)]; [reflexivity|].
  unfold trimEnd. rewrite rev_app_distr. simpl. rewrite Hc. simpl.
  rewrite rev_involutive. reflexivity.
Qed.

Lemma trimEnd_spaces t w : forallb isSpace w = true -> trimEnd (t ++ w) = trimEnd t.
Proof.
  intros Hw. unfold trimEnd. rewrite rev_app_distr. f_equal.
  assert (Hr : forallb isSpace (rev w) = true).
  { rewrite forallb_forall in *. intros x Hx. apply Hw. apply in_rev. assumption. }
  induction (rev w) as [|c r IH]; [reflexivity|].
  simpl in *. apply andb_true_iff in Hr. destruct Hr as [Hc Hr].
  rewrite Hc. apply IH. assumption.
Qed.

Lemma trimEnd_keeps_start t : startsSolid t -> startsSolid (trimEnd t).
Proof.
  intros [->|(c & t0 & -> & Hc)]; [left; reflexivity|].
  destruct (trimEnd_split (c :: t0)) as (w & E & Hw & _).
  destruct (trimEnd (c :: t0)) as [|d u].
  - left. reflexivity.
  - right. simpl in E. injection E as <- _. eauto.
Qed.

Lemma trim_solid t : startsSolid (trim t) /\ endsSolidStr (trim t).
Proof.
  unfold trim. destruct (trimStart_split t) as (w & _ & _ & Hs).
  split; [apply trimEnd_keeps_start; assumption|].
  destruct (trimEnd_split (trimStart t)) as (w' & _ & _ & He). exact He.
Qed.

Lemma trim_fixed t : startsSolid t -> endsSolidStr t -> trim t = t.
Proof.
  intros Hs He. unfold trim. rewrite (trimStart_solid _ Hs). apply trimEnd_solid. exact He.
Qed.

Lemma trim_idem t : trim (trim t) = trim t.
Proof. destruct (trim_solid t). apply trim_fixed; assumption. Qed.

Lemma trim_snoc_nl c : trim c = c -> trim (c ++ [nl]) = c.
Proof.
  intros E. destruct (trim_solid c) as [Hs He]. rewrite E in Hs, He.
  unfold trim. destruct Hs as [->|(d & t0 & -> & Hd)].
  - reflexivity.
  - assert (Hst : trimStart ((d :: t0) ++ [nl]) = (d :: t0) ++ [nl]).
    { apply trimStart_solid. right. simpl. eauto. }
    rewrite Hst, trimEnd_spaces by reflexivity. apply trimEnd_solid. exact He.
Qed.

(** Lines of a text and of the same text without its trailing spaces. *)
Lemma lines_drop_tail u : forall w,
  forallb isSpace w = true ->
  exists init x w1 tail,
    splitOn nl u = init ++ [x] /\
    splitOn nl (u ++ w) = init ++ (x ++ w1) :: tail /\
    forallb isSpace w1 = true.
Proof.
  induction u as [|c u IH]; intros w Hw.
  - simpl app. pose proof (splitOn_nonempty w) as Hne.
    destruct (splitOn nl w) as [|w1 tail] eqn:E; [congruence|].
    exists [], [], w1, tail. repeat split.
    assert (Hin : forall l, In l (splitOn nl w) -> forallb isSpace l = true).
    { clear E Hne. induction w as [|d w IHw]; intros l Hl.
      - simpl in Hl. destruct Hl as [<-|[]]. reflexivity.
      - simpl in Hw. apply andb_true_iff in Hw. destruct Hw as [Hd Hw].
        simpl in Hl. destruct (eqc d nl).
        + destruct Hl as [<-|Hl]; [reflexivity|]. apply IHw; assumption.
        + destruct (splitOn nl w) as [|l0 ls] eqn:E0.
          * destruct Hl as [<-|[]]. simpl. rewrite Hd. reflexivity.
          * destruct Hl as [<-|Hl].
            -- simpl. rewrite Hd. apply IHw; [assumption|left; reflexivity].
            -- apply IHw; [assumption|right; assumption]. }
    apply Hin. rewrite E. left. reflexivity.
  - destruct (IH w Hw) as (init & x & w1 & tail & E1 & E2 & Hw1).
    simpl app. rewrite !splitOn_cons, E1, E2.
    destruct (eqc c nl).
    + exists ([] :: init), x, w1, tail. repeat split; assumption.
    + destruct init as [|i0 init]; simpl.
      * exists [], (c :: x), w1, tail. repeat split; assumption.
      * exists ((c :: i0) :: init), x, w1, tail. repeat split; assumption.
Qed.

(** Lines of a text and of the same text without its leading spaces. *)
Lemma lines_drop_head w : forall v,
  exists l rest initw wl,
    splitOn nl v = l :: rest /\
    splitOn nl (w ++ v) = initw ++ (wl ++ l) :: rest.
Proof.
  induction w as [|c w IH]; intros v.
  - pose proof (splitOn_nonempty v). destruct (splitOn nl v) as [|l rest] eqn:E; [congruence|].
    exists l, rest, [], []. split; [reflexivity|]. simpl. exact E.
  - destruct (IH v) as (l & rest & initw & wl & E1 & E2).
    exists l, rest. simpl app. rewrite splitOn_cons, E2.
    destruct (eqc c nl).
    + exists ([] :: initw), wl. split; [assumption|reflexivity].
    + destruct initw as [|i0 initw]; simpl.
      * exists [], (c :: wl). split; [assumption|reflexivity].
      * exists ((c :: i0) :: initw), wl. split; [assumption|reflexivity].
Qed.

End LinesFacts.

Module UniversalFacts.

Import RegexSpec WordPatternSpec FloatSpec MatcherSpec RankingSpec TailoringSpec LinesSpec UniversalSpec RegexFacts WordPatternFacts FloatFacts MatcherFacts RankingFacts TailoringFacts LinesFacts.
Import ListNotations Str Regex Num Sections.
Import TailorUniversal.
Local Open Scope list_scope.

Lemma save_saveBlock st :
  save st = saveBlock (stSections st, stOrder st) (currentSection st, currentContent st).
Proof. reflexivity. Qed.

Lemma saveAll_app a b acc : saveAll (a ++ b) acc = saveAll b (saveAll a acc).
Proof. apply fold_left_app. Qed.

Lemma eqName_eq a b : eqName a b = true <-> a = b.
Proof. destruct a, b; simpl; split; intros H; try reflexivity; discriminate. Qed.

Lemma eqName_refl a : eqName a a = true.
Proof. apply eqName_eq. reflexivity. Qed.

Lemma eqName_neq a b : eqName a b = false <-> a <> b.
Proof.
  split.
  - intros H E. apply eqName_eq in E. congruence.
  - intros H. destruct (eqName a b) eqn:E; [apply eqName_eq in E; congruence|reflexivity].
Qed.

Lemma parseStep_header st l n :
  classify l = Some n ->
  parseStep st l =
  let acc := saveAll (headerBlock (currentSection st) (currentContent st))
                     (stSections st, stOrder st) in
  mkState (fst acc) (snd acc) n [l].
Proof.
  unfold classify, parseStep. intros ->. unfold headerBlock.
  destruct (negb (isNil (currentContent st)) || negb (eqName (currentSection st) header));
    reflexivity.
Qed.

Lemma parseStep_plain st l :
  classify l = None ->
  parseStep st l =
  mkState (stSections st) (stOrder st) (currentSection st) (currentContent st ++ [l]).
Proof. unfold classify, parseStep. intros ->. reflexivity. Qed.

(** The state of the loop after the lines [ls]. *)
Lemma fold_parseStep ls : forall st,
  fold_left parseStep ls st =
  let '(pre, segs) := segmentsOf ls in
  match segs with
  | [] => mkState (stSections st) (stOrder st) (currentSection st)
                  (currentContent st ++ pre)
  | _ =>
      let saved := headerBlock (currentSection st) (currentContent st ++ pre)
                     ++ removelast segs in
      let acc := saveAll saved (stSections st, stOrder st) in
      mkState (fst acc) (snd acc) (fst (last segs (header, [])))
              (snd (last segs (header, [])))
  end.
Proof.
  induction ls as [|l rest IH]; intros st.
  - simpl. rewrite app_nil_r. destruct st; reflexivity.
  - cbn [fold_left segmentsOf]. rewrite IH. clear IH.
    destruct (segmentsOf rest) as [pre segs].
    destruct (classify l) as [n|] eqn:Ec.
    + assert (Hn : eqName n header = false).
      { apply eqName_neq. intros ->. exact (classify_not_header l Ec). }
      rewrite (parseStep_header st l n Ec). rewrite app_nil_r.
      cbn zeta. cbn [stSections stOrder currentSection currentContent].
      destruct segs as [|s1 segs].
      * cbn [removelast last fst snd app]. rewrite app_nil_r. reflexivity.
      * assert (Hb : headerBlock n ([l] ++ pre) = [(n, l :: pre)]).
        { unfold headerBlock. rewrite Hn. simpl. reflexivity. }
        rewrite Hb.
        change (removelast ((n, l :: pre) :: s1 :: segs))
          with ((n, l :: pre) :: removelast (s1 :: segs)).
        change (last ((n, l :: pre) :: s1 :: segs) (header, []))
          with (last (s1 :: segs) (header, [])).
        rewrite !saveAll_app.
        destruct (saveAll (headerBlock (currentSection st) (currentContent st))
                          (stSections st, stOrder st)) as [secs order].
        reflexivity.
    + rewrite (parseStep_plain st l Ec).
      cbn [stSections stOrder currentSection currentContent].
      rewrite <- app_assoc. reflexivity.
Qed.

(** [parseCV] saves, in order, the lines before the first header (when
    there are some) and then every segment. *)
Lemma parseCV_blocks text :
  text <> [] ->
  let '(pre, segs) := segmentsOf (splitOn nl text) in
  let blocks := headerBlock header pre ++ segs in
  let acc := saveAll blocks (noSections, []) in
  parseCV text = mkParsed (orEmpty (fst acc header)) (fst acc) (snd acc).
Proof.
  intros Hne. unfold parseCV. destruct text as [|c t]; [congruence|].
  rewrite fold_parseStep.
  pose proof (splitOn_nonempty (c :: t)) as Hl.
  destruct (splitOn nl (c :: t)) as [|l0 ls] eqn:El; [congruence|].
  assert (Hseg : forall ls0 pre segs, segmentsOf ls0 = (pre, segs) ->
                 ls0 <> [] -> pre <> [] \/ segs <> []).
  { intros ls0 pre segs E Hn. destruct ls0 as [|x xs]; [congruence|].
    simpl in E. destruct (segmentsOf xs) as [p sg]. destruct (classify x).
    - injection E as <- <-. right. discriminate.
    - injection E as <- <-. left. discriminate. }
  destruct (segmentsOf (l0 :: ls)) as [pre segs] eqn:Es.
  specialize (Hseg _ _ _ Es ltac:(discriminate)).
  cbn [stSections stOrder currentSection currentContent app].
  destruct segs as [|s1 segs].
  - destruct Hseg as [Hp|Hs]; [|congruence].
    cbn [currentContent isNil]. destruct pre as [|p0 pre]; [congruence|].
    cbn [isNil negb]. rewrite app_nil_r. unfold headerBlock. cbn [isNil negb orb].
    cbn [saveAll fold_left]. rewrite save_saveBlock. reflexivity.
  - cbn zeta.
    set (saved := headerBlock header pre ++ removelast (s1 :: segs)).
    set (lastSeg := last (s1 :: segs) (header, [])).
    assert (Hsplit : s1 :: segs = removelast (s1 :: segs) ++ [lastSeg]).
    { apply app_removelast_last. discriminate. }
    assert (Hlast : In lastSeg (s1 :: segs)).
    { rewrite Hsplit. apply in_or_app. right. left. reflexivity. }
    assert (Hcont : forall ls0 pre0 segs0, segmentsOf ls0 = (pre0, segs0) ->
              forall blk, In blk segs0 -> snd blk <> []).
    { induction ls0 as [|x xs IHx]; intros pre0 segs0 E blk Hin.
      - simpl in E. injection E as <- <-. destruct Hin.
      - simpl in E. destruct (segmentsOf xs) as [p sg] eqn:Ex. destruct (classify x).
        + injection E as <- <-. destruct Hin as [<-|Hin]; [discriminate|].
          apply (IHx _ _ eq_refl _ Hin).
        + injection E as <- <-. apply (IHx _ _ eq_refl _ Hin). }
    specialize (Hcont _ _ _ Es _ Hlast).
    cbn [currentContent]. destruct (snd lastSeg) as [|x xs] eqn:Esnd; [congruence|].
    cbn [isNil negb]. rewrite save_saveBlock.
    cbn [stSections stOrder currentSection currentContent].
    rewrite <- Esnd.
    replace (headerBlock header pre ++ s1 :: segs) with (saved ++ [lastSeg]).
    + rewrite saveAll_app. cbn [saveAll fold_left].
      destruct (saveAll saved (noSections, [])) as [secs order].
      destruct lastSeg as [n body]. reflexivity.
    + subst saved. rewrite <- app_assoc, <- Hsplit. reflexivity.
Qed.

Lemma segmentsOf_spec ls :
  let '(pre, segs) := segmentsOf ls in
  Forall plainLine pre /\ Forall goodSeg segs /\
  pre ++ List.concat (map snd segs) = ls.
Proof.
  induction ls as [|l rest IH]; simpl.
  - repeat split; constructor.
  - destruct (segmentsOf rest) as [pre segs]. destruct IH as (Hp & Hs & E).
    destruct (classify l) as [n|] eqn:Ec.
    + split; [constructor|]. split.
      * constructor; [|assumption]. exists l, pre. auto.
      * simpl. rewrite E. reflexivity.
    + split; [constructor; assumption|]. split; [assumption|].
      simpl. rewrite E. reflexivity.
Qed.

Lemma segmentsOf_plain pre : Forall plainLine pre -> segmentsOf pre = (pre, []).
Proof.
  induction 1 as [|l pre Hl _ IH]; simpl; [reflexivity|].
  rewrite IH, Hl. reflexivity.
Qed.

Lemma segmentsOf_flatten pre segs :
  Forall plainLine pre -> Forall goodSeg segs ->
  segmentsOf (pre ++ List.concat (map snd segs)) = (pre, segs).
Proof.
  intros Hp Hs.
  assert (H0 : segmentsOf (List.concat (map snd segs)) = ([], segs)).
  { induction Hs as [|[n body] segs (hdr & rest & Eb & Ec & Hr) _ IH]; [reflexivity|].
    simpl in Eb, Ec. subst body. simpl.
    assert (Hx : forall r, Forall plainLine r ->
              segmentsOf (r ++ List.concat (map snd segs)) = (r, segs)).
    { induction 1 as [|x r Hxr _ IHr]; simpl; [exact IH|].
      rewrite IHr, Hxr. reflexivity. }
    rewrite (Hx rest Hr), Ec. reflexivity. }
  induction Hp as [|l pre Hl _ IH]; simpl; [exact H0|].
  rewrite IH, Hl. reflexivity.
Qed.

Lemma saveAll_sections blocks n : forall acc,
  fst (saveAll blocks acc) n =
  match lookupLast n blocks with
  | Some body => Some (trim (join [nl] body))
  | None => fst acc n
  end.
Proof.
  induction blocks as [|blk rest IH]; intros acc; simpl; [reflexivity|].
  unfold saveAll in IH. rewrite IH.
  destruct (lookupLast n rest); [reflexivity|].
  unfold saveBlock, upd. cbn [fst]. destruct (eqName n (fst blk)); reflexivity.
Qed.

Lemma saveAll_order blocks : forall acc,
  snd (saveAll blocks acc) = fold_left addName (map fst blocks) (snd acc).
Proof.
  induction blocks as [|blk rest IH]; intros acc; simpl; [reflexivity|].
  unfold saveAll in IH. rewrite IH. reflexivity.
Qed.

Lemma memName_In n l : memName n l = true <-> In n l.
Proof.
  unfold memName. rewrite existsb_exists. split.
  - intros (x & Hx & E). apply eqName_eq in E. subst. assumption.
  - intros H. exists n. split; [assumption|apply eqName_refl].
Qed.

Lemma addNames_In names : forall o n,
  In n (fold_left addName names o) <-> In n o \/ (In n names /\ n <> header).
Proof.
  induction names as [|m names IH]; intros o n; simpl.
  - tauto.
  - rewrite IH. unfold addName.
    destruct (eqName m header) eqn:Eh; simpl.
    + apply eqName_eq in Eh. subst m. split; [|intros [H|[[H|H] Hn]]; auto; congruence].
      intros [H|[H Hn]]; auto.
    + apply eqName_neq in Eh. destruct (memName m o) eqn:Em; simpl.
      * apply memName_In in Em. split; [intros [H|[H Hn]]; auto|].
        intros [H|[[H|H] Hn]]; auto. subst. auto.
      * rewrite in_app_iff. simpl. split.
        -- intros [[H|[H|[]]]|[H Hn]]; auto. subst. auto.
        -- intros [H|[[H|H] Hn]]; auto.
Qed.

Lemma addNames_NoDup names : forall o, NoDup o -> NoDup (fold_left addName names o).
Proof.
  induction names as [|m names IH]; intros o Ho; simpl; [assumption|].
  apply IH. unfold addName.
  destruct (negb (eqName m header) && negb (memName m o)) eqn:E; [|assumption].
  apply andb_true_iff in E. destruct E as [_ E]. apply negb_true_iff in E.
  apply Permutation_NoDup with (l := m :: o); [apply Permutation_cons_append|].
  constructor; [|assumption]. intros H. apply memName_In in H. congruence.
Qed.

Lemma addNames_fresh names : forall o,
  NoDup (o ++ names) -> ~ In header names ->
  fold_left addName names o = o ++ names.
Proof.
  induction names as [|m names IH]; intros o Hnd Hh; simpl; [rewrite app_nil_r; reflexivity|].
  assert (Hm : m <> header) by (intros ->; apply Hh; left; reflexivity).
  assert (Ho : ~ In m o).
  { intros H. apply (NoDup_app_disjoint _ _ Hnd m H). left. reflexivity. }
  unfold addName at 2. apply eqName_neq in Hm. rewrite Hm.
  destruct (memName m o) eqn:Em; [apply memName_In in Em; contradiction|].
  simpl. rewrite IH.
  - rewrite <- app_assoc. reflexivity.
  - rewrite <- app_assoc. exact Hnd.
  - intros H. apply Hh. right. exact H.
Qed.

Lemma lookupLast_In n blocks body :
  lookupLast n blocks = Some body -> In (n, body) blocks.
Proof.
  induction blocks as [|[m b] rest IH]; simpl; [discriminate|].
  destruct (lookupLast n rest) as [b'|].
  - intros H. right. apply IH. assumption.
  - cbn [fst snd]. destruct (eqName n m) eqn:E; [|discriminate].
    apply eqName_eq in E. subst. intros H. injection H as ->. left. reflexivity.
Qed.

Lemma lookupLast_None n blocks :
  lookupLast n blocks = None <-> ~ In n (map fst blocks).
Proof.
  induction blocks as [|[m b] rest IH]; simpl; [tauto|].
  destruct (lookupLast n rest) as [b'|] eqn:El.
  - split; [discriminate|]. intros H. exfalso. apply H. right.
    apply in_map_iff. exists (n, b'). split; [reflexivity|].
    apply lookupLast_In. assumption.
  - cbn [fst snd]. destruct (eqName n m) eqn:E.
    + apply eqName_eq in E. subst. split; [discriminate|]. intros H. exfalso. apply H. auto.
    + apply eqName_neq in E. split; [|reflexivity]. intros _ [H|H]; [congruence|].
      apply IH in H; [assumption|reflexivity].
Qed.

Lemma lookupLast_unique n body blocks :
  NoDup (map fst blocks) -> In (n, body) blocks -> lookupLast n blocks = Some body.
Proof.
  induction blocks as [|[m b] rest IH]; intros Hnd Hin; [destruct Hin|].
  simpl in Hnd. inversion Hnd as [|? ? Hm Hr]; subst. simpl.
  destruct Hin as [E|Hin].
  - injection E as -> ->.
    assert (Hl : lookupLast n rest = None) by (apply lookupLast_None; assumption).
    rewrite Hl. cbn [fst snd]. rewrite eqName_refl. reflexivity.
  - rewrite (IH Hr Hin). reflexivity.
Qed.

Lemma plainLine_ext x w :
  nlFree (x ++ w) -> forallb isSpace w = true -> plainLine (x ++ w) -> plainLine x.
Proof. unfold plainLine. intros Hn Hw H. rewrite <- (classify_ext x w Hn Hw). exact H. Qed.

(** The stored text of a segment: not empty, already trimmed, and its lines
    again form a segment of the same section. *)
Lemma block_content n body :
  goodSeg (n, body) -> Forall nlFree body ->
  let c := trim (join [nl] body) in
  c <> [] /\ trim c = c /\ goodSeg (n, splitOn nl c).
Proof.
  intros (hdr & rest & Eb & Ec & Hr) Hnl c. cbn [fst snd] in *. subst body.
  inversion Hnl as [|? ? Hh Hrest]; subst.
  destruct (classify_solid hdr n Hh Ec) as (d & h0 & -> & Hd).
  set (J := join [nl] ((d :: h0) :: rest)) in *.
  assert (HJ : exists j0, J = d :: j0).
  { subst J. destruct rest; [exists h0; reflexivity|].
    rewrite join_cons2. simpl. eauto. }
  destruct HJ as (j0 & EJ).
  assert (Hts : trimStart J = J).
  { apply trimStart_solid. right. eauto. }
  assert (Ec' : c = trimEnd J).
  { change c with (trimEnd (trimStart J)). rewrite Hts. reflexivity. }
  destruct (trimEnd_split J) as (w & EJw & Hw & _).
  rewrite <- Ec' in EJw.
  assert (Hlines : splitOn nl J = (d :: h0) :: rest).
  { subst J. apply split_join; [assumption|discriminate]. }
  split; [|split].
  - intros E0. rewrite E0 in EJw. simpl in EJw. rewrite EJ in EJw. subst w.
    simpl in Hw. rewrite Hd in Hw. discriminate.
  - subst c. apply trim_idem.
  - destruct (lines_drop_tail c w Hw) as (init & x & w1 & tail & E1 & E2 & Hw1).
    rewrite <- EJw, Hlines in E2.
    destruct init as [|i0 init].
    + simpl in E1, E2. injection E2 as E2 _.
      exists x, []. cbn [fst snd]. split; [exact E1|]. split; [|constructor].
      rewrite <- (classify_ext x w1); [rewrite <- E2; exact Ec| |exact Hw1].
      rewrite <- E2. exact Hh.
    + simpl in E1, E2. injection E2 as E2 E3. subst i0.
      exists (d :: h0), (init ++ [x]). cbn [fst snd]. split; [exact E1|].
      split; [exact Ec|].
      rewrite E3 in Hr, Hrest.
      apply Forall_app in Hr. destruct Hr as [Hi Hx].
      apply Forall_app in Hrest. destruct Hrest as [_ Hnx].
      inversion Hx; subst. inversion Hnx; subst.
      apply Forall_app. split; [assumption|]. constructor; [|constructor].
      apply (plainLine_ext x w1); assumption.
Qed.

(** The stored header text: already trimmed, and only its first line can
    be a header line. *)
Lemma header_content pre :
  Forall plainLine pre -> Forall nlFree pre ->
  let H := trim (join [nl] pre) in
  trim H = H /\
  exists h1 rest, splitOn nl H = h1 :: rest /\ Forall plainLine rest.
Proof.
  intros Hp Hnl H. split; [subst H; apply trim_idem|].
  destruct pre as [|p0 pre'].
  { subst H. exists [], []. split; [reflexivity|constructor]. }
  set (pre := p0 :: pre') in *.
  assert (Hlines : splitOn nl (join [nl] pre) = pre).
  { apply split_join; [assumption|discriminate]. }
  destruct (trimStart_split (join [nl] pre)) as (w & Ew & _ & _).
  destruct (lines_drop_head w (trimStart (join [nl] pre)))
    as (l & rest0 & initw & wl & E1 & E2).
  rewrite <- Ew, Hlines in E2.
  assert (Hrest0 : Forall plainLine rest0 /\ Forall nlFree rest0).
  { rewrite E2 in Hp, Hnl. apply Forall_app in Hp, Hnl.
    destruct Hp as [_ Hp]. destruct Hnl as [_ Hnl].
    inversion Hp; subst. inversion Hnl; subst. split; assumption. }
  destruct Hrest0 as [Hpr Hnr].
  destruct (trimEnd_split (trimStart (join [nl] pre))) as (w2 & Ew2 & Hw2 & _).
  fold (trim (join [nl] pre)) in Ew2. fold H in Ew2.
  destruct (lines_drop_tail H w2 Hw2) as (init & x & w1 & tail & E3 & E4 & Hw1).
  rewrite <- Ew2, E1 in E4.
  destruct init as [|i0 init].
  - exists x, []. split; [exact E3|constructor].
  - simpl in E4. injection E4 as E4 E5. subst i0.
    exists l, (init ++ [x]). split; [exact E3|].
    rewrite E5 in Hpr, Hnr.
    apply Forall_app in Hpr. destruct Hpr as [Hi Hx].
    apply Forall_app in Hnr. destruct Hnr as [_ Hnx].
    inversion Hx; subst. inversion Hnx; subst.
    apply Forall_app. split; [assumption|]. constructor; [|constructor].
    apply (plainLine_ext x w1); assumption.
Qed.

Lemma goodSeg_name blk : goodSeg blk -> fst blk <> header.
Proof.
  intros (hdr & rest & _ & Ec & _) E. rewrite E in Ec.
  exact (classify_not_header hdr Ec).
Qed.

Lemma segs_no_header segs : Forall goodSeg segs -> ~ In header (map fst segs).
Proof.
  intros Hs H. apply in_map_iff in H. destruct H as (blk & E & Hin).
  rewrite Forall_forall in Hs. apply (goodSeg_name blk (Hs blk Hin)). exact E.
Qed.

Lemma headerBlock_header pre :
  headerBlock header pre = match pre with [] => [] | _ => [(header, pre)] end.
Proof. destruct pre; reflexivity. Qed.

(** The parts of a parse result in terms of the segments of the text. *)
Lemma parseCV_segments text :
  text <> [] ->
  let '(pre, segs) := segmentsOf (splitOn nl text) in
  let p := parseCV text in
  parsedHeader p = trim (join [nl] pre) /\
  sectionOrder p = fold_left addName (map fst segs) [] /\
  (forall n, n <> header ->
     sections p n = option_map (fun b => trim (join [nl] b)) (lookupLast n segs)).
Proof.
  intros Hne. pose proof (parseCV_blocks text Hne) as Hb.
  pose proof (segmentsOf_spec (splitOn nl text)) as Hs.
  destruct (segmentsOf (splitOn nl text)) as [pre segs].
  destruct Hs as (Hp & Hg & _). cbn zeta in Hb. rewrite Hb. clear Hb.
  cbn [parsedHeader sectionOrder sections].
  pose proof (segs_no_header segs Hg) as Hnh.
  assert (Hlh : lookupLast header segs = None) by (apply lookupLast_None; assumption).
  rewrite headerBlock_header. split; [|split].
  - rewrite saveAll_sections. destruct pre as [|p0 pre]; simpl app.
    + rewrite Hlh. reflexivity.
    + simpl lookupLast. rewrite Hlh. reflexivity.
  - rewrite saveAll_order. destruct pre as [|p0 pre]; reflexivity.
  - intros n Hn. rewrite saveAll_sections. destruct pre as [|p0 pre]; simpl app.
    + destruct (lookupLast n segs); reflexivity.
    + simpl lookupLast. destruct (lookupLast n segs); [reflexivity|].
      apply eqName_neq in Hn. cbn [fst]. rewrite Hn. reflexivity.
Qed.

Lemma Forall_concat_bodies (P : str -> Prop) pre (segs : list Block) ls :
  pre ++ List.concat (map snd segs) = ls -> Forall P ls ->
  Forall P pre /\ forall blk, In blk segs -> Forall P (snd blk).
Proof.
  intros <- H. apply Forall_app in H. destruct H as [Hp Hc]. split; [assumption|].
  intros blk Hin. rewrite Forall_forall in *. intros x Hx. apply Hc.
  apply in_concat. exists (snd blk). split; [apply in_map; assumption|assumption].
Qed.

Lemma parse_wellformed text : WellFormed (parseCV text).
Proof.
  destruct text as [|c0 t0].
  { unfold WellFormed. simpl. repeat split; try constructor; try tauto.
    exists [], []. split; [reflexivity|constructor]. }
  set (text := c0 :: t0).
  pose proof (parseCV_segments text ltac:(discriminate)) as Hseg.
  pose proof (segmentsOf_spec (splitOn nl text)) as Hs.
  destruct (segmentsOf (splitOn nl text)) as [pre segs].
  destruct Hs as (Hp & Hg & Econc). cbn zeta in Hseg.
  destruct Hseg as (EH & EO & ES).
  destruct (Forall_concat_bodies nlFree pre segs _ Econc (splitOn_nlFree text))
    as [Hnp Hnb].
  unfold WellFormed. rewrite EH, EO.
  split; [apply addNames_NoDup; constructor|].
  split; [intros H; apply addNames_In in H; destruct H as [[]|[_ H]]; congruence|].
  split; [|split; [|apply header_content; assumption]].
  - intros n Hn. apply addNames_In in Hn. destruct Hn as [[]|[Hin Hnh]].
    rewrite (ES n Hnh).
    destruct (lookupLast n segs) as [body|] eqn:El.
    + apply lookupLast_In in El.
      rewrite Forall_forall in Hg.
      destruct (block_content n body (Hg _ El) (Hnb _ El)) as (H1 & H2 & H3).
      eexists. split; [reflexivity|]. auto.
    + apply lookupLast_None in El. contradiction.
  - intros n Hnh Hn. rewrite (ES n Hnh).
    assert (Hx : ~ In n (map fst segs)).
    { intros H. apply Hn. apply addNames_In. right. auto. }
    apply lookupLast_None in Hx. rewrite Hx. reflexivity.
Qed.

Lemma reconstruct_fold p order parts :
  (forall n, In n order -> truthy (sections p n) = true) ->
  fold_left (fun parts sectionName =>
               let content := orElse (sections p sectionName)
                                     (sections p sectionName) in
               if truthy content then parts ++ [orEmpty content] else parts)
            order parts
  = parts ++ map (fun n => orEmpty (sections p n)) order.
Proof.
  revert parts. induction order as [|n order IH]; intros parts Ht; simpl.
  - rewrite app_nil_r. reflexivity.
  - assert (Hn : truthy (sections p n) = true) by (apply Ht; left; reflexivity).
    assert (E : orElse (sections p n) (sections p n) = sections p n)
      by (unfold orElse; rewrite Hn; reflexivity).
    rewrite E, Hn.
    rewrite IH by (intros m Hm; apply Ht; right; assumption).
    rewrite <- app_assoc. reflexivity.
Qed.

Lemma reconstruct_parts p :
  (forall n, In n (sectionOrder p) -> truthy (sections p n) = true) ->
  reconstructCV p (sections p) =
  join [nl; nl] (headerPart (parsedHeader p)
                   ++ map (fun n => orEmpty (sections p n)) (sectionOrder p)).
Proof.
  intros Ht. unfold reconstructCV.
  assert (Hs : truthy (sections p skills) && negb (truthy (sections p skills)) = false)
    by (destruct (truthy (sections p skills)); reflexivity).
  rewrite Hs. cbv zeta. rewrite (reconstruct_fold p _ _ Ht).
  unfold headerPart. destruct (parsedHeader p); reflexivity.
Qed.

Lemma split_join2 parts :
  parts <> [] -> splitOn nl (join [nl; nl] parts) = blocksLines parts.
Proof.
  induction parts as [|p ps IH]; intros Hne; [congruence|].
  destruct ps as [|q ps]; [reflexivity|].
  rewrite join_cons2.
  change (p ++ [nl; nl] ++ join [nl; nl] (q :: ps))
    with (p ++ nl :: (nl :: join [nl; nl] (q :: ps))).
  rewrite splitOn_app.
  change (nl :: join [nl; nl] (q :: ps)) with ([] ++ nl :: join [nl; nl] (q :: ps)).
  rewrite splitOn_app, IH by discriminate. reflexivity.
Qed.

Lemma segsFor_names c order : map fst (segsFor c order) = order.
Proof.
  induction order as [|n [|m rest] IH]; try reflexivity.
  change (segsFor c (n :: m :: rest))
    with ((n, splitOn nl (c n) ++ [[]]) :: segsFor c (m :: rest)).
  change (map fst ((n, splitOn nl (c n) ++ [[]]) :: segsFor c (m :: rest)))
    with (n :: map fst (segsFor c (m :: rest))).
  rewrite IH. reflexivity.
Qed.

Lemma segsFor_lines c order :
  blocksLines (map c order) = List.concat (map snd (segsFor c order)).
Proof.
  induction order as [|n [|m rest] IH]; try reflexivity.
  - simpl. rewrite app_nil_r. reflexivity.
  - change (segsFor c (n :: m :: rest))
      with ((n, splitOn nl (c n) ++ [[]]) :: segsFor c (m :: rest)).
    change (map c (n :: m :: rest)) with (c n :: map c (m :: rest)).
    change (blocksLines (c n :: map c (m :: rest)))
      with (splitOn nl (c n) ++ [[]] ++ blocksLines (map c (m :: rest))).
    rewrite IH. simpl. rewrite <- app_assoc. reflexivity.
Qed.

Lemma segsFor_In c order n body :
  In (n, body) (segsFor c order) ->
  In n order /\ (body = splitOn nl (c n) \/ body = splitOn nl (c n) ++ [[]]).
Proof.
  induction order as [|m [|m2 rest] IH]; intros H.
  - destruct H.
  - destruct H as [H|[]]. injection H as -> ->. split; [left; reflexivity|auto].
  - change (segsFor c (m :: m2 :: rest))
      with ((m, splitOn nl (c m) ++ [[]]) :: segsFor c (m2 :: rest)) in H.
    destruct H as [H|H].
    + injection H as -> ->. split; [left; reflexivity|auto].
    + destruct (IH H) as [H1 H2]. split; [right; assumption|assumption].
Qed.

Lemma goodSeg_snoc n body : goodSeg (n, body) -> goodSeg (n, body ++ [[]]).
Proof.
  intros (hdr & rest & E & Ec & Hr). cbn [fst snd] in *. subst body.
  exists hdr, (rest ++ [[]]). cbn [fst snd]. split; [reflexivity|]. split; [assumption|].
  apply Forall_app. split; [assumption|]. constructor; [apply classify_nil|constructor].
Qed.

Lemma trim_join_lines c :
  trim c = c ->
  trim (join [nl] (splitOn nl c)) = c /\
  trim (join [nl] (splitOn nl c ++ [[]])) = c.
Proof.
  intros E. split.
  - rewrite join_split. exact E.
  - rewrite join_snoc_empty by apply splitOn_nonempty.
    rewrite join_split. apply trim_snoc_nl. exact E.
Qed.

Lemma join2_nonempty parts :
  parts <> [] -> Forall (fun p => p <> []) parts -> join [nl; nl] parts <> [].
Proof.
  intros Hne Hp. destruct parts as [|p ps]; [congruence|].
  inversion Hp; subst. destruct ps as [|q ps].
  - simpl. assumption.
  - rewrite join_cons2. destruct p; [congruence|discriminate].
Qed.

(** Parsing the reconstruction of a well-formed result whose header text
    does not begin with a header line gives the same result back. *)
Lemma reparse p :
  WellFormed p ->
  plainLine (hd [] (splitOn nl (parsedHeader p))) ->
  let p2 := parseCV (reconstructCV p (sections p)) in
  sectionOrder p2 = sectionOrder p /\
  parsedHeader p2 = parsedHeader p /\
  (forall n, n <> header -> sections p2 n = sections p n).
Proof.
  intros (Hnd & Hnh & Hsec & Hnone & Htrim & (h1 & hrest & Eh & Hhrest)) Hh1 p2.
  rewrite Eh in Hh1. cbn [hd] in Hh1.
  set (H := parsedHeader p) in *. set (order := sectionOrder p) in *.
  set (c := fun n => orEmpty (sections p n)).
  assert (Hc : forall n, In n order ->
             sections p n = Some (c n) /\ c n <> [] /\ trim (c n) = c n /\
             goodSeg (n, splitOn nl (c n))).
  { intros n Hn. destruct (Hsec n Hn) as (x & E & H1 & H2 & H3).
    unfold c. rewrite E. cbn [orEmpty]. auto. }
  assert (Htruthy : forall n, In n order -> truthy (sections p n) = true).
  { intros n Hn. destruct (Hc n Hn) as (E & Hne & _). rewrite E.
    destruct (c n); [congruence|reflexivity]. }
  assert (ER : reconstructCV p (sections p) = join [nl; nl] (headerPart H ++ map c order)).
  { apply reconstruct_parts. exact Htruthy. }
  subst p2. rewrite ER. clear ER.
  destruct (headerPart H ++ map c order) as [|q0 qs] eqn:Eparts.
  { (* nothing to reconstruct *)
    apply app_eq_nil in Eparts. destruct Eparts as [E1 E2].
    assert (EH : H = []) by (destruct H; [reflexivity|discriminate]).
    assert (EO : order = []) by (destruct order; [reflexivity|discriminate]).
    simpl. rewrite EH, EO. repeat split.
    intros n Hn. symmetry. apply Hnone; [assumption|]. fold order. rewrite EO. intros []. }
  rewrite <- Eparts.
  set (R := join [nl; nl] (headerPart H ++ map c order)).
  assert (HR : R <> []).
  { apply join2_nonempty; [rewrite Eparts; discriminate|].
    apply Forall_app. split.
    - unfold headerPart. destruct H; constructor; [discriminate|constructor].
    - rewrite Forall_forall. intros x Hx. apply in_map_iff in Hx.
      destruct Hx as (n & <- & Hn). apply (Hc n Hn). }
  set (pre2 := match H with
               | [] => []
               | _ => splitOn nl H ++ match order with [] => [] | _ => [[]] end
               end).
  assert (Elines : splitOn nl R = pre2 ++ List.concat (map snd (segsFor c order))).
  { subst R. rewrite split_join2 by (rewrite Eparts; discriminate).
    rewrite <- segsFor_lines. subst pre2. unfold headerPart.
    destruct H as [|hc ht]; [reflexivity|].
    destruct order as [|n order'];
      [cbn [map app blocksLines List.concat segsFor]; rewrite !app_nil_r; reflexivity|].
    change (map c (n :: order')) with (c n :: map c order').
    simpl app at 1.
    change (blocksLines ((hc :: ht) :: c n :: map c order'))
      with (splitOn nl (hc :: ht) ++ [[]] ++ blocksLines (c n :: map c order')).
    rewrite <- app_assoc. reflexivity. }
  assert (Hpre2 : Forall plainLine pre2).
  { subst pre2. destruct H as [|hc ht]; [constructor|].
    apply Forall_app. split.
    - rewrite Eh. constructor; assumption.
    - destruct order; constructor; [apply classify_nil|constructor]. }
  assert (Hsegs2 : Forall goodSeg (segsFor c order)).
  { rewrite Forall_forall. intros [n body] Hin.
    destruct (segsFor_In c order n body Hin) as [Hn [->| ->]].
    - apply (Hc n Hn).
    - apply goodSeg_snoc. apply (Hc n Hn). }
  pose proof (parseCV_segments R HR) as Hseg.
  rewrite Elines, (segmentsOf_flatten pre2 _ Hpre2 Hsegs2) in Hseg.
  cbn zeta in Hseg. destruct Hseg as (EH2 & EO2 & ES2).
  rewrite segsFor_names in EO2.
  assert (Hnames : NoDup (map fst (segsFor c order))) by (rewrite segsFor_names; exact Hnd).
  split; [|split].
  - rewrite EO2. apply (addNames_fresh order []); assumption.
  - rewrite EH2. subst pre2. destruct H as [|hc ht] eqn:EHH; [reflexivity|].
    destruct order.
    + rewrite app_nil_r. apply trim_join_lines. exact Htrim.
    + apply trim_join_lines. exact Htrim.
  - intros n Hn. rewrite (ES2 n Hn).
    destruct (in_dec (fun a b : SectionName => ltac:(decide equality)) n order) as [Hin|Hin].
    + destruct (Hc n Hin) as (E & _ & Ht & _). rewrite E.
      assert (Hb : exists body, In (n, body) (segsFor c order)).
      { assert (Hx : In n (map fst (segsFor c order))) by (rewrite segsFor_names; exact Hin).
        apply in_map_iff in Hx. destruct Hx as ([m body] & Em & Hx).
        simpl in Em. subst m. eauto. }
      destruct Hb as (body & Hb).
      rewrite (lookupLast_unique n body _ Hnames Hb). cbn [option_map]. f_equal.
      destruct (segsFor_In c order n body Hb) as [_ [->| ->]];
        apply trim_join_lines; exact Ht.
    + assert (Hx : ~ In n (map fst (segsFor c order))) by (rewrite segsFor_names; exact Hin).
      apply lookupLast_None in Hx. rewrite Hx. cbn [option_map].
      symmetry. apply Hnone; assumption.
Qed.

(** C4: when the header text of the first parse does not
    begin with a line that a section pattern accepts, parsing the
    reconstruction (no section modified) gives the same [sectionOrder], the
    same header and the same content for every section. *)
Theorem parse_reconstruct_stable text :
  let p1 := parseCV text in
  let p2 := parseCV (reconstructCV p1 (sections p1)) in
  firstMatch true SECTION_PATTERNS (hd [] (splitOn nl (parsedHeader p1))) = None ->
  sectionOrder p2 = sectionOrder p1 /\
  parsedHeader p2 = parsedHeader p1 /\
  (forall n, n <> header -> sections p2 n = sections p1 n).
Proof.
  intros p1 p2 Hh. apply reparse; [apply parse_wellformed|exact Hh].
Qed.

End UniversalFacts.

Module ParsersFacts.

Import RegexSpec WordPatternSpec FloatSpec MatcherSpec RankingSpec TailoringSpec LinesSpec UniversalSpec ParsersSpec RegexFacts WordPatternFacts FloatFacts MatcherFacts RankingFacts TailoringFacts LinesFacts UniversalFacts.
Import ListNotations Str Regex Num Sections.
Local Open Scope list_scope.

Lemma parse_reconstruct_stable_witness :
  let p1 := TailorUniversal.parseCV janeCV in
  let p2 := TailorUniversal.parseCV
              (TailorUniversal.reconstructCV p1 (TailorUniversal.sections p1)) in
  firstMatch true TailorUniversal.SECTION_PATTERNS
             (hd [] (splitOn nl (TailorUniversal.parsedHeader p1))) = None /\
  TailorUniversal.sectionOrder p2 = TailorUniversal.sectionOrder p1 /\
  TailorUniversal.parsedHeader p2 = TailorUniversal.parsedHeader p1 /\
  (forall n, n <> header ->
     TailorUniversal.sections p2 n = TailorUniversal.sections p1 n).
Proof.
  split; [vm_compute; reflexivity|].
  apply (parse_reconstruct_stable janeCV). vm_compute. reflexivity.
Defined.

Lemma parse_reconstruct_counterexample :
  let p1 := TailorUniversal.parseCV (s " Summary") in
  let p2 := TailorUniversal.parseCV
              (TailorUniversal.reconstructCV p1 (TailorUniversal.sections p1)) in
  TailorUniversal.sectionOrder p1 = [] /\
  TailorUniversal.sectionOrder p2 = [summary] /\
  TailorUniversal.sectionOrder p2 <> TailorUniversal.sectionOrder p1.
Proof.
  vm_compute. repeat split; discriminate.
Qed.

Lemma concat_upd_out (secs : CVTailor.Parsed) n v names :
  ~ In n names -> map (upd secs n v) names = map secs names.
Proof.
  intros Hn. apply map_ext_in. intros k Hk. unfold upd.
  destruct (eqName k n) eqn:E; [|reflexivity].
  apply eqName_eq in E. subst k. contradiction.
Qed.

Lemma concat_upd_in (secs : CVTailor.Parsed) n l names :
  NoDup names -> In n names ->
  Permutation (List.concat (map (upd secs n (secs n ++ [l])) names))
              (l :: List.concat (map secs names)).
Proof.
  induction names as [|k names IH]; intros Hnd Hin; [destruct Hin|].
  inversion Hnd as [|? ? Hk Hnd']; subst.
  cbn [map List.concat]. destruct Hin as [->|Hin].
  - rewrite concat_upd_out by assumption.
    unfold upd at 1. rewrite eqName_refl.
    rewrite <- app_assoc. cbn [app].
    apply Permutation_sym, Permutation_middle.
  - unfold upd at 1. destruct (eqName k n) eqn:E.
    + apply eqName_eq in E. subst k. contradiction.
    + etransitivity; [apply Permutation_app_head, IH; assumption|].
      apply Permutation_sym, Permutation_middle.
Qed.

Lemma cv_classify_names l n :
  firstMatch true CVTailor.SECTION_PATTERNS l = Some n ->
  In n allNames /\ n <> header.
Proof.
  intros H. apply firstMatch_name in H. simpl in H.
  repeat (destruct H as [H|H]; [subst n; split; [simpl; tauto|discriminate]|]).
  destruct H.
Qed.

Lemma headedBy_snoc n ls l :
  headedBy n ls -> (ls = [] -> headedBy n [l]) -> headedBy n (ls ++ [l]).
Proof. destruct ls; simpl; auto. Qed.

Lemma cv_parseStep_inv seen st l :
  cvInv seen st -> cvInv (seen ++ [l]) (CVTailor.parseStep st l).
Proof.
  destruct st as [cur secs]. intros (Hc & Hp & Hh & Hne). cbn [fst snd] in *.
  unfold CVTailor.parseStep.
  destruct (firstMatch true CVTailor.SECTION_PATTERNS (trim l)) as [n|] eqn:E.
  - destruct (cv_classify_names _ _ E) as [Hn Hnh]. cbn [fst snd].
    split; [assumption|]. split; [|split].
    + unfold allLines. etransitivity.
      * apply concat_upd_in; [|assumption].
        unfold allNames. repeat constructor; simpl; intuition discriminate.
      * rewrite Hp. apply Permutation_cons_append.
    + intros k Hk. cbn [snd]. unfold upd. destruct (eqName k n) eqn:Ek; [|apply Hh; assumption].
      apply eqName_eq in Ek. subst k. apply headedBy_snoc; [apply Hh; assumption|].
      intros _. exact E.
    + intros _. cbn [fst snd]. unfold upd. rewrite eqName_refl. destruct (secs n); discriminate.
  - cbn [fst snd]. split; [assumption|]. split; [|split].
    + unfold allLines. etransitivity.
      * apply concat_upd_in; [|assumption].
        unfold allNames. repeat constructor; simpl; intuition discriminate.
      * rewrite Hp. apply Permutation_cons_append.
    + intros k Hk. cbn [snd]. unfold upd. destruct (eqName k cur) eqn:Ek; [|apply Hh; assumption].
      apply eqName_eq in Ek. subst k. apply headedBy_snoc; [apply Hh; assumption|].
      intros Hnil. exfalso. apply Hne; assumption.
    + intros _. cbn [fst snd]. unfold upd. rewrite eqName_refl. destruct (secs cur); discriminate.
Qed.

Lemma cv_fold_inv ls : forall seen st,
  cvInv seen st -> cvInv (seen ++ ls) (fold_left CVTailor.parseStep ls st).
Proof.
  induction ls as [|l ls IH]; intros seen st H; simpl.
  - rewrite app_nil_r. assumption.
  - replace (seen ++ l :: ls) with ((seen ++ [l]) ++ ls)
      by (rewrite <- app_assoc; reflexivity).
    apply IH. apply cv_parseStep_inv. assumption.
Qed.

Lemma cv_parse_keeps text :
  text <> [] ->
  Permutation (allLines (CVTailor.parseCV text)) (splitOn nl text) /\
  (forall n, n <> header -> headedBy n (CVTailor.parseCV text n)).
Proof.
  intros Hne. unfold CVTailor.parseCV. destruct text as [|c t]; [congruence|].
  pose proof (cv_fold_inv (splitOn nl (c :: t)) [] (header, CVTailor.noSections)) as H.
  cbn [app] in H.
  destruct H as (_ & Hp & Hh & _).
  - split; [simpl; tauto|]. split; [reflexivity|]. split.
    + intros n _. exact I.
    + intros Hx. cbn [fst] in Hx. congruence.
  - split; assumption.
Qed.

(** C5: both parsers keep the lines of the text; the universal
    parser keeps them up to the white space around each block.  The lines of
    a non-empty text split into a header block of plain lines and blocks that
    each begin with a header line naming the block.  The universal parser
    returns the trimmed join of the header block as header; [sectionOrder]
    has no duplicate and holds exactly the names of the blocks; every listed
    section has a content whose first line is a header line of that name; and
    when no name opens two blocks, [sectionOrder] lists the blocks in order
    and every section holds the trimmed join of its block.  The parser of
    cv-tailor stores every line unchanged: its sections together hold a
    permutation of the lines, and a non-header section begins with a header
    line of its name. *)
Theorem parsers_keep_lines text :
  text <> [] ->
  (exists pre segs,
     let p := TailorUniversal.parseCV text in
     splitOn nl text = pre ++ List.concat (map snd segs) /\
     Forall plainLine pre /\ Forall goodSeg segs /\
     TailorUniversal.parsedHeader p = trim (join [nl] pre) /\
     NoDup (TailorUniversal.sectionOrder p) /\
     (forall n, In n (TailorUniversal.sectionOrder p) <-> In n (map fst segs)) /\
     (forall n, In n (TailorUniversal.sectionOrder p) ->
        exists c, TailorUniversal.sections p n = Some c /\
                  classify (hd [] (splitOn nl c)) = Some n) /\
     (NoDup (map fst segs) ->
        TailorUniversal.sectionOrder p = map fst segs /\
        forall n body, In (n, body) segs ->
          TailorUniversal.sections p n = Some (trim (join [nl] body)))) /\
  Permutation (allLines (CVTailor.parseCV text)) (splitOn nl text) /\
  (forall n, n <> header -> headedBy n (CVTailor.parseCV text n)).
Proof.
  intros Hne. split; [|apply cv_parse_keeps; assumption].
  pose proof (segmentsOf_spec (splitOn nl text)) as Hspec.
  pose proof (parseCV_segments text Hne) as Hseg.
  destruct (segmentsOf (splitOn nl text)) as [pre segs].
  destruct Hspec as (Hpre & Hsegs & Hlines).
  cbv zeta in Hseg. destruct Hseg as (EH & EO & ES).
  exists pre, segs. cbv zeta.
  pose proof (segs_no_header segs Hsegs) as Hnh.
  split; [symmetry; assumption|]. split; [assumption|]. split; [assumption|].
  split; [assumption|]. split; [|split; [|split]].
  - rewrite EO. apply addNames_NoDup. constructor.
  - intros n. rewrite EO, addNames_In. split.
    + intros [[]|[H _]]. assumption.
    + intros H. right. split; [assumption|]. intros ->. contradiction.
  - intros n Hn.
    destruct (parse_wellformed text) as (_ & _ & Hsec & _).
    destruct (Hsec n Hn) as (c & Ec & _ & _ & (hdr & rest & Eb & Hc & _)).
    exists c. split; [assumption|]. cbn [fst snd] in Eb, Hc. rewrite Eb. exact Hc.
  - intros Hnd. split.
    + rewrite EO. apply (addNames_fresh (map fst segs) []); assumption.
    + intros n body Hin.
      assert (Hn : n <> header).
      { intros ->. apply Hnh. apply in_map_iff. exists (header, body). auto. }
      rewrite (ES n Hn), (lookupLast_unique n body segs Hnd Hin). reflexivity.
Qed.

Lemma parsers_keep_lines_witness :
  janeCV <> [] /\
  (exists pre segs,
     let p := TailorUniversal.parseCV janeCV in
     splitOn nl janeCV = pre ++ List.concat (map snd segs) /\
     Forall plainLine pre /\ Forall goodSeg segs /\
     TailorUniversal.parsedHeader p = trim (join [nl] pre) /\
     NoDup (TailorUniversal.sectionOrder p) /\
     (forall n, In n (TailorUniversal.sectionOrder p) <-> In n (map fst segs)) /\
     (forall n, In n (TailorUniversal.sectionOrder p) ->
        exists c, TailorUniversal.sections p n = Some c /\
                  classify (hd [] (splitOn nl c)) = Some n) /\
     (NoDup (map fst segs) ->
        TailorUniversal.sectionOrder p = map fst segs /\
        forall n body, In (n, body) segs ->
          TailorUniversal.sections p n = Some (trim (join [nl] body)))) /\
  Permutation (allLines (CVTailor.parseCV janeCV)) (splitOn nl janeCV) /\
  (forall n, n <> header -> headedBy n (CVTailor.parseCV janeCV n)).
Proof.
  split; [discriminate|]. apply (parsers_keep_lines janeCV). discriminate.
Defined.

Lemma parser_trims_counterexample :
  In (s "  Jane Doe") (splitOn nl indentedCV) /\
  ~ In (s "  Jane Doe") (keptLines (TailorUniversal.parseCV indentedCV)).
Proof.
  split.
  - vm_compute. left. reflexivity.
  - vm_compute. intros H.
    repeat (destruct H as [H|H]; [discriminate H|]). exact H.
Qed.

End ParsersFacts.

Module KeywordsFacts.

Import RegexSpec WordPatternSpec FloatSpec MatcherSpec RankingSpec TailoringSpec LinesSpec UniversalSpec ParsersSpec RegexFacts WordPatternFacts FloatFacts MatcherFacts RankingFacts TailoringFacts LinesFacts UniversalFacts ParsersFacts.
Import ListNotations Str Regex Num Sections.
Import KeywordExtractor.
Local Open Scope list_scope.

(** ** Where the extracted keywords come from *)

Lemma slice_prefix {A} (l : list A) (n : nat) :
  slice l 0 (Z.of_nat n) = firstn n l.
Proof.
  destruct (slice_three l (Z.of_nat n) 0 ltac:(lia) ltac:(lia)) as (_ & E & _).
  rewrite E, Nat2Z.id. reflexivity.
Qed.

Lemma kept_item_scored jd maxKeywords kw :
  jd <> [] ->
  In kw (all (extractKeywords jd maxKeywords)) ->
  exists x,
    In x (scoreTerms (tokenize (cleanText jd)) (extractPhrases (cleanText jd)))
    /\ term x = kw.
Proof.
  intros Hjd H. rewrite (extractKeywords_all jd maxKeywords Hjd) in H.
  apply in_map_iff in H. destruct H as (x & Ex & Hx).
  apply slice_incl in Hx. apply dedup_fold_incl in Hx. destruct Hx as [[]|Hx].
  apply sort_In in Hx. destruct Hx as [Hx|[]].
  exists x. split; assumption.
Qed.

(** X1: a keyword returned by [extractKeywords] is a word of the cleaned
    job description that passed the token filter (two characters or more,
    no stop word, not a number), or a phrase of the phrase table that the
    cleaned job description contains. *)
Theorem extracted_keywords_from_text jobDescription maxKeywords kw :
  In kw (all (extractKeywords jobDescription maxKeywords)) ->
  let cleaned := cleanText jobDescription in
  (In kw (splitSpaces cleaned) /\ (2 <= List.length kw)%nat /\
   memStr kw STOP_WORDS = false /\ allDigits kw = false)
  \/ (In kw COMMON_PHRASES /\ includes cleaned kw = true).
Proof.
  intros H cleaned.
  assert (Hjd : jobDescription <> []) by (intros ->; exact H).
  destruct (kept_item_scored jobDescription maxKeywords kw Hjd H) as (x & Hx & <-).
  fold cleaned in Hx. rewrite scoreTerms_eq in Hx.
  apply in_app_iff in Hx. destruct Hx as [Hx|Hx].
  - left. apply in_map_iff in Hx. destruct Hx as ([k v] & <- & Hkv).
    cbn [wordItem term fst]. apply tf_key_token in Hkv.
    unfold tokenize in Hkv. apply filter_In in Hkv. destruct Hkv as [Hin Hf].
    apply andb_true_iff in Hf. destruct Hf as [Hf H3].
    apply andb_true_iff in Hf. destruct Hf as [H1 H2].
    apply Nat.leb_le in H1. apply negb_true_iff in H2, H3. auto.
  - right. apply in_map_iff in Hx. destruct Hx as ([p f] & <- & Hpf).
    cbn [phraseItem term fst]. apply extractPhrases_In in Hpf.
    destruct Hpf as (Hp & Hinc & _). split; [exact Hp|].
    unfold cleaned in *. rewrite cleanText_lower in Hinc. exact Hinc.
Qed.

Lemma extracted_keywords_from_text_witness :
  let jd := s "Senior Python developer for machine learning" in
  In (s "python") (all (extractKeywords jd 35)) /\
  In (s "python") (splitSpaces (cleanText jd)) /\
  memStr (s "python") STOP_WORDS = false.
Proof.
  intros jd.
  assert (H : In (s "python") (all (extractKeywords jd 35))).
  { vm_compute. repeat first [left; reflexivity | right]. }
  split; [exact H|].
  destruct (extracted_keywords_from_text jd 35 (s "python") H)
    as [(H1 & _ & H2 & _)|(H1 & _)].
  - split; assumption.
  - exfalso. vm_compute in H1.
    repeat (destruct H1 as [H1|H1]; [discriminate H1|]). exact H1.
Defined.

(** X2: asking for fewer keywords gives a prefix of the longer answer. *)
Theorem extractKeywords_prefix jobDescription m n :
  (m <= n)%nat ->
  all (extractKeywords jobDescription m)
  = firstn m (all (extractKeywords jobDescription n)).
Proof.
  intros Hmn. destruct jobDescription as [|c jd].
  - simpl. rewrite firstn_nil. reflexivity.
  - rewrite !extractKeywords_all by discriminate.
    rewrite !slice_prefix, !firstn_map, firstn_firstn.
    rewrite Nat.min_l by assumption. reflexivity.
Qed.

Lemma extractKeywords_prefix_witness :
  let jd := s "Senior Python developer for machine learning" in
  (1 <= 35)%nat /\
  all (extractKeywords jd 1) = firstn 1 (all (extractKeywords jd 35)).
Proof.
  intros jd. split; [lia|]. apply (extractKeywords_prefix jd 1 35). lia.
Defined.

End KeywordsFacts.

Module UniversalRunFacts.

Import RegexSpec WordPatternSpec FloatSpec MatcherSpec RankingSpec TailoringSpec LinesSpec UniversalSpec ParsersSpec RegexFacts WordPatternFacts FloatFacts MatcherFacts RankingFacts TailoringFacts LinesFacts UniversalFacts ParsersFacts KeywordsFacts.
Import ListNotations Str Regex Num Sections.
Import KeywordExtractor.
Import TailorUniversal.
Local Open Scope list_scope.

(** ** What the strategies of [tailor-universal.js] report as injected *)

Lemma firstn_In {A} n (l : list A) x : In x (firstn n l) -> In x l.
Proof.
  intros H. rewrite <- (firstn_skipn n l). apply in_or_app. left. exact H.
Qed.

Lemma enhanceSummary_injected text kws k :
  In k (injected (enhanceSummary text kws)) ->
  In k kws /\ absentFrom (toLowerCase text) k = true.
Proof.
  unfold enhanceSummary.
  destruct text as [|c t]; [intros []|]. destruct kws as [|k0 ks]; [intros []|].
  set (missing := firstn MAX_KEYWORDS_SUMMARY _).
  assert (Hm : forall x, In x missing ->
             In x (k0 :: ks) /\ absentFrom (toLowerCase (c :: t)) x = true).
  { intros x Hx. subst missing. apply firstn_In in Hx.
    apply filter_In in Hx. exact Hx. }
  destruct missing as [|m ms] eqn:E; [intros []|].
  match goal with |- context [match ?v with Some _ => _ | None => _ end] =>
    destruct v end; cbn [injected]; intros H; apply firstn_In in H; auto.
Qed.

Lemma enhanceSummary_count text kws :
  (List.length (injected (enhanceSummary text kws)) <= 5)%nat.
Proof.
  unfold enhanceSummary.
  destruct text as [|c t]; [simpl; lia|]. destruct kws as [|k0 ks]; [simpl; lia|].
  destruct (firstn MAX_KEYWORDS_SUMMARY _) as [|m ms]; [simpl; lia|].
  match goal with |- context [match ?v with Some _ => _ | None => _ end] =>
    destruct v end; cbn [injected]; rewrite length_firstn; lia.
Qed.

Lemma bulletStep_injected line pending :
  let '(_, pending', inj) := bulletStep line pending in
  pending = inj ++ pending' /\ (List.length inj <= 1)%nat.
Proof.
  unfold bulletStep.
  destruct (matchBullet line) as [[lead bulletText]|]; [|split; [reflexivity|simpl; lia]].
  destruct pending as [|keyword pending']; [split; [reflexivity|simpl; lia]|].
  destruct (absentFrom bulletText keyword); [|split; [reflexivity|simpl; lia]].
  destruct (if (50 <? List.length bulletText)%nat
            then lastIndexOfFrom "," bulletText 0
            else Some (List.length bulletText)) as [p|];
    [destruct ((20 <? p)%nat && (p <? List.length bulletText)%nat)|];
    (split; [reflexivity|simpl; lia]).
Qed.

Lemma bulletMap_injected ls : forall pending,
  exists rest,
    pending = snd (bulletMap ls pending) ++ rest /\
    (List.length (snd (bulletMap ls pending)) <= List.length ls)%nat /\
    List.length (fst (bulletMap ls pending)) = List.length ls.
Proof.
  induction ls as [|line ls IH]; intros pending; cbn [bulletMap].
  - exists pending. repeat split; simpl; lia.
  - pose proof (bulletStep_injected line pending) as Hs.
    destruct (bulletStep line pending) as [[line' pending'] inj].
    destruct Hs as [Hp Hl].
    destruct (IH pending') as (rest & Hr & Hlen & Hlines).
    destruct (bulletMap ls pending') as [rest' inj'].
    cbn [fst snd] in *. exists rest. split; [|split].
    + rewrite Hp, Hr, app_assoc. reflexivity.
    + rewrite length_app. simpl. lia.
    + simpl. lia.
Qed.

Lemma enhanceExperience_injected text kws :
  (forall k, In k (injected (enhanceExperience text kws)) -> In k kws) /\
  (List.length (injected (enhanceExperience text kws)) <= 20)%nat.
Proof.
  unfold enhanceExperience.
  destruct text as [|c t]; [split; [intros k []|simpl; lia]|].
  destruct kws as [|k0 ks]; [split; [intros k []|simpl; lia]|].
  set (missing := firstn MAX_KEYWORDS_EXPERIENCE _).
  assert (Hm : forall x, In x missing -> In x (k0 :: ks)).
  { intros x Hx. subst missing. apply firstn_In in Hx.
    apply filter_In in Hx. apply Hx. }
  assert (Hlen : (List.length missing <= 20)%nat).
  { subst missing. rewrite length_firstn. unfold MAX_KEYWORDS_EXPERIENCE. lia. }
  destruct missing as [|m ms] eqn:E; [split; [intros k []|simpl; lia]|].
  destruct (bulletMap_injected (splitOn nl (c :: t)) (m :: ms)) as (rest & Hr & _ & _).
  destruct (bulletMap (splitOn nl (c :: t)) (m :: ms)) as [ls inj].
  cbn [snd injected] in *. split.
  - intros k Hk. apply Hm. rewrite Hr. apply in_or_app. left. exact Hk.
  - apply (f_equal (@List.length str)) in Hr. rewrite length_app in Hr. lia.
Qed.

Lemma enhanceExperience_per_line text kws :
  (List.length (injected (enhanceExperience text kws))
   <= List.length (splitOn nl text))%nat.
Proof.
  unfold enhanceExperience.
  destruct text as [|c t]; [simpl; lia|].
  destruct kws as [|k0 ks]; [cbn [injected List.length]; lia|].
  destruct (firstn MAX_KEYWORDS_EXPERIENCE _) as [|m ms];
    [cbn [injected List.length]; lia|].
  destruct (bulletMap_injected (splitOn nl (c :: t)) (m :: ms)) as (rest & _ & Hl & _).
  destruct (bulletMap (splitOn nl (c :: t)) (m :: ms)) as [ls inj].
  cbn [snd injected] in *. exact Hl.
Qed.

Lemma enhanceSkills_injected text kws :
  (forall k, In k (skInjected (enhanceSkills text kws)) -> In k kws) /\
  (List.length (skInjected (enhanceSkills text kws)) <= 15)%nat.
Proof.
  unfold enhanceSkills.
  destruct kws as [|k0 ks]; [split; [intros k []|simpl; lia]|].
  set (missing := firstn MAX_KEYWORDS_SKILLS _).
  assert (Hm : forall x, In x missing -> In x (k0 :: ks)).
  { intros x Hx. subst missing. apply firstn_In in Hx.
    apply filter_In in Hx. apply Hx. }
  assert (Hlen : (List.length missing <= 15)%nat).
  { subst missing. rewrite length_firstn. unfold MAX_KEYWORDS_SKILLS. lia. }
  destruct missing as [|m ms] eqn:E; [split; [intros k []|simpl; lia]|].
  destruct (isNil text || (List.length (trim text) <? 20)%nat);
    cbn [skInjected]; split; auto.
Qed.

Lemma notIn_spec l k : notIn l k = true <-> ~ In k l.
Proof.
  unfold notIn. rewrite negb_true_iff, <- not_true_iff_false, memStr_In. tauto.
Qed.

(** X3: in one run of [tailorCV] of [tailor-universal.js] the keywords
    that the summary, experience and skills strategies report as injected
    are pairwise disjoint. *)
Theorem universal_injections_disjoint parsed keywords :
  let r := runStrategies parsed keywords in
  (forall k, In k (injected (summaryResult r)) ->
     ~ In k (injected (experienceResult r)) /\
     ~ In k (skInjected (skillsResult r))) /\
  (forall k, In k (injected (experienceResult r)) ->
     ~ In k (skInjected (skillsResult r))).
Proof.
  intros r. unfold runStrategies in r.
  set (sumR := summaryResult r). set (expR := experienceResult r).
  set (skR := skillsResult r).
  assert (Hexp : forall k, In k (injected expR) -> ~ In k (injected sumR)).
  { intros k Hk. subst expR sumR r. cbn [experienceResult summaryResult] in *.
    apply (proj1 (enhanceExperience_injected _ _)) in Hk.
    apply filter_In in Hk. destruct Hk as [_ Hk]. apply notIn_spec in Hk. exact Hk. }
  assert (Hsk : forall k, In k (skInjected skR) ->
                 ~ In k (injected sumR ++ injected expR)).
  { intros k Hk. subst skR sumR expR r.
    cbn [skillsResult experienceResult summaryResult] in *.
    apply (proj1 (enhanceSkills_injected _ _)) in Hk.
    apply filter_In in Hk. destruct Hk as [_ Hk]. apply notIn_spec in Hk. exact Hk. }
  split.
  - intros k Hk. split.
    + intros H. apply (Hexp k H Hk).
    + intros H. apply (Hsk k H). apply in_or_app. left. exact Hk.
  - intros k Hk H. apply (Hsk k H). apply in_or_app. right. exact Hk.
Qed.

(** X4: the summary strategy of [tailor-universal.js] reports at most 5
    injected keywords, the experience strategy at most 20 and at most one
    per line, the skills strategy at most 15; so a run reports at most 40. *)
Theorem universal_injection_caps parsed keywords :
  let r := runStrategies parsed keywords in
  (List.length (injected (summaryResult r)) <= 5)%nat /\
  (List.length (injected (experienceResult r)) <= 20)%nat /\
  (List.length (injected (experienceResult r))
   <= List.length (splitOn nl (orEmpty (sections parsed experience))))%nat /\
  (List.length (skInjected (skillsResult r)) <= 15)%nat /\
  (List.length (injected (summaryResult r) ++ injected (experienceResult r)
                  ++ skInjected (skillsResult r)) <= 40)%nat.
Proof.
  intros r. unfold runStrategies in r. subst r.
  cbn [summaryResult experienceResult skillsResult].
  match goal with
  | |- (List.length (injected ?a) <= 5)%nat /\
       (List.length (injected ?b) <= 20)%nat /\ _ /\
       (List.length (skInjected ?c) <= 15)%nat /\ _ =>
      set (C := c); set (B := b); set (A := a)
  end.
  assert (HA : (List.length (injected A) <= 5)%nat) by apply enhanceSummary_count.
  assert (HB : (List.length (injected B) <= 20)%nat)
    by apply enhanceExperience_injected.
  assert (HC : (List.length (skInjected C) <= 15)%nat)
    by apply enhanceSkills_injected.
  assert (HL : (List.length (injected B)
                <= List.length (splitOn nl (orEmpty (sections parsed experience))))%nat)
    by apply enhanceExperience_per_line.
  clearbody A B C.
  split; [exact HA|]. split; [exact HB|]. split; [exact HL|]. split; [exact HC|].
  rewrite !length_app. lia.
Qed.

End UniversalRunFacts.

Module PresenceFacts.

Import RegexSpec WordPatternSpec FloatSpec MatcherSpec RankingSpec TailoringSpec LinesSpec UniversalSpec ParsersSpec PresenceSpec RegexFacts WordPatternFacts FloatFacts MatcherFacts RankingFacts TailoringFacts LinesFacts UniversalFacts ParsersFacts KeywordsFacts UniversalRunFacts.
Import ListNotations Str Regex Num Sections.
Import KeywordExtractor.
Local Open Scope list_scope.

(** ** A word-boundary match is a substring match *)

Lemma includes_intro p post : forall pre, includes (pre ++ p ++ post) p = true.
Proof.
  induction pre as [|c pre IH].
  - cbn [app]. destruct (p ++ post) eqn:E.
    + simpl. destruct p; [reflexivity|discriminate].
    + rewrite <- E. cbn [includes]. rewrite E. cbn [includes].
      rewrite <- E, startsWith_refl. reflexivity.
  - cbn [app includes]. rewrite IH. apply orb_true_r.
Qed.






Import AutoTailor95.



End PresenceFacts.

Module AnalysisFacts.

Import RegexSpec WordPatternSpec FloatSpec MatcherSpec RankingSpec TailoringSpec LinesSpec UniversalSpec ParsersSpec PresenceSpec RegexFacts WordPatternFacts FloatFacts MatcherFacts RankingFacts TailoringFacts LinesFacts UniversalFacts ParsersFacts KeywordsFacts UniversalRunFacts PresenceFacts.
Import ListNotations Str Regex Num Sections.
Import KeywordExtractor.
Local Open Scope list_scope.

(** ** The full analysis *)

Lemma extractKeywords_tiers jobDescription maxKeywords :
  let k := extractKeywords jobDescription maxKeywords in
  highPriority k ++ mediumPriority k ++ lowPriority k = all k.
Proof.
  intros k. subst k. unfold extractKeywords.
  destruct jobDescription as [|c jd]; [reflexivity|].
  cbn [all highPriority mediumPriority lowPriority].
  rewrite <- !map_app. f_equal.
  apply slice_three; [apply highCountOf_nonneg|apply mediumCountOf_nonneg].
Qed.

Lemma filter_none {A} (l : list A) : filter (fun _ => false) l = [].
Proof. induction l; simpl; auto. Qed.

Lemma memStr_filter (p : str -> bool) l k :
  In k l -> memStr k (filter p l) = p k.
Proof.
  intros Hin. destruct (p k) eqn:E.
  - apply memStr_In, filter_In. auto.
  - destruct (memStr k (filter p l)) eqn:F; [|reflexivity].
    apply memStr_In, filter_In in F. destruct F as [_ F]. congruence.
Qed.

Lemma filter_mem_sub (p : str -> bool) l sub :
  incl sub l -> filter (fun k => memStr k (filter p l)) sub = filter p sub.
Proof.
  intros Hs. apply filter_ext_in. intros k Hk. apply memStr_filter, Hs, Hk.
Qed.

(** X7: in the result of [analyzeMatch] the three lists of
    [categorizedMatched] put end to end are [match.matched], the three
    lists of [categorizedMissing] are [match.missing], and no keyword is
    in a category of both. *)
Theorem analyzeMatch_categories jobDescription cvText maxKeywords :
  let a := analyzeMatch jobDescription cvText maxKeywords in
  let cm := categorizedMatched a in
  let cx := categorizedMissing a in
  high cm ++ medium cm ++ low cm = matched (match_ a) /\
  high cx ++ medium cx ++ low cx = missing (match_ a) /\
  (forall k, In k (high cm ++ medium cm ++ low cm) ->
             ~ In k (high cx ++ medium cx ++ low cx)).
Proof.
  intros a cm cx. subst cm cx a. unfold analyzeMatch.
  cbn [categorizedMatched categorizedMissing match_ high medium low].
  pose proof (extractKeywords_tiers jobDescription maxKeywords) as Ht.
  cbv zeta in Ht.
  set (K := extractKeywords jobDescription maxKeywords) in *.
  assert (Hempty : matchKeywords cvText (all K) = mkMatch [] [] 0 0 None ->
    (filter (fun k => memStr k (matched (matchKeywords cvText (all K)))) (highPriority K) ++
     filter (fun k => memStr k (matched (matchKeywords cvText (all K)))) (mediumPriority K) ++
     filter (fun k => memStr k (matched (matchKeywords cvText (all K)))) (lowPriority K)
     = matched (matchKeywords cvText (all K))) /\
    (filter (fun k => memStr k (missing (matchKeywords cvText (all K)))) (highPriority K) ++
     filter (fun k => memStr k (missing (matchKeywords cvText (all K)))) (mediumPriority K) ++
     filter (fun k => memStr k (missing (matchKeywords cvText (all K)))) (lowPriority K)
     = missing (matchKeywords cvText (all K))) /\
    (forall k,
     In k (filter (fun k => memStr k (matched (matchKeywords cvText (all K)))) (highPriority K) ++
     filter (fun k => memStr k (matched (matchKeywords cvText (all K)))) (mediumPriority K) ++
     filter (fun k => memStr k (matched (matchKeywords cvText (all K)))) (lowPriority K)) ->
     ~ In k (filter (fun k => memStr k (missing (matchKeywords cvText (all K)))) (highPriority K) ++
     filter (fun k => memStr k (missing (matchKeywords cvText (all K)))) (mediumPriority K) ++
     filter (fun k => memStr k (missing (matchKeywords cvText (all K)))) (lowPriority K)))).
  { intros ->. cbn [matched missing memStr existsb]. rewrite !filter_none.
    repeat split. intros k []. }
  destruct cvText as [|c cv]; [apply Hempty; reflexivity|].
  destruct (all K) as [|k0 ks] eqn:Ek; [apply Hempty; reflexivity|].
  clear Hempty. rewrite <- Ek in *.
  rewrite matchKeywords_nonempty by (rewrite ?Ek; discriminate).
  cbn [matched missing].
  assert (Hh : incl (highPriority K) (all K))
    by (rewrite <- Ht; apply incl_appl, incl_refl).
  assert (Hm : incl (mediumPriority K) (all K))
    by (rewrite <- Ht; apply incl_appr, incl_appl, incl_refl).
  assert (Hl : incl (lowPriority K) (all K))
    by (rewrite <- Ht; apply incl_appr, incl_appr, incl_refl).
  rewrite !filter_mem_sub by assumption.
  rewrite <- !filter_app, Ht.
  repeat split.
  intros k H1 H2. apply filter_In in H1. apply filter_In in H2.
  destruct H1 as [_ H1]. destruct H2 as [_ H2]. rewrite H1 in H2. discriminate.
Qed.

End AnalysisFacts.

Module JobKeywordsFacts.

Import RegexSpec WordPatternSpec FloatSpec MatcherSpec RankingSpec TailoringSpec LinesSpec UniversalSpec ParsersSpec PresenceSpec JobKeywordsSpec RegexFacts WordPatternFacts FloatFacts MatcherFacts RankingFacts TailoringFacts LinesFacts UniversalFacts ParsersFacts KeywordsFacts UniversalRunFacts PresenceFacts AnalysisFacts.
Import ListNotations Str Regex Num Sections.
Import KeywordExtractor.
Import AutoTailor95.
Local Open Scope list_scope.

(** ** Replacing single characters *)

Lemma replaceAllFuel_Cls ic p rep : forall t n before,
  (List.length t < n)%nat ->
  replaceAllFuel n ic (Cls p) rep before t
  = flat_map (fun c => if p c then rep else [c]) t.
Proof.
  induction t as [|c t IH]; intros n before Hn.
  - destruct n; [simpl in Hn; lia|]. reflexivity.
  - destruct n; [simpl in Hn; lia|].
    cbn [replaceAllFuel flat_map]. unfold matchAt. cbn [run].
    destruct (p c).
    + replace (List.length t <? List.length (c :: t))%nat with true
        by (symmetry; apply Nat.ltb_lt; simpl; lia).
      rewrite IH by (simpl in Hn; lia). reflexivity.
    + rewrite IH by (simpl in Hn; lia). reflexivity.
Qed.

Lemma replaceAll_Cls_char ic p (x : ascii) t :
  replaceAll ic (Cls p) [x] t = map (fun c => if p c then x else c) t.
Proof.
  unfold replaceAll. rewrite replaceAllFuel_Cls by lia.
  induction t as [|c t IH]; simpl; [reflexivity|].
  rewrite IH. destruct (p c); reflexivity.
Qed.

(** ** Pieces of a split are substrings *)

Lemma splitSpacesAux_sub : forall t g cur piece,
  (g = true -> cur = []) ->
  In piece (splitSpacesAux g cur t) ->
  exists pre post, rev cur ++ t = pre ++ piece ++ post.
Proof.
  induction t as [|c t IH]; intros g cur piece Hg Hin.
  - destruct Hin as [<-|[]]. exists [], []. rewrite !app_nil_r. reflexivity.
  - cbn [splitSpacesAux] in Hin. destruct (isSpace c) eqn:Hc.
    + destruct g.
      * rewrite (Hg eq_refl) in *. cbn [rev app].
        destruct (IH true [] piece (fun _ => eq_refl) Hin) as (pre & post & E).
        cbn [rev app] in E. exists (c :: pre), post. rewrite E. reflexivity.
      * destruct Hin as [<-|Hin].
        { exists [], (c :: t). reflexivity. }
        destruct (IH true [] piece (fun _ => eq_refl) Hin) as (pre & post & E).
        cbn [rev app] in E. exists (rev cur ++ c :: pre), post.
        rewrite E, <- app_assoc. reflexivity.
    + destruct (IH false (c :: cur) piece ltac:(discriminate) Hin)
        as (pre & post & E).
      cbn [rev] in E. rewrite <- app_assoc in E. exists pre, post. exact E.
Qed.

Lemma splitSpaces_sub t piece :
  In piece (splitSpaces t) -> exists pre post, t = pre ++ piece ++ post.
Proof.
  intros H. apply (splitSpacesAux_sub t false [] piece) in H; [exact H|discriminate].
Qed.

(** ** The frequency table *)

Lemma bump_keys token : forall tf,
  NoDup (map fst tf) ->
  NoDup (map fst (bump token tf)) /\
  (forall k, In k (map fst (bump token tf)) <-> In k (map fst tf) \/ k = token).
Proof.
  induction tf as [|[k0 v0] tf IH]; intros Hnd.
  - simpl. split; [constructor; [intros []|constructor]|]. intros k. split.
    + intros [H|[]]. auto.
    + intros [[]|H]. auto.
  - cbn [bump]. destruct (eqs k0 token) eqn:E.
    + cbn [map fst] in *. split; [exact Hnd|]. intros k. split; [auto|].
      intros [H|H]; [exact H|]. apply eqs_eq in E. subst. left. reflexivity.
    + cbn [map fst] in *. inversion Hnd as [|? ? Hn Hnd']; subst.
      destruct (IH Hnd') as [IH1 IH2]. split.
      * constructor; [|exact IH1]. intros H. apply IH2 in H.
        destruct H as [H|H]; [auto|]. subst k0. rewrite eqs_refl in E. discriminate.
      * intros k. cbn [In]. rewrite IH2. tauto.
Qed.

Lemma freq_keys words : forall tf,
  NoDup (map fst tf) ->
  NoDup (map fst (fold_left (fun m word => bump word m) words tf)) /\
  (forall k, In k (map fst (fold_left (fun m word => bump word m) words tf)) ->
             In k (map fst tf) \/ In k words).
Proof.
  induction words as [|w words IH]; intros tf Hnd; cbn [fold_left].
  - split; [exact Hnd|]. auto.
  - destruct (bump_keys w tf Hnd) as [H1 H2].
    destruct (IH (bump w tf) H1) as [H3 H4]. split; [exact H3|].
    intros k Hk. apply H4 in Hk. destruct Hk as [Hk|Hk].
    + apply H2 in Hk. destruct Hk as [Hk | ->]; [auto|]. right. left. reflexivity.
    + right. right. exact Hk.
Qed.

Lemma insertByCount_perm x : forall l, Permutation (insertByCount x l) (x :: l).
Proof.
  induction l as [|y l IH]; cbn [insertByCount]; [reflexivity|].
  destruct (snd y <? snd x)%nat; [reflexivity|].
  rewrite IH. apply perm_swap.
Qed.

Lemma sortByCount_perm l : forall acc,
  Permutation (fold_left (fun acc x => insertByCount x acc) l acc) (l ++ acc).
Proof.
  induction l as [|x l IH]; intros acc; cbn [fold_left app]; [reflexivity|].
  rewrite IH, insertByCount_perm. symmetry. apply Permutation_middle.
Qed.

Lemma ceilTimes_nonneg n a b :
  (0 <= a)%Z -> (0 <= b)%Z -> (0 <= ceilTimes n (dec a b))%Z.
Proof.
  intros Ha Hb. unfold ceilTimes. apply Math_ceil_nonneg, fmul_nonNegative.
  - apply ofNat_nonNegative.
  - apply dec_nonNegative; assumption.
Qed.

Lemma simple_all maxKeywords text :
  all (simpleKeywordExtraction maxKeywords text)
  = firstn maxKeywords
      (map fst (fold_left (fun acc x => insertByCount x acc)
                          (fold_left (fun m word => bump word m)
                                     (simpleWords text) []) [])).
Proof. reflexivity. Qed.

Lemma simple_all_NoDup maxKeywords text :
  NoDup (all (simpleKeywordExtraction maxKeywords text)).
Proof.
  rewrite simple_all. apply NoDup_firstn.
  destruct (freq_keys (simpleWords text) [] ltac:(constructor)) as [H _].
  eapply Permutation_NoDup; [|exact H].
  symmetry. apply Permutation_map.
  rewrite sortByCount_perm, app_nil_r. reflexivity.
Qed.

Lemma simple_all_words maxKeywords text w :
  In w (all (simpleKeywordExtraction maxKeywords text)) -> In w (simpleWords text).
Proof.
  rewrite simple_all. intros H. apply firstn_incl in H.
  destruct (freq_keys (simpleWords text) [] ltac:(constructor)) as [_ H2].
  destruct (H2 w) as [[]|Hw]; [|exact Hw].
  eapply Permutation_in; [|exact H]. apply Permutation_map.
  rewrite sortByCount_perm, app_nil_r. reflexivity.
Qed.

Lemma simple_keyword_word maxKeywords text w :
  In w (all (simpleKeywordExtraction maxKeywords text)) ->
  (3 <= List.length w)%nat /\
  memStr w simpleStopWords = false /\
  forallb (fun c => isLowerAZ c || isDigit c) w = true /\
  includes (toLowerCase text) w = true.
Proof.
  intros H. apply simple_all_words in H. unfold simpleWords in H.
  apply filter_In in H. destruct H as [Hin Hf].
  apply andb_true_iff in Hf. destruct Hf as [Hlen Hstop].
  apply Nat.leb_le in Hlen. apply negb_true_iff in Hstop.
  split; [exact Hlen|]. split; [exact Hstop|].
  pose proof (split_pieces_solid _ false [] w eq_refl Hin) as Hsolid.
  apply splitSpaces_sub in Hin. destruct Hin as (pre & post & E).
  change (s " ") with [" "%char] in E. rewrite replaceAll_Cls_char in E.
  apply map_eq_app in E. destruct E as (pre' & r & Et & _ & E).
  apply map_eq_app in E. destruct E as (mid & post' & Er & Em & _). subst r.
  assert (Hmid : forall l, 
            solid (map (fun c => if negb (isLowerAZ c || isDigit c || isSpace c)
                                 then " "%char else c) l) = true ->
            map (fun c => if negb (isLowerAZ c || isDigit c || isSpace c)
                          then " "%char else c) l = l /\
            forallb (fun c => isLowerAZ c || isDigit c) l = true).
  { induction l as [|c l IH]; [auto|]. cbn [map solid forallb].
    fold (solid (map (fun c => if negb (isLowerAZ c || isDigit c || isSpace c)
                               then " "%char else c) l)).
    intros Hs. apply andb_true_iff in Hs. destruct Hs as [Hc Hl].
    destruct (IH Hl) as [IH1 IH2]. rewrite IH1, IH2.
    destruct (isLowerAZ c || isDigit c) eqn:Ea.
    - simpl. split; reflexivity.
    - cbn [orb negb] in Hc |- *. destruct (isSpace c) eqn:Eb.
      + cbn [negb] in Hc. rewrite Eb in Hc. discriminate.
      + cbn [negb] in Hc. vm_compute in Hc. discriminate. }
  rewrite <- Em in Hsolid. destruct (Hmid mid Hsolid) as [H1 H2].
  rewrite H1 in Em. subst mid. split; [exact H2|].
  rewrite Et. apply includes_intro.
Qed.

(** X8: every keyword of [simpleKeywordExtraction] has at least three
    characters, all of them lower-case letters or digits, is not one of
    its stop words, and occurs in the lower-cased text. *)
Theorem simple_keywords_are_words maxKeywords text w :
  In w (all (simpleKeywordExtraction maxKeywords text)) ->
  (3 <= List.length w)%nat /\
  memStr w simpleStopWords = false /\
  forallb (fun c => isLowerAZ c || isDigit c) w = true /\
  includes (toLowerCase text) w = true.
Proof. apply simple_keyword_word. Qed.

Lemma simple_keywords_are_words_witness :
  let w := s "python" in
  In w (all (simpleKeywordExtraction 35 (s "Python and SQL, Python!"))) /\
  (3 <= List.length w)%nat /\
  memStr w simpleStopWords = false /\
  forallb (fun c => isLowerAZ c || isDigit c) w = true /\
  includes (toLowerCase (s "Python and SQL, Python!")) w = true.
Proof.
  assert (H : In (s "python")
                 (all (simpleKeywordExtraction 35 (s "Python and SQL, Python!"))))
    by (vm_compute; left; reflexivity).
  split; [exact H|].
  apply (simple_keywords_are_words 35 (s "Python and SQL, Python!") (s "python") H).
Defined.

(** ** The keyword set of the orchestrator *)

Lemma extractKeywords_NoDup jobDescription maxKeywords :
  NoDup (all (extractKeywords jobDescription maxKeywords)).
Proof.
  destruct jobDescription as [|c jd]; [constructor|].
  rewrite extractKeywords_all by discriminate.
  rewrite slice_prefix, <- firstn_map. apply NoDup_firstn.
  apply NoDup_map_term. apply dedup_inv.
Qed.

Lemma extractKeywords_length jobDescription maxKeywords :
  (List.length (all (extractKeywords jobDescription maxKeywords)) <= maxKeywords)%nat.
Proof.
  destruct jobDescription as [|c jd]; [simpl; lia|].
  rewrite extractKeywords_all by discriminate.
  rewrite slice_prefix, length_map, length_firstn. lia.
Qed.

(** X9: without [ReliableExtractor], [extractJobKeywords] returns a
    keyword set whose three priority lists put end to end are [all],
    with no keyword twice, at most [maxKeywords] keywords and
    [total] their number; with [KeywordExtractor] loaded [all] is the
    extractor's list, re-split into at most 11 high and at most 8 medium
    keywords. *)
Theorem job_keywords_tiers g maxKeywords jobText :
  gReliable g = None ->
  let k := extractJobKeywords g maxKeywords jobText in
  highPriority k ++ mediumPriority k ++ lowPriority k = all k /\
  NoDup (all k) /\
  (List.length (all k) <= maxKeywords)%nat /\
  total k = List.length (all k) /\
  (gKeywordExtractor g = true ->
     all k = all (extractKeywords jobText maxKeywords) /\
     (List.length (highPriority k) <= 11)%nat /\
     (List.length (mediumPriority k) <= 8)%nat).
Proof.
  intros Hr k. subst k. unfold extractJobKeywords. rewrite Hr.
  destruct (gKeywordExtractor g).
  - cbn [all highPriority mediumPriority lowPriority total].
    set (l := all (extractKeywords jobText maxKeywords)).
    pose proof (extractKeywords_length jobText maxKeywords) as Hlen. fold l in Hlen.
    pose proof (extractKeywords_NoDup jobText maxKeywords) as Hnd. fold l in Hnd.
    set (h := Z.min 11 (ceilTimes (List.length l) (dec 45 2))).
    set (m := Z.min 8 (ceilTimes (List.length l) (dec 35 2))).
    assert (Hh : (0 <= h <= 11)%Z).
    { subst h. pose proof (ceilTimes_nonneg (List.length l) 45 2). lia. }
    assert (Hm : (0 <= m <= 8)%Z).
    { subst m. pose proof (ceilTimes_nonneg (List.length l) 35 2). lia. }
    destruct (slice_three l h m ltac:(lia) ltac:(lia)) as (E & E1 & E2).
    rewrite slice_prefix, firstn_all2 by exact Hlen.
    split; [exact E|]. split; [exact Hnd|]. split; [exact Hlen|].
    split; [reflexivity|]. intros _. split; [reflexivity|].
    rewrite E1, E2, !length_firstn. lia.
  - split; [|split; [|split; [|split]]].
    + unfold simpleKeywordExtraction.
      cbn [all highPriority mediumPriority lowPriority].
      apply slice_three; apply ceilTimes_nonneg; lia.
    + apply simple_all_NoDup.
    + rewrite simple_all, length_firstn. lia.
    + reflexivity.
    + discriminate.
Qed.

Lemma job_keywords_tiers_witness :
  let g := mkGlobals None true None None true true in
  let k := extractJobKeywords g 35 (s "python and sql") in
  all k = [s "python"; s "sql"] /\
  highPriority k ++ mediumPriority k ++ lowPriority k = all k /\
  NoDup (all k) /\
  (List.length (all k) <= 35)%nat /\
  total k = List.length (all k) /\
  (gKeywordExtractor g = true ->
     all k = all (extractKeywords (s "python and sql") 35) /\
     (List.length (highPriority k) <= 11)%nat /\
     (List.length (mediumPriority k) <= 8)%nat).
Proof.
  split; [vm_compute; reflexivity|].
  apply (job_keywords_tiers (mkGlobals None true None None true true) 35
           (s "python and sql")).
  reflexivity.
Defined.

End JobKeywordsFacts.

Module ReconstructFacts.

Import RegexSpec WordPatternSpec FloatSpec MatcherSpec RankingSpec TailoringSpec LinesSpec UniversalSpec ParsersSpec PresenceSpec JobKeywordsSpec RegexFacts WordPatternFacts FloatFacts MatcherFacts RankingFacts TailoringFacts LinesFacts UniversalFacts ParsersFacts KeywordsFacts UniversalRunFacts PresenceFacts AnalysisFacts JobKeywordsFacts.
Import ListNotations Str Regex Num Sections.
Local Open Scope list_scope.

(** ** Reconstruction of a CV parsed by cv-tailor *)

Lemma split_join_parts parts :
  parts <> [] -> splitOn nl (join [nl] parts) = flat_map (splitOn nl) parts.
Proof.
  induction parts as [|p ps IH]; intros Hne; [congruence|].
  destruct ps as [|q ps].
  - simpl. rewrite app_nil_r. reflexivity.
  - rewrite join_cons2.
    change (p ++ [nl] ++ join [nl] (q :: ps)) with (p ++ nl :: join [nl] (q :: ps)).
    rewrite splitOn_app, IH by discriminate. reflexivity.
Qed.

Lemma perm_shift {A} (x : A) a b c r :
  Permutation (a ++ b ++ c ++ x :: r) ((x :: a) ++ b ++ c ++ r).
Proof.
  replace (a ++ b ++ c ++ x :: r) with ((a ++ b ++ c) ++ x :: r)
    by (rewrite <- !app_assoc; reflexivity).
  replace ((x :: a) ++ b ++ c ++ r) with (x :: (a ++ b ++ c) ++ r)
    by (cbn [app]; rewrite <- !app_assoc; reflexivity).
  symmetry. apply Permutation_middle.
Qed.

Lemma reconstruct_fold_lines (sections : CVTailor.Parsed) :
  forall names parts,
  (forall n, In n names -> Forall nlFree (sections n)) ->
  exists k, (k <= List.length names)%nat /\
    Permutation
      (flat_map (splitOn nl)
         (fold_left (fun parts sectionName =>
                       match sections sectionName with
                       | [] => parts
                       | ls =>
                           (match parts with [] => parts | _ => parts ++ [[]] end)
                             ++ [join [nl] ls]
                       end) names parts))
      (repeat [] k ++ flat_map (splitOn nl) parts ++ List.concat (map sections names)).
Proof.
  induction names as [|n names IH]; intros parts Hfree.
  - exists 0%nat. split; [simpl; lia|]. simpl. rewrite app_nil_r. reflexivity.
  - cbn [fold_left map List.concat].
    destruct (sections n) as [|l ls] eqn:En.
    + destruct (IH parts (fun m Hm => Hfree m (or_intror Hm))) as (k & Hk & HP).
      exists k. split; [simpl; lia|exact HP].
    + assert (Hsplit : splitOn nl (join [nl] (l :: ls)) = l :: ls).
      { apply split_join; [|discriminate]. rewrite <- En. apply Hfree.
        left. reflexivity. }
      destruct parts as [|p ps].
      * destruct (IH ([] ++ [join [nl] (l :: ls)])
                     (fun m Hm => Hfree m (or_intror Hm))) as (k & Hk & HP).
        exists k. split; [simpl; lia|]. rewrite HP.
        cbn [app flat_map]. rewrite Hsplit, app_nil_r. reflexivity.
      * destruct (IH (((p :: ps) ++ [[]]) ++ [join [nl] (l :: ls)])
                     (fun m Hm => Hfree m (or_intror Hm))) as (k & Hk & HP).
        exists (S k). split; [simpl; lia|]. rewrite HP.
        rewrite !flat_map_app. cbn [flat_map splitOn]. rewrite Hsplit, !app_nil_r.
        cbn [repeat]. rewrite <- !app_assoc.
        change ([[]] ++ (l :: ls) ++ List.concat (map sections names))
          with ([] :: (l :: ls) ++ List.concat (map sections names)).
        apply (perm_shift [] (repeat [] k) (splitOn nl p) (flat_map (splitOn nl) ps)).
Qed.

Lemma allLines_order (sections : CVTailor.Parsed) :
  Permutation (sections header ++ List.concat (map sections CVTailor.sectionOrder))
              (allLines sections).
Proof.
  unfold allLines, allNames, CVTailor.sectionOrder. cbn [map List.concat].
  apply Permutation_app_head. apply Permutation_app_head. apply Permutation_app_head.
  rewrite (app_assoc (sections education)), (app_assoc (sections skills)).
  apply Permutation_app_tail, Permutation_app_comm.
Qed.

Lemma reconstruct_lines (sections : CVTailor.Parsed) :
  (forall n, In n allNames -> Forall nlFree (sections n)) ->
  allLines sections <> [] ->
  exists k, (k <= 7)%nat /\
    Permutation (splitOn nl (CVTailor.reconstructCV sections))
                (repeat [] k ++ allLines sections).
Proof.
  intros Hfree Hne. unfold CVTailor.reconstructCV.
  set (parts0 := match sections header with [] => [] | _ => _ end).
  assert (H0 : flat_map (splitOn nl) parts0 = sections header).
  { subst parts0. destruct (sections header) as [|l ls] eqn:Eh; [reflexivity|].
    cbn [flat_map]. rewrite app_nil_r. apply split_join; [|discriminate].
    rewrite <- Eh. apply Hfree. left. reflexivity. }
  destruct (reconstruct_fold_lines sections CVTailor.sectionOrder parts0)
    as (k & Hk & HP).
  { intros n Hn. apply Hfree. right. unfold CVTailor.sectionOrder in Hn.
    unfold allNames. simpl in Hn |- *. tauto. }
  rewrite H0, allLines_order in HP.
  exists k. split; [exact Hk|].
  rewrite split_join_parts; [exact HP|].
  intros E. rewrite E in HP. cbn [flat_map] in HP.
  apply Permutation_nil in HP. apply app_eq_nil in HP. destruct HP as [_ HP].
  contradiction.
Qed.

(** X10: parsing a non-empty CV with [parseCV] of cv-tailor and putting
    it back together with [reconstructCV] keeps every line of the CV and
    adds at most seven empty lines, nothing else; lines may change place,
    as the sections come out in the fixed section order. *)
Theorem cv_reconstruct_keeps_lines text :
  text <> [] ->
  exists k, (k <= 7)%nat /\
    Permutation (splitOn nl (CVTailor.reconstructCV (CVTailor.parseCV text)))
                (repeat [] k ++ splitOn nl text).
Proof.
  intros Hne. destruct (cv_parse_keeps text Hne) as [HP _].
  assert (Hfree : forall n, In n allNames ->
                            Forall nlFree (CVTailor.parseCV text n)).
  { intros n Hn. apply Forall_forall. intros l Hl.
    assert (Hin : In l (allLines (CVTailor.parseCV text))).
    { unfold allLines. apply in_concat. exists (CVTailor.parseCV text n).
      split; [|exact Hl]. apply in_map. exact Hn. }
    apply (Permutation_in _ HP) in Hin.
    pose proof (splitOn_nlFree text) as Hf. rewrite Forall_forall in Hf.
    apply Hf. exact Hin. }
  destruct (reconstruct_lines (CVTailor.parseCV text) Hfree) as (k & Hk & HR).
  - intros E. rewrite E in HP. apply Permutation_nil in HP.
    apply (splitOn_nonempty text). exact HP.
  - exists k. split; [exact Hk|]. rewrite HR, HP. reflexivity.
Qed.

Lemma cv_reconstruct_keeps_lines_witness :
  exists k, (k <= 7)%nat /\
    Permutation (splitOn nl (CVTailor.reconstructCV (CVTailor.parseCV janeCV)))
                (repeat [] k ++ splitOn nl janeCV).
Proof.
  apply (cv_reconstruct_keeps_lines janeCV). discriminate.
Defined.

End ReconstructFacts.

Module CvTailorFacts.

Import RegexSpec WordPatternSpec FloatSpec MatcherSpec RankingSpec TailoringSpec LinesSpec UniversalSpec ParsersSpec PresenceSpec JobKeywordsSpec CvTailorSpec RegexFacts WordPatternFacts FloatFacts MatcherFacts RankingFacts TailoringFacts LinesFacts UniversalFacts ParsersFacts KeywordsFacts UniversalRunFacts PresenceFacts AnalysisFacts JobKeywordsFacts ReconstructFacts.
Import ListNotations Str Regex Num Sections.
Import KeywordExtractor.
Import CVTailor.
Local Open Scope list_scope.

(** ** The three strategies of cv-tailor *)

Lemma summaryLoop_inv tc : forall ls mk inj ls' mk' inj',
  summaryLoop tc ls mk inj = (ls', mk', inj') ->
  List.length ls' = List.length ls /\
  (forall k, In k (inj' ++ mk') -> In k (inj ++ mk)) /\
  (NoDup (inj ++ mk) -> NoDup (inj' ++ mk')) /\
  (List.length inj' <= Nat.max (List.length inj) tc)%nat.
Proof.
  induction ls as [|line rest IH]; intros mk inj ls' mk' inj' H.
  - simpl in H. injection H as <- <- <-. repeat split; auto. lia.
  - cbn [summaryLoop] in H.
    destruct (List.length inj <? tc)%nat eqn:Et; cbn [negb] in H.
    2:{ injection H as <- <- <-. repeat split; auto. lia. }
    apply Nat.ltb_lt in Et.
    assert (Hsame : forall r m i,
              summaryLoop tc rest mk inj = (r, m, i) ->
              (line :: r, m, i) = (ls', mk', inj') ->
              List.length ls' = List.length (line :: rest) /\
              (forall k, In k (inj' ++ mk') -> In k (inj ++ mk)) /\
              (NoDup (inj ++ mk) -> NoDup (inj' ++ mk')) /\
              (List.length inj' <= Nat.max (List.length inj) tc)%nat).
    { intros r m i E Eq. injection Eq as <- <- <-.
      destruct (IH _ _ _ _ _ E) as (H1 & H2 & H3 & H4).
      repeat split; auto. simpl. lia. }
    destruct (List.length (trim line) <? 20)%nat.
    { destruct (summaryLoop tc rest mk inj) as [[r m] i] eqn:E.
      apply (Hsame r m i eq_refl H). }
    destruct (includes line (s ".")).
    2:{ destruct (summaryLoop tc rest mk inj) as [[r m] i] eqn:E.
        apply (Hsame r m i eq_refl H). }
    destruct mk as [|kw mk0].
    { destruct (summaryLoop tc rest [] inj) as [[r m] i] eqn:E.
      apply (Hsame r m i eq_refl H). }
    destruct (eqs _ line).
    + destruct (summaryLoop tc rest mk0 inj) as [[r m] i] eqn:E.
      injection H as <- <- <-.
      destruct (IH _ _ _ _ _ E) as (H1 & H2 & H3 & H4).
      split; [simpl; lia|]. split; [|split; [|exact H4]].
      * intros k Hk. apply H2 in Hk. apply in_app_or in Hk. apply in_or_app.
        destruct Hk; [left|right; right]; assumption.
      * intros Hnd. apply H3. apply NoDup_remove_1 in Hnd. exact Hnd.
    + destruct (summaryLoop tc rest mk0 (inj ++ [kw])) as [[r m] i] eqn:E.
      injection H as <- <- <-.
      destruct (IH _ _ _ _ _ E) as (H1 & H2 & H3 & H4).
      rewrite <- app_assoc in H2, H3. cbn [app] in H2, H3.
      split; [simpl; lia|]. split; [exact H2|]. split; [exact H3|].
      rewrite length_app in H4. simpl in H4. lia.
Qed.

Lemma removelast_last (l : list str) :
  l <> [] -> removelast l ++ [last l []] = l.
Proof. intros H. symmetry. apply app_removelast_last. exact H. Qed.

Lemma NoDup_app_firstn {A} (a b : list A) n :
  NoDup (a ++ b) -> NoDup (a ++ firstn n b).
Proof.
  intros H. rewrite <- (firstn_skipn n b), app_assoc in H.
  apply NoDup_app_remove_r in H. exact H.
Qed.

(** What [enhanceSummary] reports as injected, in terms of its inputs. *)
Lemma cv_enhanceSummary_injected summaryLines hp em :
  let r := enhanceSummary summaryLines hp em in
  (forall k, In k (injected r) ->
     In k hp /\ hasKeyword (join (s " ") summaryLines) k = false /\ ~ In k em) /\
  (NoDup hp -> NoDup (injected r)) /\
  (List.length (injected r) <= 8)%nat /\
  hd [] (lines r) = hd [] summaryLines /\
  (List.length summaryLines <= List.length (lines r) <= S (List.length summaryLines))%nat.
Proof.
  intros r. subst r. unfold enhanceSummary.
  assert (Hnone : forall ls : list str,
    (forall k, In k (injected (mkEnhanced ls [])) ->
       In k hp /\ hasKeyword (join (s " ") summaryLines) k = false /\ ~ In k em) /\
    (NoDup hp -> NoDup (injected (mkEnhanced ls []))) /\
    (List.length (injected (mkEnhanced ls [])) <= 8)%nat).
  { intros ls. cbn [injected]. split; [intros k []|].
    split; [intros _; constructor|simpl; lia]. }
  destruct summaryLines as [|first others].
  { destruct (Hnone []) as (A & B & C).
    split; [exact A|]. split; [exact B|]. split; [exact C|].
    split; [reflexivity|simpl; lia]. }
  destruct hp as [|h0 hp0].
  { destruct (Hnone (first :: others)) as (A & B & C).
    split; [exact A|]. split; [exact B|]. split; [exact C|].
    split; [reflexivity|simpl; lia]. }
  set (hp := h0 :: hp0) in *.
  set (text := join (s " ") (first :: others)).
  set (missing0 := filter _ hp).
  assert (Hmiss : forall k, In k missing0 ->
            In k hp /\ hasKeyword text k = false /\ ~ In k em).
  { intros k Hk. apply filter_In in Hk. destruct Hk as [Hin Hf].
    apply andb_true_iff in Hf. destruct Hf as [H1 H2].
    apply negb_true_iff in H1. apply negb_true_iff in H2.
    repeat split; auto. intros Hem. apply memStr_In in Hem. congruence. }
  assert (Hnd0 : NoDup hp -> NoDup missing0) by (apply NoDup_filter).
  destruct missing0 as [|m0 ms] eqn:Em.
  { destruct (Hnone (first :: others)) as (A & B & C).
    split; [exact A|]. split; [exact B|]. split; [exact C|].
    split; [reflexivity|simpl; lia]. }
  rewrite <- Em in *. clear Em.
  destruct (summaryLoop (Nat.min 8 (List.length hp)) others missing0 [])
    as [[others' mk'] inj'] eqn:E.
  destruct (summaryLoop_inv _ _ _ _ _ _ _ E) as (H1 & H2 & H3 & H4).
  cbn [app] in H2, H3. simpl List.length in H4.
  destruct ((List.length inj' <? 4)%nat && (3 <=? List.length mk')%nat) eqn:E2.
  - apply andb_true_iff in E2. destruct E2 as [E3 E4].
    apply Nat.ltb_lt in E3. apply Nat.leb_le in E4.
    cbn [injected lines].
    set (taken := firstn (Nat.min 4 (List.length mk')) mk').
    assert (Htaken : taken <> []).
    { subst taken. destruct mk' as [|a [|b [|c mk']]]; simpl in E4; try lia.
      simpl. destruct (List.length mk'); discriminate. }
    rewrite (removelast_last taken Htaken).
    split; [|split; [|split; [|split]]].
    + intros k Hk. apply Hmiss, H2. apply in_app_or in Hk. apply in_or_app.
      destruct Hk as [Hk|Hk]; [left; exact Hk|right].
      apply firstn_In in Hk. exact Hk.
    + intros Hnd. apply NoDup_app_firstn. apply H3, Hnd0, Hnd.
    + rewrite length_app. subst taken. rewrite length_firstn. lia.
    + unfold insertAt.
      destruct (Nat.max 1 (List.length (first :: others') - 1)) eqn:En; [lia|].
      reflexivity.
    + unfold insertAt. rewrite length_app. cbn [List.length].
      rewrite length_firstn, length_skipn. cbn [List.length].
      unfold str in *. lia.
  - cbn [injected lines hd List.length].
    split; [|split; [|split; [|split]]].
    + intros k Hk. apply Hmiss, H2. apply in_or_app. left. exact Hk.
    + intros Hnd. specialize (H3 (Hnd0 Hnd)). apply NoDup_app_remove_r in H3. exact H3.
    + lia.
    + reflexivity.
    + lia.
Qed.

Lemma bulletLoop_inv : forall steps j line pending inj line' pending' inj',
  bulletLoop steps j line pending inj = (line', pending', inj') ->
  inj' ++ pending' = inj ++ pending /\
  (List.length inj' <= List.length inj + steps)%nat.
Proof.
  induction steps as [|steps IH]; intros j line pending inj line' pending' inj' H.
  - simpl in H. injection H as <- <- <-. split; [reflexivity|lia].
  - cbn [bulletLoop] in H. destruct pending as [|kw pending0].
    { injection H as <- <- <-. split; [reflexivity|lia]. }
    assert (Hskip : bulletLoop steps (S j) line (kw :: pending0) inj
                    = (line', pending', inj') ->
                    inj' ++ pending' = inj ++ kw :: pending0 /\
                    (List.length inj' <= List.length inj + S steps)%nat).
    { intros E. apply IH in E. destruct E as [E1 E2]. split; [exact E1|lia]. }
    assert (Htake : forall l,
              bulletLoop steps (S j) l pending0 (inj ++ [kw])
              = (line', pending', inj') ->
              inj' ++ pending' = inj ++ kw :: pending0 /\
              (List.length inj' <= List.length inj + S steps)%nat).
    { intros l E. apply IH in E. destruct E as [E1 E2].
      rewrite <- app_assoc in E1. rewrite length_app in E2. simpl in E2.
      split; [exact E1|lia]. }
    destruct (negb (hasKeyword line kw)); [|apply Hskip; exact H].
    destruct (includes line (s ".") || includes line (s ",")).
    { eapply Htake. exact H. }
    destruct (negb (endsWith line (s "."))).
    { eapply Htake. exact H. }
    apply Hskip. exact H.
Qed.

Lemma experienceLoop_inv : forall ls bc pending inj ls' inj',
  experienceLoop ls bc pending inj = (ls', inj') ->
  List.length ls' = List.length ls /\
  (exists pending', inj' ++ pending' = inj ++ pending) /\
  (List.length inj' <= List.length inj + 2 * (maxBullets - bc))%nat /\
  Forall2 (fun a b => isBullet (trim a) = false -> b = a) ls ls'.
Proof.
  induction ls as [|line rest IH]; intros bc pending inj ls' inj' H.
  - simpl in H. injection H as <- <-. split; [reflexivity|].
    split; [exists pending; reflexivity|]. split; [lia|constructor].
  - cbn [experienceLoop] in H.
    destruct (bc <? maxBullets)%nat eqn:Eb; cbn [negb] in H.
    2:{ injection H as <- <-. split; [reflexivity|].
        split; [exists pending; reflexivity|]. split; [lia|].
        clear. induction (line :: rest); constructor; auto. }
    apply Nat.ltb_lt in Eb.
    destruct (isBullet (trim line)) eqn:Ei.
    + destruct pending as [|kw pending0].
      * destruct (experienceLoop rest (S bc) [] inj) as [r i] eqn:E.
        injection H as <- <-.
        destruct (IH _ _ _ _ _ E) as (H1 & H2 & H3 & H4).
        split; [simpl; lia|]. split; [exact H2|]. split; [lia|].
        constructor; [congruence|exact H4].
      * destruct (bulletLoop 2 0 line (kw :: pending0) inj)
          as [[el p'] i'] eqn:Eb2.
        destruct (experienceLoop rest (S bc) p' i') as [r i] eqn:E.
        injection H as <- <-.
        destruct (bulletLoop_inv _ _ _ _ _ _ _ _ Eb2) as [B1 B2].
        destruct (IH _ _ _ _ _ E) as (H1 & (q & H2) & H3 & H4).
        split; [simpl; lia|]. split; [exists q; congruence|].
        split; [lia|]. constructor; [congruence|exact H4].
    + destruct (experienceLoop rest bc pending inj) as [r i] eqn:E.
      injection H as <- <-.
      destruct (IH _ _ _ _ _ E) as (H1 & H2 & H3 & H4).
      split; [simpl; lia|]. split; [exact H2|]. split; [exact H3|].
      constructor; [reflexivity|exact H4].
Qed.

Lemma availableFor_In text candidates em k :
  In k (availableFor text candidates em) ->
  In k candidates /\ hasKeyword text k = false /\ ~ In k em.
Proof.
  unfold availableFor. intros Hk. apply filter_In in Hk. destruct Hk as [Hin Hf].
  apply andb_true_iff in Hf. destruct Hf as [H1 H2].
  apply negb_true_iff in H1. apply negb_true_iff in H2.
  repeat split; auto. intros Hem. apply memStr_In in Hem. congruence.
Qed.

Lemma cv_enhanceExperience_injected experienceLines kws em :
  let r := enhanceExperience experienceLines kws em in
  (exists rest,
     injected r ++ rest
     = availableFor (join (s " ") experienceLines)
                    (highPriority kws ++ mediumPriority kws) em) /\
  (List.length (injected r) <= 20)%nat /\
  List.length (lines r) = List.length experienceLines /\
  Forall2 (fun a b => isBullet (trim a) = false -> b = a)
          experienceLines (lines r).
Proof.
  intros r. subst r. unfold enhanceExperience.
  destruct experienceLines as [|l0 ls0].
  { cbn [injected lines]. split; [eexists; reflexivity|].
    split; [simpl; lia|]. split; [reflexivity|constructor]. }
  set (ls := l0 :: ls0).
  fold (availableFor (join (s " ") ls) (highPriority kws ++ mediumPriority kws) em).
  destruct (experienceLoop ls 0 _ []) as [ls' inj'] eqn:E.
  destruct (experienceLoop_inv _ _ _ _ _ _ E) as (H1 & (q & H2) & H3 & H4).
  cbn [injected lines]. split; [exists q; exact H2|].
  split; [unfold maxBullets in H3; simpl in H3; lia|]. split; assumption.
Qed.

Lemma cv_enhanceSkills_injected skillsLines kws em :
  skillsLines <> [] ->
  let r := enhanceSkills skillsLines kws em in
  (exists rest,
     injected r ++ rest
     = availableFor (join (s " ") skillsLines)
                    (highPriority kws ++ mediumPriority kws) em) /\
  (List.length (injected r) <= 10)%nat.
Proof.
  intros Hne r. subst r. unfold enhanceSkills.
  destruct skillsLines as [|l0 ls0]; [congruence|].
  set (ls := l0 :: ls0).
  fold (availableFor (join (s " ") ls) (highPriority kws ++ mediumPriority kws) em).
  destruct (availableFor _ _ em) as [|m0 ms] eqn:Em.
  { cbn [injected]. split; [exists []; reflexivity|simpl; lia]. }
  rewrite <- Em. clear Em.
  destruct (lastIndexWhere isListLine ls 0); cbn [injected].
  - split; [eexists; apply firstn_skipn|]. rewrite length_firstn. lia.
  - split; [eexists; apply firstn_skipn|]. rewrite length_firstn. lia.
Qed.

Lemma prefix_In {A} (a rest l : list A) k : a ++ rest = l -> In k a -> In k l.
Proof. intros <- H. apply in_or_app. left. exact H. Qed.

Lemma prefix_NoDup {A} (a rest l : list A) : a ++ rest = l -> NoDup l -> NoDup a.
Proof. intros <- H. apply NoDup_app_remove_r in H. exact H. Qed.

Lemma availableFor_NoDup text candidates em :
  NoDup candidates -> NoDup (availableFor text candidates em).
Proof. apply NoDup_filter. Qed.

Lemma NoDup_app_intro {A} (a b : list A) :
  NoDup a -> NoDup b -> (forall k, In k a -> ~ In k b) -> NoDup (a ++ b).
Proof.
  induction a as [|x a IH]; intros Ha Hb Hd; [exact Hb|].
  inversion Ha; subst. cbn [app]. constructor.
  - intros H. apply in_app_or in H. destruct H as [H|H]; [contradiction|].
    apply (Hd x); [left; reflexivity|exact H].
  - apply IH; auto. intros k Hk. apply Hd. right. exact Hk.
Qed.

Lemma tailorCV_injected haveExtractor cvText kws :
  cvText <> [] -> all kws <> [] ->
  injectedKeywords (tailorCV haveExtractor cvText kws)
  = let r := runStrategies haveExtractor cvText kws in
    injected (summaryResult r) ++ injected (experienceResult r)
      ++ injected (skillsResult r).
Proof.
  intros Hc Hk. unfold tailorCV.
  destruct cvText as [|c cv]; [congruence|].
  destruct (all kws) as [|a0 as0]; [congruence|].
  destruct haveExtractor; reflexivity.
Qed.

(** X11: a run of [tailorCV] of cv-tailor on a CV that has a skills
    section, with keyword tiers that hold no keyword twice, injects no
    keyword twice; and every injected keyword is a high- or
    medium-priority keyword that the initial match did not report as
    matched. *)
Theorem cv_tailor_no_repeat haveExtractor cvText kws :
  parseCV cvText skills <> [] ->
  NoDup (highPriority kws ++ mediumPriority kws) ->
  let r := tailorCV haveExtractor cvText kws in
  NoDup (injectedKeywords r) /\
  (forall k, In k (injectedKeywords r) ->
     In k (highPriority kws ++ mediumPriority kws) /\
     ~ In k (matched (initialMatchOf haveExtractor cvText kws))).
Proof.
  intros Hsk Hnd r. subst r.
  destruct cvText as [|c cv].
  { cbn [tailorCV injectedKeywords]. split; [constructor|intros k []]. }
  destruct (all kws) as [|a0 as0] eqn:Ea.
  { unfold tailorCV. rewrite Ea. cbn [injectedKeywords].
    split; [constructor|intros k []]. }
  rewrite tailorCV_injected by (rewrite ?Ea; discriminate).
  set (text := c :: cv) in *. cbv zeta.
  unfold runStrategies. cbn [summaryResult experienceResult skillsResult].
  set (parsed := parseCV text) in *.
  set (im := initialMatchOf haveExtractor text kws).
  set (hm := highPriority kws ++ mediumPriority kws) in *.
  assert (Hhp : NoDup (highPriority kws))
    by (apply NoDup_app_remove_r in Hnd; exact Hnd).
  set (sumR := match parsed summary with
               | [] => mkEnhanced (parsed summary) []
               | _ => enhanceSummary (parsed summary) (highPriority kws) (matched im)
               end).
  assert (Hsum : (forall k, In k (injected sumR) ->
                    In k (highPriority kws) /\ ~ In k (matched im)) /\
                 NoDup (injected sumR)).
  { subst sumR. destruct (parsed summary) as [|l0 ls0] eqn:Es.
    - cbn [injected]. split; [intros k []|constructor].
    - rewrite <- Es.
      destruct (cv_enhanceSummary_injected (parsed summary) (highPriority kws) (matched im))
        as (A & B & _).
      cbv zeta in A, B. split; [|apply B; exact Hhp].
      intros k Hk. destruct (A k Hk) as (A1 & _ & A3). auto. }
  destruct Hsum as [Hsum1 Hsum2].
  set (expR := match parsed experience with
               | [] => mkEnhanced (parsed experience) []
               | _ => enhanceExperience (parsed experience) kws
                        (matched im ++ injected sumR)
               end).
  assert (Hexp : (forall k, In k (injected expR) ->
                    In k hm /\ ~ In k (matched im ++ injected sumR)) /\
                 NoDup (injected expR)).
  { subst expR. destruct (parsed experience) as [|l0 ls0] eqn:Ee.
    - cbn [injected]. split; [intros k []|constructor].
    - rewrite <- Ee.
      destruct (cv_enhanceExperience_injected (parsed experience) kws
                  (matched im ++ injected sumR)) as ((q & A) & _).
      split.
      + intros k Hk. apply (prefix_In _ _ _ k A) in Hk.
        apply availableFor_In in Hk. destruct Hk as (K1 & _ & K3). auto.
      + apply (prefix_NoDup _ _ _ A). apply availableFor_NoDup. exact Hnd. }
  destruct Hexp as [Hexp1 Hexp2].
  destruct (cv_enhanceSkills_injected (parsed skills) kws
              (matched im ++ injected sumR ++ injected expR) Hsk) as ((q & A) & _).
  set (skR := enhanceSkills (parsed skills) kws
                (matched im ++ injected sumR ++ injected expR)) in *.
  assert (Hsk1 : forall k, In k (injected skR) ->
            In k hm /\ ~ In k (matched im ++ injected sumR ++ injected expR)).
  { intros k Hk. apply (prefix_In _ _ _ k A) in Hk.
    apply availableFor_In in Hk. destruct Hk as (K1 & _ & K3). auto. }
  assert (Hsk2 : NoDup (injected skR)).
  { apply (prefix_NoDup _ _ _ A). apply availableFor_NoDup. exact Hnd. }
  split.
  - apply NoDup_app_intro; [exact Hsum2| |].
    + apply NoDup_app_intro; [exact Hexp2|exact Hsk2|].
      intros k Hk Hk2. destruct (Hsk1 k Hk2) as [_ Hn]. apply Hn.
      apply in_or_app. right. apply in_or_app. right. exact Hk.
    + intros k Hk Hk2. apply in_app_or in Hk2. destruct Hk2 as [Hk2|Hk2].
      * destruct (Hexp1 k Hk2) as [_ Hn]. apply Hn. apply in_or_app. right. exact Hk.
      * destruct (Hsk1 k Hk2) as [_ Hn]. apply Hn.
        apply in_or_app. right. apply in_or_app. left. exact Hk.
  - intros k Hk. apply in_app_or in Hk. destruct Hk as [Hk|Hk].
    + destruct (Hsum1 k Hk) as [K1 K2]. split; [|exact K2].
      apply in_or_app. left. exact K1.
    + apply in_app_or in Hk. destruct Hk as [Hk|Hk].
      * destruct (Hexp1 k Hk) as [K1 K2]. split; [exact K1|].
        intros Hm. apply K2. apply in_or_app. left. exact Hm.
      * destruct (Hsk1 k Hk) as [K1 K2]. split; [exact K1|].
        intros Hm. apply K2. apply in_or_app. left. exact Hm.
Qed.

Lemma cv_tailor_no_repeat_witness :
  let cv := s "SUMMARY
Seasoned engineer shipping products.
SKILLS
Python, SQL" in
  let kws := mkKeywordSet [s "python"; s "docker"] [s "python"] [s "docker"] [] 2 in
  let r := tailorCV true cv kws in
  injectedKeywords r = [s "docker"] /\
  NoDup (injectedKeywords r) /\
  (forall k, In k (injectedKeywords r) ->
     In k (highPriority kws ++ mediumPriority kws) /\
     ~ In k (matched (initialMatchOf true cv kws))).
Proof.
  split; [vm_compute; reflexivity|].
  apply (cv_tailor_no_repeat true
           (s "SUMMARY
Seasoned engineer shipping products.
SKILLS
Python, SQL")
           (mkKeywordSet [s "python"; s "docker"] [s "python"] [s "docker"] [] 2)).
  - vm_compute. discriminate.
  - simpl. constructor; [simpl; intros [H|[]]; discriminate|].
    constructor; [intros []|constructor].
Defined.

(** ** Size and shape of what the strategies of cv-tailor return *)

(** X12: [enhanceSummary] of cv-tailor injects at most 8 keywords, leaves
    the first line as it is and adds at most one line;
    [enhanceExperience] injects at most 20 keywords, returns as many lines
    as it was given and leaves every line that is not a bullet as it is;
    [enhanceSkills] injects at most 10 keywords into a skills section that
    exists, and all high-priority and up to 7 medium-priority keywords
    into a new one. *)
Theorem cv_tailor_strategy_bounds summaryLines experienceLines skillsLines hp kws em :
  let sumR := enhanceSummary summaryLines hp em in
  let expR := enhanceExperience experienceLines kws em in
  let skR := enhanceSkills skillsLines kws em in
  ((List.length (injected sumR) <= 8)%nat /\
   hd [] (lines sumR) = hd [] summaryLines /\
   (List.length summaryLines <= List.length (lines sumR)
    <= S (List.length summaryLines))%nat) /\
  ((List.length (injected expR) <= 20)%nat /\
   List.length (lines expR) = List.length experienceLines /\
   Forall2 (fun a b => isBullet (trim a) = false -> b = a)
           experienceLines (lines expR)) /\
  (List.length (injected skR)
   <= match skillsLines with
      | [] => List.length (highPriority kws) + 7
      | _ => 10
      end)%nat.
Proof.
  intros sumR expR skR. split; [|split].
  - destruct (cv_enhanceSummary_injected summaryLines hp em) as (_ & _ & A & B & C).
    auto.
  - destruct (cv_enhanceExperience_injected experienceLines kws em) as (_ & A & B & C).
    auto.
  - destruct skillsLines as [|l0 ls0].
    + subst skR. unfold enhanceSkills.
      destruct (highPriority kws ++ firstn 7 (mediumPriority kws)) as [|a0 as0] eqn:E.
      * simpl. lia.
      * cbn [injected]. rewrite <- E, length_app, length_firstn. lia.
    + apply cv_enhanceSkills_injected. discriminate.
Qed.

(** ** The text of the enhanced skills section *)

Lemma join_In sep k : forall l : list str,
  In k l -> exists a b, join sep l = a ++ k ++ b.
Proof.
  induction l as [|x l IH]; intros H; [destruct H|].
  destruct l as [|y l].
  - destruct H as [->|[]]. exists [], []. simpl. rewrite app_nil_r. reflexivity.
  - rewrite join_cons2. destruct H as [->|H].
    + exists [], (sep ++ join sep (y :: l)). reflexivity.
    + destruct (IH H) as (a & b & E). exists (x ++ sep ++ a), b.
      rewrite E, <- !app_assoc. reflexivity.
Qed.

Lemma includes_join pre sep k (l : list str) :
  In k l -> includes (pre ++ join sep l) k = true.
Proof.
  intros H. destruct (join_In sep k l H) as (a & b & ->).
  rewrite app_assoc. apply includes_intro.
Qed.

Lemma lastIndexWhere_lt {A} (f : A -> bool) : forall l i j,
  lastIndexWhere f l i = Some j -> (i <= j < i + List.length l)%nat.
Proof.
  induction l as [|x l IH]; intros i j H; simpl in H; [discriminate|].
  destruct (lastIndexWhere f l (S i)) eqn:E.
  - injection H as <-. apply IH in E. simpl. lia.
  - destruct (f x); [|discriminate]. injection H as <-. simpl. lia.
Qed.

Lemma setNth_In {A} (x : A) : forall l i,
  (i < List.length l)%nat -> In x (setNth i x l).
Proof.
  induction l as [|y l IH]; intros i H; simpl in H; [lia|].
  destruct i; simpl; [left; reflexivity|]. right. apply IH. lia.
Qed.

Lemma setNth_keeps {A} (x d : A) : forall l i y,
  In y l -> In y (setNth i x l) \/ y = nth i l d.
Proof.
  induction l as [|z l IH]; intros i y H; [destruct H|].
  destruct i; simpl.
  - destruct H as [->|H]; [right; reflexivity|left; right; exact H].
  - destruct H as [->|H]; [left; left; reflexivity|].
    destruct (IH i y H) as [H1|H1]; [left; right; exact H1|right; exact H1].
Qed.

Lemma startsWith_trimEnd line : startsWith (trimEnd line) line = true.
Proof.
  destruct (trimEnd_split line) as (w & E & _).
  rewrite E at 2. apply startsWith_refl.
Qed.

(** X13: every keyword that [enhanceSkills] of cv-tailor reports as
    injected is written in one of the lines it returns, and every line it
    was given is still there, at most with text added after its trailing
    white space removed. *)
Theorem cv_skills_keywords_written skillsLines kws em :
  let r := enhanceSkills skillsLines kws em in
  (forall k, In k (injected r) ->
     exists line, In line (lines r) /\ includes line k = true) /\
  (forall line, In line skillsLines ->
     exists line', In line' (lines r) /\ startsWith (trimEnd line) line' = true).
Proof.
  intros r. subst r. unfold enhanceSkills.
  destruct skillsLines as [|l0 ls0].
  - split; [|intros line []].
    destruct (highPriority kws ++ firstn 7 (mediumPriority kws)) as [|a0 as0] eqn:E.
    { intros k []. }
    rewrite <- E. clear E.
    set (allSkills := highPriority kws ++ firstn 7 (mediumPriority kws)).
    cbn [injected lines]. intros k Hk.
    rewrite <- (firstn_skipn (halfUp (List.length allSkills)) allSkills) in Hk.
    apply in_app_or in Hk. destruct Hk as [Hk|Hk].
    + eexists. split; [right; left; reflexivity|].
      apply (includes_join (bullet :: s " Technical: ")). exact Hk.
    + eexists. split; [right; right; left; reflexivity|].
      apply (includes_join (bullet :: s " Additional: ")). exact Hk.
  - set (ls := l0 :: ls0).
    assert (Hkeep : forall line, In line ls ->
              exists line', In line' ls /\ startsWith (trimEnd line) line' = true).
    { intros line H. exists line. split; [exact H|apply startsWith_trimEnd]. }
    destruct (filter _ (highPriority kws ++ mediumPriority kws)) as [|m0 ms] eqn:Em.
    { cbn [injected lines]. split; [intros k []|exact Hkeep]. }
    rewrite <- Em. clear Em. set (missingSkills := filter _ _).
    destruct (lastIndexWhere isListLine ls 0) as [j|] eqn:Ej; cbn [injected lines].
    + apply lastIndexWhere_lt in Ej.
      set (newLine := trimEnd (nth j ls []) ++ s ", "
                        ++ join (s ", ") (firstn 8 missingSkills)).
      split.
      * intros k Hk. exists newLine. split; [apply setNth_In; lia|].
        subst newLine. rewrite app_assoc. apply includes_join. exact Hk.
      * intros line H. destruct (setNth_keeps newLine [] ls j line H) as [H1| ->].
        { exists line. split; [exact H1|apply startsWith_trimEnd]. }
        exists newLine. split; [apply setNth_In; lia|].
        subst newLine. apply startsWith_refl.
    + split.
      * intros k Hk. eexists. split; [apply in_or_app; right; left; reflexivity|].
        apply (includes_join (bullet :: s " Additional: ")). exact Hk.
      * intros line H. exists line. split; [apply in_or_app; left; exact H|].
        apply startsWith_trimEnd.
Qed.

End CvTailorFacts.

Module SimpleInjectionFacts.

Import RegexSpec WordPatternSpec FloatSpec MatcherSpec RankingSpec TailoringSpec LinesSpec UniversalSpec ParsersSpec PresenceSpec JobKeywordsSpec CvTailorSpec SimpleInjectionSpec RegexFacts WordPatternFacts FloatFacts MatcherFacts RankingFacts TailoringFacts LinesFacts UniversalFacts ParsersFacts KeywordsFacts UniversalRunFacts PresenceFacts AnalysisFacts JobKeywordsFacts ReconstructFacts CvTailorFacts.
Import ListNotations Str Regex Num Sections.
Import KeywordExtractor.
Import AutoTailor95.
Local Open Scope list_scope.

Lemma subseq_refl {A} (l : list A) : subseq l l.
Proof. induction l; [apply subseq_nil|apply subseq_keep; assumption]. Qed.

Lemma subseq_trans {A} (a b c : list A) : subseq a b -> subseq b c -> subseq a c.
Proof.
  intros Hab Hbc. revert a Hab.
  induction Hbc as [|x b c Hbc IH|x b c Hbc IH]; intros a Hab.
  - exact Hab.
  - apply subseq_skip. apply IH. exact Hab.
  - inversion Hab as [|y a1 b1 H1|y a1 b1 H1]; subst.
    + apply subseq_skip. apply IH. exact H1.
    + apply subseq_keep. apply IH. exact H1.
Qed.

Lemma subseq_app_l {A} (x l : list A) : subseq l (x ++ l).
Proof. induction x; simpl; [apply subseq_refl|apply subseq_skip; assumption]. Qed.

Lemma subseq_app_keep {A} (a : list A) : forall b c,
  subseq b c -> subseq (a ++ b) (a ++ c).
Proof. induction a; simpl; intros b c H; [exact H|apply subseq_keep; auto]. Qed.

Lemma subseq_app_r {A} (l x : list A) : subseq l (l ++ x).
Proof.
  rewrite <- (app_nil_r l) at 1. apply subseq_app_keep.
  induction x; [apply subseq_nil|apply subseq_skip; assumption].
Qed.

Lemma subseq_insert pos x t : subseq t (insertStr pos x t).
Proof.
  unfold insertStr. rewrite <- (firstn_skipn pos t) at 1.
  apply subseq_app_keep, subseq_app_l.
Qed.

Lemma includes_inside a x b k :
  includes x k = true -> includes (a ++ x ++ b) k = true.
Proof.
  intros H. apply includes_app in H. destruct H as (pre & post & ->).
  replace (a ++ (pre ++ k ++ post) ++ b) with ((a ++ pre) ++ k ++ (post ++ b))
    by (rewrite <- !app_assoc; reflexivity).
  apply includes_intro.
Qed.

Lemma includes_cut a b x k c :
  includes (a ++ c :: b) k = true -> ~ In c k ->
  includes (a ++ x ++ c :: b) k = true.
Proof.
  intros H Hc. apply includes_app in H. destruct H as (pre & post & E).
  apply app_eq_app in E. destruct E as (l & [[E1 E2]|[E1 E2]]).
  - subst a. apply app_eq_app in E2.
    destruct E2 as (m & [[E3 E4]|[E3 E4]]).
    + destruct m as [|c' m].
      * rewrite app_nil_r in E3. subst l. cbn [app] in E4. subst post.
        rewrite <- app_assoc. apply includes_intro.
      * cbn [app] in E4. injection E4 as <- _. exfalso. apply Hc.
        rewrite E3. apply in_or_app. right. left. reflexivity.
    + subst l post.
      replace ((pre ++ k ++ m) ++ x ++ c :: b) with (pre ++ k ++ (m ++ x ++ c :: b))
        by (rewrite <- !app_assoc; reflexivity).
      apply includes_intro.
  - subst pre. rewrite E2.
    replace (a ++ x ++ l ++ k ++ post) with ((a ++ x ++ l) ++ k ++ post)
      by (rewrite <- !app_assoc; reflexivity).
    apply includes_intro.
Qed.

Lemma indexOfFrom_spec p : forall t from i j,
  indexOfFrom p t from i = Some j ->
  exists a b, t = a ++ p ++ b /\ j = (i + List.length a)%nat.
Proof.
  induction t as [|c t IH]; intros from i j H; cbn [indexOfFrom] in H.
  - destruct p; [|discriminate]. simpl in H.
    destruct (from <=? i)%nat; [|discriminate]. injection H as <-.
    exists [], []. split; [reflexivity|simpl; lia].
  - destruct ((from <=? i)%nat && startsWith p (c :: t)) eqn:E.
    + injection H as <-. apply andb_true_iff in E. destruct E as [_ E].
      apply startsWith_app in E. destruct E as (post & E).
      exists [], post. split; [exact E|simpl; lia].
    + apply IH in H. destruct H as (a & b & -> & ->).
      exists (c :: a), b. split; [reflexivity|simpl; lia].
Qed.

Lemma insertStr_at a x b : insertStr (List.length a) x (a ++ b) = a ++ x ++ b.
Proof.
  unfold insertStr. rewrite firstn_app, skipn_app, Nat.sub_diag.
  rewrite firstn_all, skipn_all. cbn [firstn skipn]. rewrite app_nil_r. reflexivity.
Qed.

Lemma search_line_start ic r : forall t before pre b rest,
  search ic (Seq BolM r) before t = Some (pre, b, rest) ->
  (exists skipped suffix, t = skipped ++ suffix /\ pre = rev skipped ++ before) /\
  (pre = [] \/ exists c p0, pre = c :: p0 /\ isLineTerminator c = true).
Proof.
  induction t as [|x t IH]; intros before pre b rest H; cbn [search] in H.
  - destruct (matchAt ic (Seq BolM r) before []) as [[b0 t0]|] eqn:Em; [|discriminate].
    injection H as <- <- <-. split; [exists [], []; split; reflexivity|].
    unfold matchAt in Em. cbn [run] in Em.
    destruct before as [|c p0]; [left; reflexivity|].
    destruct (isLineTerminator c) eqn:Ec; [|discriminate].
    right. exists c, p0. split; [reflexivity|exact Ec].
  - destruct (matchAt ic (Seq BolM r) before (x :: t)) as [[b0 t0]|] eqn:Em.
    + injection H as <- <- <-. split; [exists [], (x :: t); split; reflexivity|].
      unfold matchAt in Em. cbn [run] in Em.
      destruct before as [|c p0]; [left; reflexivity|].
      destruct (isLineTerminator c) eqn:Ec; [|discriminate].
      right. exists c, p0. split; [reflexivity|exact Ec].
    + apply IH in H. destruct H as [(skipped & suffix & E1 & E2) H2].
      split; [|exact H2]. exists (x :: skipped), suffix.
      split; [rewrite E1; reflexivity|].
      rewrite E2. cbn [rev]. rewrite <- app_assoc. reflexivity.
Qed.

Lemma execIndex_line_start names t index :
  execIndex (simpleHeader names) t = Some index ->
  firstn index t = [] \/ skipn index t = [] \/
  exists a0 c, firstn index t = a0 ++ [c] /\ isLineTerminator c = true.
Proof.
  unfold execIndex, simpleHeader.
  destruct (search true _ [] t) as [[[pre b] rest]|] eqn:E; [|discriminate].
  intros H. injection H as <-.
  apply search_line_start in E.
  destruct E as [(skipped & suffix & E1 & E2) H2].
  rewrite app_nil_r in E2. subst pre t.
  rewrite length_rev, firstn_app, Nat.sub_diag, firstn_all.
  cbn [firstn]. rewrite app_nil_r.
  destruct H2 as [H2|(c & p0 & H2 & Hc)].
  - left. apply (f_equal (@rev ascii)) in H2. rewrite rev_involutive in H2. exact H2.
  - right. right. exists (rev p0), c. split; [|exact Hc].
    apply (f_equal (@rev ascii)) in H2. rewrite rev_involutive in H2. exact H2.
Qed.

Lemma includes_block pre post (l : list str) k :
  In k l -> includes (pre ++ join (s ", ") l ++ post) k = true.
Proof.
  intros H. destruct (join_In (s ", ") k l H) as (x & y & ->).
  replace (pre ++ (x ++ k ++ y) ++ post) with ((pre ++ x) ++ k ++ (y ++ post))
    by (rewrite <- !app_assoc; reflexivity).
  apply includes_intro.
Qed.

(** The two steps of [simpleKeywordInjection]: a block with up to 15
    missing keywords put into the CV, then a sentence with up to 5 of the
    others put before an empty line. *)
Lemma simple_injection_shape cvText im :
  let t := simpleKeywordInjection cvText im in
  let missing := viewMissing im in
  exists tailored1 inj1,
    ((tailored1 = cvText /\ inj1 = []) \/
     (missing <> [] /\ inj1 = firstn 15 missing /\
      exists a b block, cvText = a ++ b /\ tailored1 = a ++ block ++ b /\
                        (forall k, In k inj1 -> includes block k = true) /\
                        (a = [] \/ b = [] \/
                         exists a0 c, a = a0 ++ [c] /\ isLineTerminator c = true))) /\
    (t = mkTailored tailored1 inj1 \/
     exists a b add,
       tailored1 = a ++ nl :: b /\
       tTailoredCV t = a ++ add ++ nl :: b /\
       firstn 5 (filter (TailorUniversal.notIn inj1) missing) <> [] /\
       tInjected t = inj1 ++ firstn 5 (filter (TailorUniversal.notIn inj1) missing) /\
       forall k, In k (firstn 5 (filter (TailorUniversal.notIn inj1) missing)) ->
                 includes add k = true).
Proof.
  intros t missing. subst t. unfold simpleKeywordInjection. cbv zeta.
  fold missing.
  match goal with
  | |- context [match ?X with pair _ _ => _ end] =>
      destruct X as [tailored1 inj1] eqn:E1
  end.
  exists tailored1, inj1. split.
  - destruct missing as [|m0 ms] eqn:Em.
    { injection E1 as <- <-. left. auto. }
    rewrite <- Em in *.
    assert (Hne : missing <> []) by (rewrite Em; discriminate).
    set (toAdd := firstn 15 missing) in *.
    assert (Hnew : forall k, In k toAdd ->
              includes ([nl] ++ s "SKILLS" ++ [nl]
                 ++ bullet :: s " Technical: "
                 ++ join (s ", ") (firstn 8 toAdd) ++ [nl]
                 ++ bullet :: s " Additional: "
                 ++ join (s ", ") (skipn 8 toAdd) ++ [nl; nl]) k = true).
    { intros k Hk. rewrite <- (firstn_skipn 8 toAdd) in Hk.
      apply in_app_or in Hk. destruct Hk as [Hk|Hk].
      - apply (includes_block ([nl] ++ s "SKILLS" ++ [nl] ++ bullet :: s " Technical: ")
                 ([nl] ++ bullet :: s " Additional: "
                       ++ join (s ", ") (skipn 8 toAdd) ++ [nl; nl])
                 (firstn 8 toAdd) k Hk).
      - pose proof (includes_block (bullet :: s " Additional: ") [nl; nl]
                      (skipn 8 toAdd) k Hk) as H.
        apply (includes_inside
                 ([nl] ++ s "SKILLS" ++ [nl] ++ bullet :: s " Technical: "
                       ++ join (s ", ") (firstn 8 toAdd) ++ [nl]) _ []) in H.
        rewrite app_nil_r in H. refine (eq_trans _ H). f_equal.
        repeat (rewrite <- app_assoc || rewrite <- app_comm_cons). reflexivity. }
    destruct (test true skillsPattern cvText).
    + destruct (execIndex skillsPattern cvText) as [index|].
      * injection E1 as <- <-. right. split; [exact Hne|]. split; [reflexivity|].
        eexists _, _, _. split; [symmetry; apply firstn_skipn|].
        split; [reflexivity|]. split.
        { intros k Hk.
          apply (includes_block (bullet :: s " Additional: ") [nl] toAdd k Hk). }
        destruct (indexOfFrom [nl] cvText index 0) as [i|] eqn:Ei;
          [|left; reflexivity].
        right. right. apply indexOfFrom_spec in Ei.
        destruct Ei as (a' & b' & Ec & Ei). simpl in Ei. subst i.
        exists a', nl. split; [|reflexivity].
        rewrite Ec. replace (List.length a' + 1)%nat with (List.length (a' ++ [nl]))
          by (rewrite length_app; reflexivity).
        rewrite (app_assoc a' [nl] b'), firstn_app, Nat.sub_diag, firstn_all.
        cbn [firstn]. rewrite app_nil_r. reflexivity.
      * injection E1 as <- <-. left. auto.
    + destruct (execIndex educationPattern cvText) as [index|] eqn:Eidx.
      * injection E1 as <- <-. right. split; [exact Hne|]. split; [reflexivity|].
        eexists _, _, _. split; [symmetry; apply firstn_skipn|].
        split; [reflexivity|]. split; [exact Hnew|].
        apply execIndex_line_start in Eidx. exact Eidx.
      * injection E1 as <- <-. right. split; [exact Hne|]. split; [reflexivity|].
        exists cvText, [], ([nl] ++ s "SKILLS" ++ [nl]
                 ++ bullet :: s " Technical: "
                 ++ join (s ", ") (firstn 8 toAdd) ++ [nl]
                 ++ bullet :: s " Additional: "
                 ++ join (s ", ") (skipn 8 toAdd) ++ [nl; nl]).
        split; [rewrite app_nil_r; reflexivity|].
        split; [rewrite app_nil_r; reflexivity|]. split; [exact Hnew|].
        right. left. reflexivity.
  - clear E1.
    destruct (execIndex summaryPattern tailored1) as [index|]; [|left; reflexivity].
    destruct (List.length inj1 <? List.length missing)%nat; [|left; reflexivity].
    destruct (filter (TailorUniversal.notIn inj1) missing) as [|r0 rs] eqn:Er;
      [left; reflexivity|].
    rewrite <- Er.
    destruct (indexOfFrom [nl; nl] tailored1 index 0) as [pos|] eqn:Ep;
      [|left; reflexivity].
    destruct (index <? pos)%nat; [|left; reflexivity].
    right. apply indexOfFrom_spec in Ep. destruct Ep as (a & b & Et & Ep).
    simpl in Ep. subst pos. cbn [tTailoredCV tInjected].
    set (more := firstn 5 (filter (TailorUniversal.notIn inj1) missing)).
    exists a, (nl :: b), (s " Expertise includes " ++ join (s ", ") more ++ s ".").
    split; [exact Et|]. split.
    { rewrite Et. apply insertStr_at. }
    split; [subst more; rewrite Er; discriminate|]. split; [reflexivity|].
    intros k Hk. apply (includes_block (s " Expertise includes ") (s ".") more k Hk).
Qed.

Lemma notIn_filter_In inj (l : list str) k :
  In k (filter (TailorUniversal.notIn inj) l) -> In k l /\ ~ In k inj.
Proof.
  intros H. apply filter_In in H. destruct H as [H1 H2]. split; [exact H1|].
  unfold TailorUniversal.notIn in H2. apply negb_true_iff in H2.
  intros Hin. apply memStr_In in Hin. congruence.
Qed.

Lemma simple_injection_props cvText im :
  let t := simpleKeywordInjection cvText im in
  (forall k, In k (tInjected t) -> In k (viewMissing im)) /\
  (NoDup (viewMissing im) -> NoDup (tInjected t)) /\
  (List.length (tInjected t) <= 20)%nat /\
  subseq cvText (tTailoredCV t) /\
  (tInjected t = [] -> tTailoredCV t = cvText).
Proof.
  intros t.
  destruct (simple_injection_shape cvText im) as (tailored1 & inj1 & H1 & H2).
  fold t in H2. cbv zeta in H1.
  assert (S1 : (forall k, In k inj1 -> In k (viewMissing im)) /\
               (NoDup (viewMissing im) -> NoDup inj1) /\
               (List.length inj1 <= 15)%nat /\
               subseq cvText tailored1 /\
               (inj1 = [] -> tailored1 = cvText)).
  { destruct H1 as [[-> ->]|(Hne & -> & a & b & block & Ec & Et & _ & _)].
    - split; [intros k []|]. split; [intros _; constructor|].
      split; [simpl; lia|]. split; [apply subseq_refl|reflexivity].
    - split; [intros k Hk; apply firstn_In in Hk; exact Hk|].
      split; [apply NoDup_firstn|]. split; [rewrite length_firstn; lia|].
      split.
      + rewrite Ec, Et. apply subseq_app_keep, subseq_app_l.
      + intros E. exfalso. apply Hne.
        destruct (viewMissing im); [reflexivity|discriminate]. }
  destruct S1 as (A1 & A2 & A3 & A4 & A5).
  destruct H2 as [->|(a & b & add & Et & Ett & Hmore & Ei & _)].
  - cbn [tInjected tTailoredCV].
    split; [exact A1|]. split; [exact A2|]. split; [lia|].
    split; [exact A4|exact A5].
  - rewrite Ei, Ett. split; [|split; [|split; [|split]]].
    + intros k Hk. apply in_app_or in Hk. destruct Hk as [Hk|Hk]; [auto|].
      apply firstn_In, notIn_filter_In in Hk. tauto.
    + intros Hnd. apply NoDup_app_intro; [auto| |].
      * apply NoDup_firstn, NoDup_filter, Hnd.
      * intros k Hk Hk2. apply firstn_In, notIn_filter_In in Hk2. tauto.
    + rewrite length_app, length_firstn. lia.
    + apply (subseq_trans _ tailored1); [exact A4|].
      rewrite Et. apply subseq_app_keep, subseq_app_l.
    + intros E. apply app_eq_nil in E. destruct E as [_ E]. contradiction.
Qed.

(** X14: [simpleKeywordInjection] reports as injected only keywords of
    [initialMatch.missing], at most 20 of them and none twice when the
    missing list holds none twice; it only adds text to the CV, every
    character of the CV stays, in order; and when it reports no keyword
    the CV is returned as it was. *)
Theorem simple_injection_conservative cvText im :
  let t := simpleKeywordInjection cvText im in
  (forall k, In k (tInjected t) -> In k (viewMissing im)) /\
  (NoDup (viewMissing im) -> NoDup (tInjected t)) /\
  (List.length (tInjected t) <= 20)%nat /\
  subseq cvText (tTailoredCV t) /\
  (tInjected t = [] -> tTailoredCV t = cvText).
Proof. apply simple_injection_props. Qed.

Lemma simple_injection_includes cvText im k :
  (forall kw, In kw (viewMissing im) -> ~ In nl kw) ->
  In k (tInjected (simpleKeywordInjection cvText im)) ->
  includes (tTailoredCV (simpleKeywordInjection cvText im)) k = true.
Proof.
  intros Hfree Hk.
  destruct (simple_injection_shape cvText im) as (tailored1 & inj1 & H1 & H2).
  cbv zeta in H1, H2.
  assert (S1 : forall kw, In kw inj1 ->
                 In kw (viewMissing im) /\ includes tailored1 kw = true).
  { destruct H1 as [[-> ->]|(Hne & -> & a & b & block & Ec & Et & Hb & _)].
    - intros kw [].
    - intros kw Hkw. split; [apply firstn_In in Hkw; exact Hkw|].
      rewrite Et. apply includes_inside, Hb, Hkw. }
  destruct H2 as [E|(a & b & add & Et & Ett & Hmore & Ei & Hadd)].
  - rewrite E in *. cbn [tInjected tTailoredCV] in *. apply S1. exact Hk.
  - rewrite Ett. rewrite Ei in Hk. apply in_app_or in Hk. destruct Hk as [Hk|Hk].
    + destruct (S1 k Hk) as [Hm Hin]. rewrite Et in Hin.
      apply includes_cut; [exact Hin|]. apply Hfree. exact Hm.
    + apply includes_inside. apply Hadd. exact Hk.
Qed.

(** X15: when no missing keyword holds a line feed, every keyword that
    [simpleKeywordInjection] reports as injected occurs in the CV it
    returns. *)
Theorem simple_injection_visible cvText im k :
  (forall kw, In kw (viewMissing im) -> ~ In nl kw) ->
  In k (tInjected (simpleKeywordInjection cvText im)) ->
  includes (tTailoredCV (simpleKeywordInjection cvText im)) k = true.
Proof. apply simple_injection_includes. Qed.

Lemma simple_injection_visible_witness :
  let cv := s "Jane Doe
SUMMARY
Engineer.

SKILLS
Python" in
  let im := mkView 0 [] [s "a1"; s "a2"; s "a3"; s "a4"; s "a5"; s "a6"; s "a7"; s "a8";
                      s "a9"; s "b1"; s "b2"; s "b3"; s "b4"; s "b5"; s "b6";
                      s "docker"] in
  includes (tTailoredCV (simpleKeywordInjection cv im)) (s "docker") = true.
Proof.
  apply (simple_injection_visible
           (s "Jane Doe
SUMMARY
Engineer.

SKILLS
Python")
           (mkView 0 [] [s "a1"; s "a2"; s "a3"; s "a4"; s "a5"; s "a6"; s "a7"; s "a8";
                      s "a9"; s "b1"; s "b2"; s "b3"; s "b4"; s "b5"; s "b6";
                      s "docker"])
           (s "docker")).
  - intros kw Hkw Hnl. cbn [viewMissing In] in Hkw.
    repeat (destruct Hkw as [<-|Hkw];
            [vm_compute in Hnl; repeat (destruct Hnl as [Hnl|Hnl]; [discriminate|]);
             exact Hnl|]).
    exact Hkw.
  - vm_compute. do 15 right. left. reflexivity.
Defined.

End SimpleInjectionFacts.

Module WrittenFacts.

Import RegexSpec WordPatternSpec FloatSpec MatcherSpec RankingSpec TailoringSpec LinesSpec UniversalSpec ParsersSpec PresenceSpec JobKeywordsSpec CvTailorSpec SimpleInjectionSpec WrittenSpec RegexFacts WordPatternFacts FloatFacts MatcherFacts RankingFacts TailoringFacts LinesFacts UniversalFacts ParsersFacts KeywordsFacts UniversalRunFacts PresenceFacts AnalysisFacts JobKeywordsFacts ReconstructFacts CvTailorFacts SimpleInjectionFacts.
Import ListNotations Str Regex Num Sections.
Import KeywordExtractor.
Import TailorUniversal.
Local Open Scope list_scope.

Lemma dropWhile_app_solid A : forall rest,
  hasSolid A ->
  dropWhile isSpace (A ++ rest) = dropWhile isSpace A ++ rest /\
  hasSolid (dropWhile isSpace A).
Proof.
  induction A as [|c A IH]; intros rest (x & Hx & Hs); [destruct Hx|].
  cbn [app dropWhile]. destruct (isSpace c) eqn:Ec.
  - destruct Hx as [->|Hx]; [congruence|]. apply IH. exists x. auto.
  - split; [reflexivity|]. exists c. split; [left; reflexivity|exact Ec].
Qed.

Lemma hasSolid_rev t : hasSolid t -> hasSolid (rev t).
Proof. intros (c & Hc & Hs). exists c. split; [rewrite <- in_rev; exact Hc|exact Hs]. Qed.

Lemma hasSolid_nonempty t : hasSolid t -> t <> [].
Proof. intros (c & Hc & _) ->. destruct Hc. Qed.

Lemma hasSolid_app_l a b : hasSolid a -> hasSolid (a ++ b).
Proof. intros (c & Hc & Hs). exists c. split; [apply in_or_app; left|]; auto. Qed.

Lemma hasSolid_app_r a b : hasSolid b -> hasSolid (a ++ b).
Proof. intros (c & Hc & Hs). exists c. split; [apply in_or_app; right|]; auto. Qed.

(** Trimming does not reach a part that has solid text on both sides. *)
Lemma trim_inside A k B :
  hasSolid A -> hasSolid B ->
  exists A' B', trim (A ++ k ++ B) = A' ++ k ++ B' /\ hasSolid B'.
Proof.
  intros HA HB. unfold trim, trimStart, trimEnd.
  destruct (dropWhile_app_solid A (k ++ B) HA) as [E1 HA'].
  rewrite E1. rewrite !rev_app_distr, <- !app_assoc.
  destruct (dropWhile_app_solid (rev B) (rev k ++ rev (dropWhile isSpace A))
              (hasSolid_rev B HB)) as [E2 HB'].
  rewrite E2. rewrite !rev_app_distr, !rev_involutive, <- !app_assoc.
  exists (dropWhile isSpace A), (rev (dropWhile isSpace (rev B))).
  split; [reflexivity|]. apply hasSolid_rev. exact HB'.
Qed.

Lemma includes_solid A k B : hasSolid B -> includes (A ++ k ++ B) k = true /\ A ++ k ++ B <> [].
Proof.
  intros HB. split; [apply includes_intro|].
  apply hasSolid_nonempty, hasSolid_app_r, hasSolid_app_r, HB.
Qed.

Lemma solid_text (t : string) c :
  In c (s t) -> isSpace c = false -> forall rest, hasSolid (s t ++ rest).
Proof. intros Hc Hs rest. apply hasSolid_app_l. exists c. auto. Qed.

Lemma enhanceSummary_written text kws k :
  In k (injected (enhanceSummary text kws)) ->
  includes (enhanced (enhanceSummary text kws)) k = true /\
  enhanced (enhanceSummary text kws) <> [].
Proof.
  unfold enhanceSummary.
  destruct text as [|c t]; [intros []|]. destruct kws as [|k0 ks]; [intros []|].
  set (missing := firstn MAX_KEYWORDS_SUMMARY _).
  destruct missing as [|m0 ms] eqn:Em; [intros []|]. rewrite <- Em. clear Em.
  assert (Hdot : forall rest, hasSolid (s "." ++ rest)).
  { intros rest. apply (solid_text "." "."%char); [left; reflexivity|reflexivity]. }
  match goal with |- context [match ?v with Some _ => _ | None => _ end] =>
    destruct v as [p|] end; cbn [injected enhanced]; intros Hk.
  - destruct (join_In (s ", ") k _ Hk) as (x & y & E). rewrite E.
    destruct (trim_inside
                (firstn (p + 1) (c :: t) ++ s " Expertise includes " ++ x) k
                (y ++ s "." ++ s " " ++ trim (skipn (p + 1) (c :: t))))
      as (A' & B' & Et & HB').
    + apply hasSolid_app_r, hasSolid_app_l.
      exists "E"%char. split; [right; left; reflexivity|reflexivity].
    + apply hasSolid_app_r, Hdot.
    + replace (firstn (p + 1) (c :: t) ++
               (s " Expertise includes " ++ (x ++ k ++ y) ++ s ".") ++
               s " " ++ trim (skipn (p + 1) (c :: t)))
        with ((firstn (p + 1) (c :: t) ++ s " Expertise includes " ++ x) ++ k ++
              y ++ s "." ++ s " " ++ trim (skipn (p + 1) (c :: t)))
        by (rewrite <- !app_assoc; reflexivity).
      rewrite Et. apply includes_solid. exact HB'.
  - destruct (join_In (s ", ") k _ Hk) as (x & y & E). rewrite E.
    destruct (trim_inside (trim (c :: t) ++ s " Proficient in " ++ x) k (y ++ s "."))
      as (A' & B' & Et & HB').
    + apply hasSolid_app_r, hasSolid_app_l.
      exists "P"%char. split; [right; left; reflexivity|reflexivity].
    + apply hasSolid_app_r. rewrite <- (app_nil_r (s ".")). apply Hdot.
    + replace (trim (c :: t) ++ s " Proficient in " ++ (x ++ k ++ y) ++ s ".")
        with ((trim (c :: t) ++ s " Proficient in " ++ x) ++ k ++ y ++ s ".")
        by (rewrite <- !app_assoc; reflexivity).
      rewrite Et. apply includes_solid. exact HB'.
Qed.

Lemma app_solid_nonempty a (t : string) b c :
  In c (s t) -> a ++ s t ++ b <> [].
Proof.
  intros Hc E. apply app_eq_nil in E. destruct E as [_ E].
  apply app_eq_nil in E. destruct E as [E _]. rewrite E in Hc. destruct Hc.
Qed.

Lemma bulletStep_written line pending :
  let '(line', _, inj) := bulletStep line pending in
  forall k, In k inj -> includes line' k = true /\ line' <> [].
Proof.
  unfold bulletStep.
  destruct (matchBullet line) as [[lead bulletText]|]; [|intros k []].
  destruct pending as [|keyword pending']; [intros k []|].
  destruct (absentFrom bulletText keyword); [|intros k []].
  assert (H1 : forall k, In k [keyword] ->
            includes (lead ++ stripFinalDot bulletText ++ s " with " ++ keyword
                           ++ s ".") k = true /\
            lead ++ stripFinalDot bulletText ++ s " with " ++ keyword ++ s "." <> []).
  { intros k [->|[]]. split.
    - replace (lead ++ stripFinalDot bulletText ++ s " with " ++ k ++ s ".")
        with ((lead ++ stripFinalDot bulletText ++ s " with ") ++ k ++ s ".")
        by (rewrite <- !app_assoc; reflexivity).
      apply includes_intro.
    - rewrite app_assoc.
      apply (app_solid_nonempty _ " with " _ "w"%char). right. left. reflexivity. }
  destruct (if (50 <? List.length bulletText)%nat
            then lastIndexOfFrom ","%char bulletText 0
            else Some (List.length bulletText)) as [p|]; [|exact H1].
  destruct ((20 <? p)%nat && (p <? List.length bulletText)%nat); [|exact H1].
  intros k [->|[]]. split.
  - replace (lead ++ firstn p bulletText ++ s ", utilizing " ++ k ++ skipn p bulletText)
      with ((lead ++ firstn p bulletText ++ s ", utilizing ") ++ k
              ++ skipn p bulletText)
      by (rewrite <- !app_assoc; reflexivity).
    apply includes_intro.
  - rewrite app_assoc.
    apply (app_solid_nonempty _ ", utilizing " _ ","%char). left. reflexivity.
Qed.

Lemma bulletMap_written ls : forall pending k,
  In k (snd (bulletMap ls pending)) ->
  exists line, In line (fst (bulletMap ls pending)) /\
               includes line k = true /\ line <> [].
Proof.
  induction ls as [|line ls IH]; intros pending k; cbn [bulletMap].
  - intros [].
  - pose proof (bulletStep_written line pending) as Hs.
    destruct (bulletStep line pending) as [[line' pending'] inj].
    specialize (IH pending' k).
    destruct (bulletMap ls pending') as [rest' inj'].
    cbn [fst snd] in *. intros Hk. apply in_app_or in Hk. destruct Hk as [Hk|Hk].
    + exists line'. split; [left; reflexivity|apply Hs; exact Hk].
    + destruct (IH Hk) as (l & Hl & Hi). exists l. split; [right; exact Hl|exact Hi].
Qed.

Lemma enhanceExperience_written text kws k :
  In k (injected (enhanceExperience text kws)) ->
  includes (enhanced (enhanceExperience text kws)) k = true /\
  enhanced (enhanceExperience text kws) <> [].
Proof.
  unfold enhanceExperience.
  destruct text as [|c t]; [intros []|]. destruct kws as [|k0 ks]; [intros []|].
  set (missing := firstn MAX_KEYWORDS_EXPERIENCE _).
  destruct missing as [|m0 ms] eqn:Em; [intros []|]. rewrite <- Em. clear Em.
  pose proof (bulletMap_written (splitOn nl (c :: t)) missing k) as Hw.
  destruct (bulletMap (splitOn nl (c :: t)) missing) as [ls inj].
  cbn [fst snd injected enhanced] in *. intros Hk.
  destruct (Hw Hk) as (line & Hl & Hi & Hne).
  destruct (join_In [nl] line ls Hl) as (a & b & E). rewrite E.
  split; [apply includes_inside; exact Hi|].
  intros E0. apply app_eq_nil in E0. destruct E0 as [_ E0].
  apply app_eq_nil in E0. destruct E0 as [E0 _]. contradiction.
Qed.

Lemma enhanceSkills_written text kws k :
  In k (skInjected (enhanceSkills text kws)) ->
  includes (skEnhanced (enhanceSkills text kws)) k = true /\
  skEnhanced (enhanceSkills text kws) <> [].
Proof.
  unfold enhanceSkills. destruct kws as [|k0 ks]; [intros []|].
  set (missing := firstn MAX_KEYWORDS_SKILLS _).
  destruct missing as [|m0 ms] eqn:Em; [intros []|]. rewrite <- Em. clear Em.
  destruct (isNil text || (List.length (trim text) <? 20)%nat);
    cbn [skInjected skEnhanced]; intros Hk;
    destruct (join_In bulletSep k _ Hk) as (x & y & E); rewrite E.
  - split.
    + replace (s "Skills" ++ [nl] ++ x ++ k ++ y)
        with ((s "Skills" ++ [nl] ++ x) ++ k ++ y)
        by (rewrite <- !app_assoc; reflexivity).
      apply includes_intro.
    + discriminate.
  - split.
    + replace (trim text ++ bulletSep ++ x ++ k ++ y)
        with ((trim text ++ bulletSep ++ x) ++ k ++ y)
        by (rewrite <- !app_assoc; reflexivity).
      apply includes_intro.
    + intros E0. apply app_eq_nil in E0. destruct E0 as [_ E0]. discriminate.
Qed.

(** ** Reconstruction keeps the enhanced sections *)

Lemma fold_parts_mono (p : Parsed) (enh : SectionMap) order : forall parts x,
  In x parts ->
  In x (fold_left (fun parts sectionName =>
                     let content := orElse (enh sectionName)
                                           (sections p sectionName) in
                     if truthy content then parts ++ [orEmpty content] else parts)
                  order parts).
Proof.
  induction order as [|n order IH]; intros parts x Hx; cbn [fold_left]; [exact Hx|].
  apply IH. cbv zeta. destruct (truthy _); [apply in_or_app; left|]; exact Hx.
Qed.

Lemma fold_parts_In (p : Parsed) (enh : SectionMap) n order : forall parts,
  In n order -> truthy (enh n) = true ->
  In (orEmpty (enh n))
     (fold_left (fun parts sectionName =>
                   let content := orElse (enh sectionName)
                                         (sections p sectionName) in
                   if truthy content then parts ++ [orEmpty content] else parts)
                order parts).
Proof.
  induction order as [|m order IH]; intros parts Hn Ht; [destruct Hn|].
  cbn [fold_left]. destruct Hn as [->|Hn].
  - apply fold_parts_mono. cbv zeta. unfold orElse. rewrite Ht, Ht.
    apply in_or_app. right. left. reflexivity.
  - apply IH; assumption.
Qed.

Lemma reconstruct_written (p : Parsed) (enh : SectionMap) n text k :
  enh n = Some text -> text <> [] -> includes text k = true ->
  In n (sectionOrder p) \/ (n = skills /\ truthy (sections p skills) = false) ->
  includes (reconstructCV p enh) k = true.
Proof.
  intros En Hne Hi Hwhere.
  assert (Ht : truthy (enh n) = true)
    by (rewrite En; destruct text; [congruence|reflexivity]).
  assert (Hin : exists parts, reconstructCV p enh = join [nl; nl] parts /\ In text parts).
  { unfold reconstructCV. cbv zeta.
    destruct Hwhere as [Ho|[-> Hs]].
    - pose proof (fold_parts_In p enh n (sectionOrder p)
                    (match parsedHeader p with [] => [] | h => [h] end) Ho Ht) as H.
      rewrite En in H. cbn [orEmpty] in H.
      destruct (truthy (enh skills) && negb (truthy (sections p skills))).
      + eexists. split; [reflexivity|]. apply in_or_app. left. exact H.
      + eexists. split; [reflexivity|exact H].
    - rewrite Ht, Hs. cbn [negb andb]. eexists. split; [reflexivity|].
      apply in_or_app. right. rewrite En. left. reflexivity. }
  destruct Hin as (parts & -> & Hin).
  destruct (join_In [nl; nl] text parts Hin) as (a & b & ->).
  apply includes_inside. exact Hi.
Qed.

Lemma section_in_order (p : Parsed) n :
  WellFormed p -> n <> header -> sections p n <> None -> In n (sectionOrder p).
Proof.
  intros (_ & _ & _ & H4 & _) Hn Hs.
  destruct (memName n (sectionOrder p)) eqn:E; [apply memName_In; exact E|].
  exfalso. apply Hs, H4; [exact Hn|]. intros Hin. apply memName_In in Hin. congruence.
Qed.

Lemma universal_tailorCV_cases reliableMatch targetScore cvText keywords r :
  tailorCV reliableMatch targetScore cvText keywords = Returned r ->
  injectedKeywords r = [] \/
  (cvText <> [] /\
   injectedKeywords r
   = injected (summaryResult (runStrategies (parseCV cvText) keywords))
       ++ injected (experienceResult (runStrategies (parseCV cvText) keywords))
       ++ skInjected (skillsResult (runStrategies (parseCV cvText) keywords)) /\
   tailoredCV r
   = reconstructCV (parseCV cvText)
       (enhancedSections (runStrategies (parseCV cvText) keywords))).
Proof.
  unfold tailorCV. destruct cvText as [|c cv]; [discriminate|].
  destruct (keywordListOf keywords) as [|k0 ks].
  { intros E. injection E as <-. left. reflexivity. }
  destruct (target targetScore <=? _)%Z.
  { intros E. injection E as <-. left. reflexivity. }
  intros E. injection E as <-. right.
  split; [discriminate|]. split; reflexivity.
Qed.

(** X16: every keyword that [tailorCV] of [tailor-universal.js] returns
    in [injectedKeywords] occurs in the [tailoredCV] it returns. *)
Theorem universal_injected_written reliableMatch targetScore cvText keywords r :
  tailorCV reliableMatch targetScore cvText keywords = Returned r ->
  forall k, In k (injectedKeywords r) -> includes (tailoredCV r) k = true.
Proof.
  intros E. apply universal_tailorCV_cases in E.
  destruct E as [E|(Hcv & Ei & Et)]; [rewrite E; intros k []|].
  rewrite Ei, Et. clear Ei Et r.
  pose proof (parse_wellformed cvText) as HW.
  set (p := parseCV cvText) in *.
  unfold runStrategies. cbn [summaryResult experienceResult skillsResult enhancedSections].
  set (sumR := enhanceSummary _ _).
  set (expR := enhanceExperience _ _).
  set (skR := enhanceSkills _ _).
  set (enh := upd _ skills _).
  intros k Hk. apply in_app_or in Hk. destruct Hk as [Hk|Hk].
  - destruct (enhanceSummary_written _ _ _ Hk) as [Hi Hne].
    apply (reconstruct_written p enh summary (enhanced sumR) k);
      [reflexivity|exact Hne|exact Hi|].
    left. apply section_in_order; [exact HW|discriminate|].
    intros En. revert Hk. subst sumR. rewrite En. intros [].
  - apply in_app_or in Hk. destruct Hk as [Hk|Hk].
    + destruct (enhanceExperience_written _ _ _ Hk) as [Hi Hne].
      apply (reconstruct_written p enh experience (enhanced expR) k);
        [reflexivity|exact Hne|exact Hi|].
      left. apply section_in_order; [exact HW|discriminate|].
      intros En. revert Hk. subst expR. rewrite En. intros [].
    + destruct (enhanceSkills_written _ _ _ Hk) as [Hi Hne].
      apply (reconstruct_written p enh skills (skEnhanced skR) k);
        [reflexivity|exact Hne|exact Hi|].
      destruct (sections p skills) as [c0|] eqn:Es.
      * left. apply section_in_order; [exact HW|discriminate|congruence].
      * right. split; reflexivity.
Qed.

Lemma universal_injected_written_witness :
  let cv := s "Jane Doe
Summary
Engineer.
Skills
Python" in
  exists r,
    tailorCV None None cv (KwArray [s "docker"]) = Returned r /\
    injectedKeywords r = [s "docker"] /\
    forall k, In k (injectedKeywords r) -> includes (tailoredCV r) k = true.
Proof.
  eexists. split; [vm_compute; reflexivity|]. split; [reflexivity|].
  apply (universal_injected_written None None
           (s "Jane Doe
Summary
Engineer.
Skills
Python") (KwArray [s "docker"])).
  vm_compute. reflexivity.
Defined.

End WrittenFacts.

Module CleanTextFacts.

Import RegexSpec WordPatternSpec FloatSpec MatcherSpec RankingSpec TailoringSpec LinesSpec UniversalSpec ParsersSpec PresenceSpec JobKeywordsSpec CvTailorSpec SimpleInjectionSpec WrittenSpec CleanTextSpec RegexFacts WordPatternFacts FloatFacts MatcherFacts RankingFacts TailoringFacts LinesFacts UniversalFacts ParsersFacts KeywordsFacts UniversalRunFacts PresenceFacts AnalysisFacts JobKeywordsFacts ReconstructFacts CvTailorFacts SimpleInjectionFacts WrittenFacts.
Import ListNotations Str Regex Num Sections.
Import KeywordExtractor.
Local Open Scope list_scope.

(** ** The alphabet of a cleaned text *)

Lemma star_all p : forall t before,
  exists b, star p (fun b t' => Some (b, t')) before t = Some (b, dropWhile p t).
Proof.
  induction t as [|c t IH]; intros before; cbn [star dropWhile].
  - eexists. reflexivity.
  - destruct (p c).
    + destruct (IH (c :: before)) as (b & ->). eexists. reflexivity.
    + eexists. reflexivity.
Qed.

Lemma dropWhile_length (f : ascii -> bool) : forall t,
  (List.length (dropWhile f t) <= List.length t)%nat.
Proof. induction t as [|c t IH]; simpl; [lia|]. destruct (f c); simpl; lia. Qed.

Lemma dropWhile_In (f : ascii -> bool) x : forall t,
  In x (dropWhile f t) -> In x t.
Proof.
  induction t as [|c t IH]; simpl; [auto|]. destruct (f c); [auto|].
  intros H; exact H.
Qed.

Lemma replaceSpaces_chars : forall n t before,
  (List.length t < n)%nat ->
  Forall (fun x => x = " "%char \/ (In x t /\ isSpace x = false))
         (replaceAllFuel n false reSpaces (s " ") before t).
Proof.
  induction n as [|n IH]; intros t before Hn; [lia|].
  cbn [replaceAllFuel]. unfold matchAt, reSpaces, PlusCls. cbn [run].
  destruct t as [|c t]; [constructor|].
  destruct (isSpace c) eqn:Ec.
  - destruct (star_all isSpace t (c :: before)) as (b & ->).
    pose proof (dropWhile_length isSpace t) as Hl.
    replace (List.length (dropWhile isSpace t) <? List.length (c :: t))%nat with true
      by (symmetry; apply Nat.ltb_lt; simpl; lia).
    cbn [app]. constructor; [left; reflexivity|].
    simpl in Hn.
    specialize (IH (dropWhile isSpace t) b ltac:(lia)).
    eapply Forall_impl; [|exact IH]. intros x [Hx|[Hx Hs]]; [left; exact Hx|].
    right. split; [right; apply (dropWhile_In isSpace); exact Hx|exact Hs].
  - constructor; [right; split; [left; reflexivity|exact Ec]|].
    simpl in Hn. specialize (IH t (c :: before) ltac:(lia)).
    eapply Forall_impl; [|exact IH]. intros x [Hx|[Hx Hs]]; [left; exact Hx|].
    right. split; [right; exact Hx|exact Hs].
Qed.

Lemma lower_kept c :
  keptChar c = true -> isSpace c = false -> cleanChar (lowerChar c) = true.
Proof.
  destruct c as [b0 b1 b2 b3 b4 b5 b6 b7].
  destruct b0, b1, b2, b3, b4, b5, b6, b7; vm_compute; intros H1 H2;
    (reflexivity || discriminate).
Qed.

Lemma trim_In x t : In x (trim t) -> In x t.
Proof.
  unfold trim. intros H.
  destruct (trimEnd_split (trimStart t)) as (w & E & _).
  destruct (trimStart_split t) as (w0 & E0 & _).
  rewrite E0. apply in_or_app. right. rewrite E. apply in_or_app. left. exact H.
Qed.

(** X17: a cleaned text holds only lower-case letters, digits, [+], [#],
    [.] and the space character, and neither begins nor ends with a
    space. *)
Theorem cleanText_alphabet text :
  let c := cleanText text in
  Forall (fun x => cleanChar x = true) c /\
  (forall x rest, c = x :: rest -> isSpace x = false) /\
  (forall pre x, c = pre ++ [x] -> isSpace x = false).
Proof.
  intros c. subst c. unfold cleanText.
  destruct text as [|c0 t0].
  { split; [constructor|]. split; [discriminate|].
    intros pre x E. destruct pre; discriminate. }
  set (text := c0 :: t0).
  set (t1 := replaceAll false reSeparator (s " ") (replaceAll false reTag (s " ") text)).
  set (t2 := replaceAll false reSpecial (s " ") t1).
  set (t3 := replaceAll false reSpaces (s " ") t2).
  assert (H2 : Forall (fun x => keptChar x = true) t2).
  { subst t2. unfold reSpecial. change (s " ") with [" "%char].
    rewrite replaceAll_Cls_char. apply Forall_forall. intros x Hx.
    apply in_map_iff in Hx. destruct Hx as (y & <- & _).
    fold (keptChar y). destruct (keptChar y) eqn:E; [exact E|reflexivity]. }
  assert (H3 : Forall (fun x => x = " "%char \/ (keptChar x = true /\ isSpace x = false)) t3).
  { subst t3. unfold replaceAll.
    pose proof (replaceSpaces_chars (S (List.length t2)) t2 [] ltac:(lia)) as H.
    eapply Forall_impl; [|exact H]. intros x [Hx|[Hx Hs]]; [left; exact Hx|].
    right. split; [|exact Hs]. rewrite Forall_forall in H2. apply H2. exact Hx. }
  split; [|split].
  - unfold toLowerCase. apply Forall_forall. intros x Hx.
    apply in_map_iff in Hx. destruct Hx as (y & <- & Hy).
    apply trim_In in Hy. rewrite Forall_forall in H3.
    destruct (H3 y Hy) as [->|[Hk Hs]]; [reflexivity|].
    apply lower_kept; assumption.
  - intros x rest E. destruct (trim_solid t3) as [[Hs|(c & r & Hs & Hc)] _];
      rewrite Hs in E; [discriminate|].
    cbn [toLowerCase map] in E. injection E as <- _. rewrite isSpace_lower. exact Hc.
  - intros pre x E. destruct (trim_solid t3) as [_ [Hs|(r & c & Hs & Hc)]];
      rewrite Hs in E; [destruct pre; discriminate|].
    unfold toLowerCase in E. rewrite map_app in E. cbn [map] in E.
    apply app_inj_tail in E. destruct E as [_ <-]. rewrite isSpace_lower. exact Hc.
Qed.

End CleanTextFacts.

Module PipelineFacts.

Import RegexSpec WordPatternSpec FloatSpec MatcherSpec RankingSpec TailoringSpec LinesSpec UniversalSpec ParsersSpec PresenceSpec JobKeywordsSpec CvTailorSpec SimpleInjectionSpec WrittenSpec CleanTextSpec PipelineSpec RegexFacts WordPatternFacts FloatFacts MatcherFacts RankingFacts TailoringFacts LinesFacts UniversalFacts ParsersFacts KeywordsFacts UniversalRunFacts PresenceFacts AnalysisFacts JobKeywordsFacts ReconstructFacts CvTailorFacts SimpleInjectionFacts WrittenFacts CleanTextFacts.
Import ListNotations Str Regex Num Sections.
Import KeywordExtractor.
Import AutoTailor95.
Local Open Scope list_scope.

(** ** The orchestrator with no optional module loaded *)

Lemma includes_lower t k :
  includes t k = true -> includes (toLowerCase t) (toLowerCase k) = true.
Proof.
  intros H. apply includes_app in H. destruct H as (pre & post & ->).
  unfold toLowerCase. rewrite !map_app. apply includes_intro.
Qed.

Lemma includes_cut_after a c b x k :
  includes (a ++ [c] ++ b) k = true -> ~ In c k ->
  includes (a ++ [c] ++ x ++ b) k = true.
Proof.
  intros H Hc. apply includes_app in H. destruct H as (pre & post & E).
  rewrite app_assoc in E. apply app_eq_app in E.
  destruct E as (l & [[E1 E2]|[E1 E2]]).
  - apply app_eq_app in E2. destruct E2 as (m & [[E3 E4]|[E3 E4]]).
    + destruct l as [|l1 ls].
      * rewrite app_nil_r in E1. cbn [app] in E3. subst m b.
        replace (a ++ [c] ++ x ++ k ++ post) with ((a ++ [c] ++ x) ++ k ++ post)
          by (rewrite <- !app_assoc; reflexivity).
        apply includes_intro.
      * exfalso. destruct (exists_last (l := l1 :: ls)) as (l0 & c' & El);
          [discriminate|].
        rewrite El, app_assoc in E1. apply app_inj_tail in E1.
        destruct E1 as [_ <-]. apply Hc. rewrite E3, El.
        apply in_or_app. left. apply in_or_app. right. left. reflexivity.
    + subst l post. rewrite app_assoc, E1.
      replace ((pre ++ k ++ m) ++ x ++ b) with (pre ++ k ++ (m ++ x ++ b))
        by (rewrite <- !app_assoc; reflexivity).
      apply includes_intro.
  - subst b.
    replace (a ++ [c] ++ x ++ l ++ k ++ post) with ((a ++ [c] ++ x ++ l) ++ k ++ post)
      by (rewrite <- !app_assoc; reflexivity).
    apply includes_intro.
Qed.

Lemma plain_char c :
  isLowerAZ c || isDigit c = true ->
  lowerChar c = c /\ isLineTerminator c = false.
Proof. all_ascii c; intros _; split; reflexivity. Qed.

Lemma plainWord_lower k : plainWord k -> toLowerCase k = k.
Proof.
  unfold plainWord. induction k as [|c k IH]; [reflexivity|]. cbn [forallb].
  intros H. apply andb_true_iff in H. destruct H as [Hc Hk].
  cbn [toLowerCase map]. destruct (plain_char c Hc) as [-> _].
  f_equal. apply IH. exact Hk.
Qed.

Lemma plainWord_no_terminator k c :
  plainWord k -> isLineTerminator c = true -> ~ In c k.
Proof.
  unfold plainWord. intros Hk Hc Hin. rewrite forallb_forall in Hk.
  destruct (plain_char c (Hk c Hin)) as [_ H]. congruence.
Qed.

Lemma terminator_lower c : isLineTerminator (lowerChar c) = isLineTerminator c.
Proof. all_ascii c. Qed.

(** Text put in at the start, at the end, after a line terminator or
    before one does not hide a plain word that was there. *)
Lemma insertion_keeps_word a b x k :
  plainWord k ->
  a = [] \/ b = [] \/
  (exists a0 c, a = a0 ++ [c] /\ isLineTerminator c = true) \/
  (exists c b0, b = c :: b0 /\ isLineTerminator c = true) ->
  includes (toLowerCase (a ++ b)) k = true ->
  includes (toLowerCase (a ++ x ++ b)) k = true.
Proof.
  intros Hk Hcut H. unfold toLowerCase in *. rewrite !map_app in *.
  destruct Hcut as [->|[->|[(a0 & c & -> & Hc)|(c & b0 & -> & Hc)]]].
  - cbn [map app] in *.
    apply (includes_inside (map lowerChar x) (map lowerChar b) []) in H.
    rewrite app_nil_r in H. exact H.
  - cbn [map] in *. rewrite app_nil_r in *.
    apply (includes_inside [] (map lowerChar a) (map lowerChar x)) in H. exact H.
  - rewrite map_app in *. cbn [map] in *. rewrite <- app_assoc in *.
    apply includes_cut_after; [exact H|].
    apply plainWord_no_terminator; [exact Hk|]. rewrite terminator_lower. exact Hc.
  - cbn [map] in *. apply includes_cut; [exact H|].
    apply plainWord_no_terminator; [exact Hk|]. rewrite terminator_lower. exact Hc.
Qed.

Lemma simple_injection_keeps_word cvText im k :
  plainWord k ->
  includes (toLowerCase cvText) k = true ->
  includes (toLowerCase (tTailoredCV (simpleKeywordInjection cvText im))) k = true.
Proof.
  intros Hk H.
  destruct (simple_injection_shape cvText im) as (tailored1 & inj1 & H1 & H2).
  cbv zeta in H1, H2.
  assert (S1 : includes (toLowerCase tailored1) k = true).
  { destruct H1 as [[-> _]|(_ & _ & a & b & block & Ec & -> & _ & Hcut)];
      [exact H|].
    rewrite Ec in H. apply insertion_keeps_word; [exact Hk| |exact H].
    destruct Hcut as [Hc|[Hc|Hc]]; auto. }
  destruct H2 as [->|(a & b & add & Et & -> & _)]; [exact S1|].
  rewrite Et in S1. apply insertion_keeps_word; [exact Hk| |exact S1].
  right. right. right. exists nl, b. split; reflexivity.
Qed.

Lemma fallback_pipeline_result g targetScore maxKeywords jd cv log r :
  gReliable g = None -> gKeywordExtractor g = false ->
  gDynamicScore g = None -> gValidationEngine g = None ->
  gTailorUniversal g = false -> gCVTailor g = false ->
  autoTailorTo95Plus g targetScore maxKeywords jd cv = (log, TailorUniversal.Returned r) ->
  let kws := simpleKeywordExtraction maxKeywords jd in
  let t := simpleKeywordInjection cv (fallbackMatch cv kws) in
  keywords r = kws /\
  tailoredCV r = tTailoredCV t /\
  injectedKeywords r = tInjected t /\
  matchedKeywords r = viewMatched (fallbackMatch (tTailoredCV t) kws) /\
  calculateInitialMatch g cv kws = fallbackMatch cv kws.
Proof.
  intros Hr Hk Hd Hv Hu Hc.
  unfold autoTailorTo95Plus, tailorCVForTarget, calculateInitialMatch,
    calculateFinalMatch, extractJobKeywords.
  rewrite Hr, Hk, Hd, Hv, Hu, Hc.
  destruct jd as [|j jd]; [discriminate|]. destruct cv as [|c cv]; [discriminate|].
  destruct (all (simpleKeywordExtraction maxKeywords (j :: jd))); [discriminate|].
  intros E. injection E as _ <-. repeat split.
Qed.

(** X18: when no optional module is loaded, a run of
    [autoTailorTo95Plus] that returns only adds text to the CV; every
    keyword it reports as injected is among the matched keywords of the
    result; every keyword matched in the base CV is still matched; and the
    number of matched keywords does not go down. *)
Theorem fallback_pipeline_keeps_matches g targetScore maxKeywords jd cv log r :
  gReliable g = None -> gKeywordExtractor g = false ->
  gDynamicScore g = None -> gValidationEngine g = None ->
  gTailorUniversal g = false -> gCVTailor g = false ->
  autoTailorTo95Plus g targetScore maxKeywords jd cv = (log, TailorUniversal.Returned r) ->
  let before := viewMatched (calculateInitialMatch g cv (keywords r)) in
  subseq cv (tailoredCV r) /\
  (forall k, In k (injectedKeywords r) -> In k (matchedKeywords r)) /\
  (forall k, In k before -> In k (matchedKeywords r)) /\
  (List.length before <= List.length (matchedKeywords r))%nat.
Proof.
  intros Hr Hk Hd Hv Hu Hc E.
  destruct (fallback_pipeline_result _ _ _ _ _ _ _ Hr Hk Hd Hv Hu Hc E)
    as (Ek & Et & Ei & Em & E0).
  cbv zeta. rewrite Et, Ei, Em, Ek, E0. clear E Ek Et Ei Em E0 r log.
  set (kws := simpleKeywordExtraction maxKeywords jd).
  set (im := fallbackMatch cv kws).
  assert (Hplain : forall k, In k (all kws) -> plainWord k).
  { intros k Hin. apply (simple_keyword_word maxKeywords jd k Hin). }
  assert (Hmiss : forall k, In k (viewMissing im) -> In k (all kws)).
  { intros k Hin. unfold im, fallbackMatch in Hin. cbn [viewMissing] in Hin.
    apply filter_In in Hin. tauto. }
  destruct (simple_injection_props cv im) as (P1 & _ & _ & P4 & _).
  assert (Hinc : forall k, In k (viewMatched im) ->
            In k (viewMatched (fallbackMatch
                    (tTailoredCV (simpleKeywordInjection cv im)) kws))).
  { intros k Hin. unfold im in Hin at 1. unfold fallbackMatch in Hin |- *.
    cbn [viewMatched] in *. apply filter_In in Hin. destruct Hin as [Hin Hm].
    apply filter_In. split; [exact Hin|].
    rewrite (plainWord_lower k (Hplain k Hin)) in *.
    apply simple_injection_keeps_word; [apply Hplain; exact Hin|exact Hm]. }
  split; [exact P4|]. split; [|split; [exact Hinc|]].
  - intros k Hin. pose proof (Hmiss k (P1 k Hin)) as Hall.
    unfold fallbackMatch. cbn [viewMatched]. apply filter_In. split; [exact Hall|].
    apply includes_lower. apply simple_injection_includes; [|exact Hin].
    intros kw Hkw. apply plainWord_no_terminator; [|reflexivity].
    apply Hplain, Hmiss, Hkw.
  - apply NoDup_incl_length; [|exact Hinc].
    unfold im, fallbackMatch. cbn [viewMatched].
    apply NoDup_filter. apply simple_all_NoDup.
Qed.

Lemma fallback_pipeline_keeps_matches_witness :
  let g := mkGlobals None false None None false false in
  let jd := s "We need python, docker and kubernetes skills" in
  let cv := s "Jane Doe
SKILLS
Python" in
  exists log r,
    autoTailorTo95Plus g 95 35 jd cv = (log, TailorUniversal.Returned r) /\
    In (s "docker") (injectedKeywords r) /\
    subseq cv (tailoredCV r) /\
    (forall k, In k (injectedKeywords r) -> In k (matchedKeywords r)) /\
    (forall k, In k (viewMatched (calculateInitialMatch g cv (keywords r))) ->
               In k (matchedKeywords r)) /\
    (List.length (viewMatched (calculateInitialMatch g cv (keywords r)))
     <= List.length (matchedKeywords r))%nat.
Proof.
  eexists. eexists. split; [vm_compute; reflexivity|].
  split; [vm_compute; tauto|].
  eapply (fallback_pipeline_keeps_matches
           (mkGlobals None false None None false false) 95 35
           (s "We need python, docker and kubernetes skills")
           (s "Jane Doe
SKILLS
Python")); reflexivity.
Defined.

End PipelineFacts.
